(** * Travertino: node tree and style declarations

    A shallow embedding of [travertino/node.py] and
    [travertino/declaration.py].  Python objects live in explicit stores:
    nodes in a heap indexed by object identity, style instances as their
    attribute dictionary together with the trace of [apply] calls.
    Exceptions are results that carry the store at the point of the
    [raise], so that what a failed call left behind can be stated. *)

From Stdlib Require Import Ascii String.
From stdpp Require Import gmap strings list.

Set Warnings "-register-all".

Open Scope string_scope.
Open Scope list_scope.
Open Scope nat_scope.

(* ===================================================================== *)
(** * node.py *)
(* ===================================================================== *)

Module Node.

(** The only exception [node.py] raises itself is [ValueError]; the one
    raised by [list.remove] for a missing element is a [ValueError] too,
    and [list.insert] raises [OverflowError] for an index that does not
    fit a C [ssize_t]. *)
Inductive exn :=
| ValueError (msg : string)
| OverflowError (msg : string).

(** The tree fields of a [Node] instance ([style], [applicator] and the
    layout objects play no part in the tree operations and are left
    out).  [None] in [_children] is a leaf, [Some []] a branch without
    children. *)
Record node := mk_node {
  _parent : option nat;
  _root : option nat;
  _children : option (list nat)
}.

(** Nodes are identified by a number (their Python identity). *)
Abbreviation heap := (gmap nat node).

(** Outcome of a call: normal return, an exception (with the heap as it
    is when the exception leaves the call), recursion that did not end
    within the fuel, or a reference to a node that was never created
    (which no Python program can produce). *)
Inductive result :=
| Ret (h : heap)
| Raise (h : heap) (e : exn)
| OutOfFuel
| Dangling.

Definition bind (r : result) (k : heap → result) : result :=
  match r with
  | Ret h => k h
  | other => other
  end.

(** [for x in xs: body(x)] *)
Fixpoint for_each (xs : list nat) (body : nat → heap → result) (h : heap)
  : result :=
  match xs with
  | [] => Ret h
  | x :: xs' => bind (body x h) (for_each xs' body)
  end.

Definition set_parent (nd : node) (p : option nat) : node :=
  mk_node p (_root nd) (_children nd).
Definition set_root (nd : node) (r : option nat) : node :=
  mk_node (_parent nd) r (_children nd).
Definition set_children (nd : node) (cs : option (list nat)) : node :=
  mk_node (_parent nd) (_root nd) cs.

(** [obj.attr = v] on an existing object *)
Definition update (h : heap) (n : nat) (f : node → node) : result :=
  match h !! n with
  | Some nd => Ret (<[n := f nd]> h)
  | None => Dangling
  end.

(** The [root] property: [self._root if self._root else self]
    (a [Node] is always truthy). *)
Definition root (h : heap) (self : nat) : option nat :=
  match h !! self with
  | Some nd => Some (default self (_root nd))
  | None => None
  end.

(** The [parent] property. *)
Definition parent (h : heap) (self : nat) : option (option nat) :=
  _parent <$> h !! self.

(** The [children] property: always a list. *)
Definition children (nd : node) : list nat := default [] (_children nd).

Definition can_have_children (nd : node) : bool :=
  match _children nd with Some _ => true | None => false end.

(** [_set_root(node, root)]: depth-first propagation.  The recursion is
    on the tree stored in the heap, so the model is given fuel for the
    depth of the call stack. *)
Fixpoint _set_root (fuel : nat) (node : nat) (rt : option nat) (h : heap)
  : result :=
  match fuel with
  | O => OutOfFuel
  | S fuel' =>
      match h !! node with
      | None => Dangling
      | Some nd =>
          for_each (children nd)
                   (fun child => _set_root fuel' child rt)
                   (<[node := set_root nd rt]> h)
      end
  end.

(** [sys.maxsize]: the largest value of a C [ssize_t] (a 64-bit build
    of the interpreter). *)
Definition maxsize : Z := (2 ^ 63 - 1)%Z.

(** Whether an [int] can be converted to a C [ssize_t]. *)
Definition fits_ssize_t (index : Z) : bool :=
  ((- maxsize - 1 <=? index) && (index <=? maxsize))%Z.

(** Where [list.insert] puts the item in a list of [len] items: a
    negative index counts from the end, and an index out of range is
    clamped to the nearest end. *)
Definition insert_position (index : Z) (len : nat) : nat :=
  let n := Z.of_nat len in
  let i := if (index <? 0)%Z then (index + n)%Z else index in
  let i := if (i <? 0)%Z then 0%Z else i in
  let i := if (n <? i)%Z then n else i in
  Z.to_nat i.

(** [list.insert(index, x)]: [None] when the index does not fit a C
    [ssize_t] (Python raises [OverflowError] and leaves the list as it
    is). *)
Definition list_insert_at {A} (index : Z) (x : A) (l : list A)
  : option (list A) :=
  if fits_ssize_t index then
    let i := insert_position index (length l) in
    Some (take i l ++ x :: drop i l)
  else None.

(** [list.remove(x)]: drops the first occurrence, [None] when there is
    none (Python raises [ValueError]). *)
Fixpoint list_remove (x : nat) (l : list nat) : option (list nat) :=
  match l with
  | [] => None
  | y :: l' =>
      if decide (y = x) then Some l'
      else cons y <$> list_remove x l'
  end.

(** Shared tail of [add] and [insert]:
    [child._parent = self; self._set_root(child, self.root)]. *)
Definition attach (fuel : nat) (self child : nat) (h : heap) : result :=
  bind (update h child (fun cd => set_parent cd (Some self))) (fun h =>
  match root h self with
  | Some r => _set_root fuel child (Some r) h
  | None => Dangling
  end).

Definition add (fuel : nat) (h : heap) (self child : nat) : result :=
  match h !! self with
  | None => Dangling
  | Some nd =>
      match _children nd with
      | None => Raise h (ValueError "Cannot add children")
      | Some cs =>
          attach fuel self child
                 (<[self := set_children nd (Some (cs ++ [child]))]> h)
      end
  end.

Definition insert (fuel : nat) (h : heap) (self : nat) (index : Z)
  (child : nat) : result :=
  match h !! self with
  | None => Dangling
  | Some nd =>
      match _children nd with
      | None => Raise h (ValueError "Cannot insert child")
      | Some cs =>
          match list_insert_at index child cs with
          | None =>
              Raise h (OverflowError
                         "Python int too large to convert to C ssize_t")
          | Some cs' =>
              attach fuel self child
                     (<[self := set_children nd (Some cs')]> h)
          end
      end
  end.

(** Shared tail of [remove] and of the loop body of [clear]:
    [child._parent = None; self._set_root(child, None)]. *)
Definition detach (fuel : nat) (child : nat) (h : heap) : result :=
  bind (update h child (fun cd => set_parent cd None))
       (_set_root fuel child None).

Definition remove (fuel : nat) (h : heap) (self child : nat) : result :=
  match h !! self with
  | None => Dangling
  | Some nd =>
      match _children nd with
      | None => Raise h (ValueError "Cannot remove children")
      | Some cs =>
          match list_remove child cs with
          | None => Raise h (ValueError "list.remove(x): x not in list")
          | Some cs' =>
              detach fuel child (<[self := set_children nd (Some cs')]> h)
          end
      end
  end.

Definition clear (fuel : nat) (h : heap) (self : nat) : result :=
  match h !! self with
  | None => Dangling
  | Some nd =>
      match _children nd with
      | None => Ret h
      | Some cs =>
          bind (for_each cs (detach fuel) h) (fun h =>
          update h self (fun nd => set_children nd (Some [])))
      end
  end.

(** [Node.__init__], tree part: a new object, then [self.add(child)] for
    each given child.  Returns the identity of the new node as well. *)
Definition fresh_node : node := mk_node None None None.

Definition Node_init (fuel : nat) (h : heap) (kids : option (list nat))
  : nat * result :=
  let self := fresh (dom h) in
  (self,
   match kids with
   | None => Ret (<[self := fresh_node]> h)
   | Some cs =>
       for_each cs (fun child h => add fuel h self child)
                (<[self := set_children fresh_node (Some [])]> h)
   end).

(** ** Operations as a state machine *)

Inductive op :=
| OpNew (kids : option (list nat))   (* [Node(style, children=kids)] *)
| OpAdd (self child : nat)
| OpInsert (self : nat) (index : Z) (child : nat)
| OpRemove (self child : nat)
| OpClear (self : nat).

Definition exec (fuel : nat) (h : heap) (o : op) : result :=
  match o with
  | OpNew kids => snd (Node_init fuel h kids)
  | OpAdd self child => add fuel h self child
  | OpInsert self index child => insert fuel h self index child
  | OpRemove self child => remove fuel h self child
  | OpClear self => clear fuel h self
  end.

(** The heap a caller goes on with: after a return, or after catching
    the exception. *)
Definition heap_after (r : result) : option heap :=
  match r with
  | Ret h => Some h
  | Raise h _ => Some h
  | OutOfFuel => None
  | Dangling => None
  end.

(** Run a sequence of operations, each one only if [pre] allows it. *)
Fixpoint run (pre : heap → op → bool) (fuel : nat) (ops : list op)
  (h : heap) : option heap :=
  match ops with
  | [] => Some h
  | o :: ops' =>
      if pre h o then
        match heap_after (exec fuel h o) with
        | Some h' => run pre fuel ops' h'
        | None => None
        end
      else None
  end.

(** ** Tree structure read off the heap *)

Definition child_of (h : heap) (p c : nat) : Prop :=
  ∃ nd, h !! p = Some nd ∧ c ∈ children nd.

Definition reaches (h : heap) : nat → nat → Prop := rtc (child_of h).

Definition is_root (h : heap) (r : nat) : Prop :=
  ∃ nd, h !! r = Some nd ∧ _parent nd = None.

(** [height_le h n k]: a chain of children edges that starts at [n]
    has at most [k] nodes. *)
Inductive height_le (h : heap) : nat → nat → Prop :=
| height_le_intro n k :
    (∀ c, child_of h n c → height_le h c k) → height_le h n (S k).

(** Parent pointers agree with the children sequences. *)
Definition parent_consistent (h : heap) : Prop :=
  ∀ p c, child_of h p c ↔ parent h c = Some (Some p).

(** Every node below a root reports that root. *)
Definition root_consistent (h : heap) : Prop :=
  ∀ r n, is_root h r → reaches h r n → root h n = Some r.

(** Is [a] the node [n] or one of its ancestors?  Follows parent
    pointers for at most [fuel] steps and answers [true] if that is not
    enough. *)
Fixpoint on_parent_chain (fuel : nat) (h : heap) (a n : nat) : bool :=
  match fuel with
  | O => true
  | S fuel' =>
      if decide (a = n) then true
      else match h !! n with
           | Some nd =>
               match _parent nd with
               | Some p => on_parent_chain fuel' h a p
               | None => false
               end
           | None => false
           end
  end.

Definition allocated (h : heap) (n : nat) : bool :=
  bool_decide (is_Some (h !! n)).

Definition parentless (h : heap) (n : nat) : bool :=
  match h !! n with
  | Some nd => match _parent nd with None => true | Some _ => false end
  | None => false
  end.

Definition childless (h : heap) (n : nat) : bool :=
  match h !! n with
  | Some nd => match children nd with [] => true | _ => false end
  | None => false
  end.

(** [child] is the root of a tree that does not contain [self]. *)
Definition attachable (h : heap) (self child : nat) : bool :=
  allocated h self && parentless h child
  && negb (on_parent_chain (S (size h)) h child self).

(** Allowed calls for the parent-pointer invariant: every node passed
    to [add] or [insert] is the root of another tree, and the children
    given to a new node are distinct roots. *)
Definition pre_attach (h : heap) (o : op) : bool :=
  match o with
  | OpNew None => true
  | OpNew (Some cs) => forallb (parentless h) cs && bool_decide (NoDup cs)
  | OpAdd self child => attachable h self child
  | OpInsert self _ child => attachable h self child
  | OpRemove self child => allocated h self && allocated h child
  | OpClear self => allocated h self
  end.

(** Allowed calls for the root invariant: as above, and a child that is
    removed or cleared has no children of its own. *)
Definition pre_root (h : heap) (o : op) : bool :=
  pre_attach h o &&
  match o with
  | OpRemove self child => childless h child
  | OpClear self =>
      match h !! self with
      | Some nd => forallb (childless h) (children nd)
      | None => false
      end
  | _ => true
  end.

Definition any_call (h : heap) (o : op) : bool := true.

(** Auxiliary notions for the proofs. *)

Definition same_kids (h g : heap) : Prop :=
  ∀ n, _children <$> h !! n = _children <$> g !! n.

Definition root_set (rt : option nat) (nd : node) : node := set_root nd rt.

(** [g'] is [g] with [_root := rt] on the nodes in [P] and nothing else
    changed; the traversal decides [P] on the way. *)
Definition written (P : nat → Prop) (rt : option nat) (g g' : heap) : Prop :=
  ∀ m, (P m ∧ g' !! m = root_set rt <$> g !! m)
       ∨ (¬ P m ∧ g' !! m = g !! m).

(** A result other than running out of fuel. *)
Definition finished (r : result) : Prop :=
  match r with OutOfFuel => False | _ => True end.

Definition same_shape (h g : heap) : Prop :=
  ∀ n, (fun nd => (_parent nd, _children nd)) <$> h !! n
       = (fun nd => (_parent nd, _children nd)) <$> g !! n.

Definition closed (h : heap) : Prop :=
  ∀ p c, child_of h p c → is_Some (h !! c).

Record wf (h : heap) : Prop := mk_wf {
  wf_down : ∀ p c, child_of h p c →
            ∃ cd, h !! c = Some cd ∧ _parent cd = Some p;
  wf_up : ∀ c cd p, h !! c = Some cd → _parent cd = Some p → child_of h p c;
  wf_nodup : ∀ p nd, h !! p = Some nd → NoDup (children nd);
  wf_height : ∀ n, ∃ k, height_le h n k
}.

(** A node that cannot have children. *)
Definition is_leaf (h : heap) (n : nat) : Prop :=
  ∃ nd, h !! n = Some nd ∧ _children nd = None.

(** [Inv] holds of the heap a result leaves behind. *)
Definition result_inv (Inv : heap → Prop) (r : result) : Prop :=
  match r with
  | Ret h => Inv h
  | Raise h _ => Inv h
  | OutOfFuel => True
  | Dangling => True
  end.

(** Root pointers, node by node. *)
Definition root_ok (h : heap) : Prop :=
  ∀ n nd, h !! n = Some nd →
    match _parent nd with
    | None => _root nd = None
    | Some p => ∃ r, root h p = Some r ∧ _root nd = Some r
    end.

(** ** Sample runs *)

(** Three nodes: two branches [0], [1] and a leaf [2]. *)
Definition three_nodes : list op :=
  [OpNew (Some []); OpNew (Some []); OpNew None].

(** [n1.add(n2); n0.add(n1)]: the chain 0 - 1 - 2. *)
Definition chain_ops : list op := three_nodes ++ [OpAdd 1 2; OpAdd 0 1].

Definition chain : heap :=
  list_to_map [(0, mk_node None None (Some [1]));
               (1, mk_node (Some 0) (Some 0) (Some [2]));
               (2, mk_node (Some 1) (Some 0) None)].

(** [n0.add(n2); n1.add(n2)]: the leaf is given to a second parent. *)
Definition shared_child_ops : list op := three_nodes ++ [OpAdd 0 2; OpAdd 1 2].

(** The chain again, then [n0.remove(n1)]. *)
Definition cut_chain_ops : list op := chain_ops ++ [OpRemove 0 1].

(** The scenario of [test_create_node]: three leaves, a node created
    with them as children, and a new node that then adopts that node. *)
Definition create_node_ops : list op :=
  [OpNew None; OpNew None; OpNew None; OpNew (Some [0; 1; 2]);
   OpNew (Some []); OpAdd 4 3].

Definition one_leaf : heap := {[ 0 := fresh_node ]}.

End Node.

(* ===================================================================== *)
(** * declaration.py *)
(* ===================================================================== *)

Module Declaration.

(** ** Python values *)

(** A float: not-a-number, an infinity, or the dyadic number [m * 2^e]. *)
Inductive pyfloat :=
| FNan
| FInf (negative : bool)
| FFin (m e : Z).

(** The values that reach the style machinery.  A string is its
    sequence of characters, each a code point below 256.  [VImm] is an
    [ImmutableList]; [VProp name] is the descriptor object bound to the
    class attribute [name]. *)
Inductive value :=
| VNone
| VInt (z : Z)
| VFloat (f : pyfloat)
| VStr (s : string)
| VTuple (items : list value)
| VList (items : list value)
| VImm (items : list value)
| VProp (name : string).

Definition dyadic_eqb (m1 e1 m2 e2 : Z) : bool :=
  let e := Z.min e1 e2 in
  (m1 * 2 ^ (e1 - e) =? m2 * 2 ^ (e2 - e))%Z.

Definition float_eqb (f g : pyfloat) : bool :=
  match f, g with
  | FInf a, FInf b => Bool.eqb a b
  | FFin m1 e1, FFin m2 e2 => dyadic_eqb m1 e1 m2 e2
  | _, _ => false
  end.

Definition list_eqb {A} (eqb : A → A → bool) : list A → list A → bool :=
  fix go l l' :=
    match l, l' with
    | [], [] => true
    | x :: l, y :: l' => eqb x y && go l l'
    | _, _ => false
    end.

(** [a == b].  Numbers compare by value across [int] and [float], a NaN
    equals nothing, sequences compare item by item (a tuple never equals
    a list; an [ImmutableList] compares its data with a list or with the
    data of another [ImmutableList]), descriptors by identity. *)
Fixpoint py_eq (a b : value) : bool :=
  match a, b with
  | VNone, VNone => true
  | VInt x, VInt y => (x =? y)%Z
  | VInt x, VFloat g => float_eqb (FFin x 0) g
  | VFloat f, VInt y => float_eqb f (FFin y 0)
  | VFloat f, VFloat g => float_eqb f g
  | VStr s, VStr t => String.eqb s t
  | VTuple l, VTuple l' => list_eqb py_eq l l'
  | VList l, VList l' => list_eqb py_eq l l'
  | VImm l, VImm l' => list_eqb py_eq l l'
  | VImm l, VList l' => list_eqb py_eq l l'
  | VList l, VImm l' => list_eqb py_eq l l'
  | VProp n, VProp m => String.eqb n m
  | _, _ => false
  end.

(** [a != b] *)
Definition py_ne (a b : value) : bool := negb (py_eq a b).

(** ** Strings *)

(** [str.isspace] on one character (code points below 256). *)
Definition is_space (c : ascii) : bool :=
  let n := nat_of_ascii c in
  ((9 <=? n) && (n <=? 13)) || ((28 <=? n) && (n <=? 32))
  || (n =? 133) || (n =? 160).

Fixpoint lstrip (s : string) : string :=
  match s with
  | EmptyString => EmptyString
  | String c s' => if is_space c then lstrip s' else s
  end.

Fixpoint string_rev_onto (s acc : string) : string :=
  match s with
  | EmptyString => acc
  | String c s' => string_rev_onto s' (String c acc)
  end.

Definition string_rev (s : string) : string := string_rev_onto s EmptyString.

Definition rstrip (s : string) : string := string_rev (lstrip (string_rev s)).

(** [s.strip()] *)
Definition strip (s : string) : string := rstrip (lstrip s).

(** [name.replace("-", "_")] *)
Fixpoint replace_hyphens (name : string) : string :=
  match name with
  | EmptyString => EmptyString
  | String c rest =>
      String (if Ascii.eqb c "-" then "_"%char else c) (replace_hyphens rest)
  end.

Fixpoint hyphen_free (name : string) : bool :=
  match name with
  | EmptyString => true
  | String c rest => negb (Ascii.eqb c "-") && hyphen_free rest
  end.

(** [fmt.format(arg)] for a template with one replacement field [{}]:
    the first field is replaced, the text around it is kept. *)
Fixpoint str_format (fmt arg : string) : string :=
  match fmt with
  | EmptyString => EmptyString
  | String c rest =>
      match rest with
      | String d rest' =>
          if Ascii.eqb c "{" && Ascii.eqb d "}" then (arg ++ rest')%string
          else String c (str_format rest arg)
      | EmptyString => fmt
      end
  end.

(** ** Exceptions and results *)

(** Why a [ValueError] was raised (the text of the message is not
    modelled). *)
Inductive value_error :=
| NotAValidValue (v : value)                   (* [Choices.validate] *)
| InvalidInitial (v : value)                   (* [validated_property.__init__] *)
| InvalidValue (v : value) (prop : string)     (* [validated_property.validate] *)
| InvalidItem (v : value) (prop : string)      (* [list_property.validate] *)
| EmptyList (prop : string)                    (* [list_property.validate] *)
| NoneNotAllowed (prop : string)               (* [validated_property.__set__] *)
| InvalidShorthand (prop : string).            (* [directional_property.__set__] *)

Inductive exn :=
| ValueError (why : value_error)
| TypeError (prop : string)
| KeyError (key : string)
| NameError (name : string)
| AttributeError (name : string)
| OtherError (what : string).

(** Result of a computation that has no access to a style object. *)
Inductive outcome (A : Type) :=
| Ok (a : A)
| Err (e : exn).
Arguments Ok {A} a.
Arguments Err {A} e.

(** What a coercion by a builtin or by the colour parser does: a value,
    one of the exceptions the caller catches, or any other exception. *)
Inductive coerce (A : Type) :=
| Coerced (a : A)
| Fails
| Escapes (e : exn).
Arguments Coerced {A} a.
Arguments Fails {A}.
Arguments Escapes {A} e.

(** The builtins [int] and [float], and [travertino.colors.color], whose
    source is not part of this development.  [Fails] stands for
    [ValueError] or [TypeError] ([ValueError] for [color]). *)
Record builtins := {
  py_int : value → coerce Z;
  py_float : value → coerce pyfloat;
  color : value → coerce value
}.

(** ** Choices *)

Record Choices := {
  constants : list value;
  allow_string : bool;
  allow_integer : bool;
  allow_number : bool;
  allow_color : bool
}.

(** [set(constants)]: later copies of an equal constant are dropped. *)
Fixpoint set_of (cs : list value) : list value :=
  match cs with
  | [] => []
  | c :: cs' => c :: filter (fun d => py_eq d c = false) (set_of cs')
  end.

(** [Choices.__init__] (the deprecation warning for [default] and the
    rendering of the options as text are left out). *)
Definition Choices_init (consts : list value) (string integer number color : bool)
  : Choices :=
  {| constants := set_of consts; allow_string := string;
     allow_integer := integer; allow_number := number; allow_color := color |}.

(** [value.strip()]; only a string has the method. *)
Definition try_strip (v : value) : coerce value :=
  match v with
  | VStr s => Coerced (VStr (strip s))
  | _ => Fails
  end.

(** One [if flag: try: return f(value) except ...: pass] step. *)
Definition attempt (enabled : bool) (c : coerce value)
  (otherwise : outcome value) : outcome value :=
  if enabled then
    match c with
    | Coerced r => Ok r
    | Fails => otherwise
    | Escapes e => Err e
    end
  else otherwise.

Definition coerce_map {A B} (f : A → B) (c : coerce A) : coerce B :=
  match c with
  | Coerced a => Coerced (f a)
  | Fails => Fails
  | Escapes e => Escapes e
  end.

(** [Choices.validate].  The constants are compared in the order of the
    list (a Python set has no fixed order; its members are pairwise
    unequal, so the order does not matter there). *)
Definition Choices_validate (B : builtins) (ch : Choices) (v : value)
  : outcome value :=
  attempt (allow_string ch) (try_strip v)
  (attempt (allow_integer ch) (coerce_map VInt (py_int B v))
  (attempt (allow_number ch) (coerce_map VFloat (py_float B v))
  (attempt (allow_color ch) (color B v)
  (match find (py_eq v) (constants ch) with
   | Some const => Ok const
   | None => Err (ValueError (NotAValidValue v))
   end)))).

(** The order of the branches as the specification words it: the first
    enabled branch that succeeds gives the result, a branch that fails
    hands over to the next one, and the constants come last. *)
Inductive branch := BString | BInteger | BNumber | BColor.

Definition branch_enabled (ch : Choices) (b : branch) : bool :=
  match b with
  | BString => allow_string ch
  | BInteger => allow_integer ch
  | BNumber => allow_number ch
  | BColor => allow_color ch
  end.

(** What one branch does with a value: the string branch strips a
    string and fails on anything else; the integer branch gives the
    integer [int] gives, the number branch the float [float] gives and
    the colour branch what the colour parser gives, each failing where
    the builtin fails and letting any other exception through. *)
Definition branch_run (B : builtins) (b : branch) (v : value) : coerce value :=
  match b with
  | BString =>
      match v with
      | VStr s => Coerced (VStr (strip s))
      | _ => Fails
      end
  | BInteger =>
      match py_int B v with
      | Coerced z => Coerced (VInt z)
      | Fails => Fails
      | Escapes e => Escapes e
      end
  | BNumber =>
      match py_float B v with
      | Coerced f => Coerced (VFloat f)
      | Fails => Fails
      | Escapes e => Escapes e
      end
  | BColor => color B v
  end.

Fixpoint first_success (B : builtins) (ch : Choices) (bs : list branch)
  (v : value) : outcome value :=
  match bs with
  | [] =>
      match find (py_eq v) (constants ch) with
      | Some const => Ok const
      | None => Err (ValueError (NotAValidValue v))
      end
  | b :: bs' =>
      if branch_enabled ch b then
        match branch_run B b v with
        | Coerced r => Ok r
        | Fails => first_success B ch bs' v
        | Escapes e => Err e
        end
      else first_success B ch bs' v
  end.

Definition validate_in_order (B : builtins) (ch : Choices) (v : value)
  : outcome value :=
  first_success B ch [BString; BInteger; BNumber; BColor] v.

(** ** Style instances *)

(** A style object: its instance attributes (the stored values, under
    the key [_name] of their property) and the calls of [apply] made on
    it so far, oldest first.  [apply] is abstract in [BaseStyle]; what a
    subclass does in it is outside this development, so a call is
    recorded and has no other effect. *)
Record style := mk_style {
  attrs : gmap string value;
  applied : list (string * value)
}.

Definition empty_style : style := mk_style ∅ [].

(** Result of a method of a style object: normal return, an exception
    (with the object as it is when the exception leaves the method), or
    recursion through the properties that did not end within the fuel. *)
Inductive result (A : Type) :=
| Ret (s : style) (a : A)
| Raise (s : style) (e : exn)
| OutOfFuel.
Arguments Ret {A} s a.
Arguments Raise {A} s e.
Arguments OutOfFuel {A}.

Definition bind {A B} (r : result A) (k : style → A → result B) : result B :=
  match r with
  | Ret s a => k s a
  | Raise s e => Raise s e
  | OutOfFuel => OutOfFuel
  end.

(** [for x in xs: body(x)] *)
Fixpoint for_each {X} (xs : list X) (body : X → style → result unit)
  (s : style) : result unit :=
  match xs with
  | [] => Ret s tt
  | x :: xs' => bind (body x s) (fun s _ => for_each xs' body s)
  end.

(** [tuple(f(x) for x in xs)], as the list of its items *)
Fixpoint collect {X} (xs : list X) (f : style → X → result value) (s : style)
  : result (list value) :=
  match xs with
  | [] => Ret s []
  | x :: xs' =>
      bind (f s x) (fun s v =>
      bind (collect xs' f s) (fun s vs => Ret s (v :: vs)))
  end.

(** [any(f(x) for x in xs)] *)
Fixpoint any_of {X} (xs : list X) (f : style → X → result bool) (s : style)
  : result bool :=
  match xs with
  | [] => Ret s false
  | x :: xs' =>
      bind (f s x) (fun s b => if b then Ret s true else any_of xs' f s)
  end.

(** [f"_{name}"] *)
Definition storage_key (name : string) : string := String "_" name.

(** [getattr(obj, key, None)] on the stored values *)
Definition getattr_or_None (s : style) (key : string) : value :=
  default VNone (attrs s !! key).

Definition setattr (s : style) (key : string) (v : value) : style :=
  mk_style (<[key := v]> (attrs s)) (applied s).

Definition delattr (s : style) (key : string) : style :=
  mk_style (delete key (attrs s)) (applied s).

(** [obj.apply(name, value)] *)
Definition apply_hook (s : style) (name : string) (v : value) : style :=
  mk_style (attrs s) (applied s ++ [(name, v)]).

(** ** validated_property and list_property *)

(** [is_list] tells a [list_property] from a plain
    [validated_property]; [initial] is [VNone] when none was given. *)
Record validated_property := {
  vp_name : string;
  choices : Choices;
  initial : value;
  is_list : bool
}.

(** [validated_property.validate] *)
Definition scalar_validate (B : builtins) (p : validated_property) (v : value)
  : outcome value :=
  match Choices_validate B (choices p) v with
  | Ok r => Ok r
  | Err (ValueError _) => Err (ValueError (InvalidValue v (vp_name p)))
  | Err e => Err e
  end.

Fixpoint validate_items (B : builtins) (p : validated_property)
  (items : list value) : outcome (list value) :=
  match items with
  | [] => Ok []
  | item :: rest =>
      match Choices_validate B (choices p) item with
      | Ok r =>
          match validate_items B p rest with
          | Ok rs => Ok (r :: rs)
          | Err e => Err e
          end
      | Err (ValueError _) => Err (ValueError (InvalidItem item (vp_name p)))
      | Err e => Err e
      end
  end.

(** [list_property.validate]: a string is a one-item list; tuples and
    lists are sequences, an [ImmutableList] is not. *)
Definition list_validate (B : builtins) (p : validated_property) (v : value)
  : outcome value :=
  match
    match v with
    | VStr _ => Some [v]
    | VTuple items => Some items
    | VList items => Some items
    | _ => None
    end
  with
  | None => Err (TypeError (vp_name p))
  | Some [] => Err (ValueError (EmptyList (vp_name p)))
  | Some items =>
      match validate_items B p items with
      | Ok rs => Ok (VImm rs)
      | Err e => Err e
      end
  end.

Definition validate (B : builtins) (p : validated_property) (v : value)
  : outcome value :=
  if is_list p then list_validate B p v else scalar_validate B p v.

(** [validated_property.__init__] followed by [__set_name__]: an initial
    value other than [None] has to pass [validate]. *)
Definition declare (B : builtins) (name : string) (ch : Choices)
  (init : value) (list : bool) : outcome validated_property :=
  let blank := {| vp_name := name; choices := ch; initial := VNone;
                  is_list := list |} in
  match init with
  | VNone => Ok blank
  | _ =>
      match validate B blank init with
      | Ok r => Ok {| vp_name := name; choices := ch; initial := r;
                      is_list := list |}
      | Err (ValueError _) => Err (ValueError (InvalidInitial init))
      | Err e => Err e
      end
  end.

(** [value is self] *)
Definition is_descriptor (v : value) (name : string) : bool :=
  match v with
  | VProp n => String.eqb n name
  | _ => false
  end.

(** [validated_property.__get__] *)
Definition vp_get (p : validated_property) (s : style) : value :=
  match getattr_or_None s (storage_key (vp_name p)) with
  | VNone => initial p
  | stored => stored
  end.

(** [validated_property.__set__] *)
Definition vp_set (B : builtins) (p : validated_property) (s : style)
  (v : value) : result unit :=
  if is_descriptor v (vp_name p) then Ret s tt
  else
    match v with
    | VNone => Raise s (ValueError (NoneNotAllowed (vp_name p)))
    | _ =>
        match validate B p v with
        | Err e => Raise s e
        | Ok value =>
            if py_ne value (getattr_or_None s (storage_key (vp_name p)))
            then Ret (apply_hook (setattr s (storage_key (vp_name p)) value)
                                 (vp_name p) value) tt
            else Ret s tt
        end
    end.

(** [validated_property.__delete__] *)
Definition vp_delete (p : validated_property) (s : style) : result unit :=
  match attrs s !! storage_key (vp_name p) with
  | None => Ret s tt
  | Some _ =>
      Ret (apply_hook (delattr s (storage_key (vp_name p)))
                      (vp_name p) (initial p)) tt
  end.

(** [validated_property.is_set_on] *)
Definition vp_is_set_on (p : validated_property) (s : style) : bool :=
  match attrs s !! storage_key (vp_name p) with
  | Some _ => true
  | None => false
  end.

(** ** directional_property *)

Record directional_property := {
  dp_name : string;
  name_format : string
}.

(** Modelled from the spec: the constants [TOP], [RIGHT], [BOTTOM] and
    [LEFT] of [travertino.constants], which the specification gives as
    the words substituted into the template. *)
Definition TOP : string := "top".
Definition RIGHT : string := "right".
Definition BOTTOM : string := "bottom".
Definition LEFT : string := "left".

Definition DIRECTIONS : list string := [TOP; RIGHT; BOTTOM; LEFT].

Definition ASSIGNMENT_SCHEMES (n : nat) : option (list nat) :=
  match n with
  | 1 => Some [0; 0; 0; 0]
  | 2 => Some [0; 1; 0; 1]
  | 3 => Some [0; 1; 2; 1]
  | 4 => Some [0; 1; 2; 3]
  | _ => None
  end.

(** [directional_property.format] *)
Definition format (d : directional_property) (direction : string) : string :=
  str_format (name_format d) (String "_" direction).

(** The tuple a value is written as: [value] itself if it is a tuple,
    [(value,)] otherwise. *)
Definition as_tuple (v : value) : list value :=
  match v with
  | VTuple items => items
  | _ => [v]
  end.

(** [value[index]] on a tuple (the index is always in range here). *)
Definition item (items : list value) (index : nat) : value :=
  default VNone (items !! index).

(** [directional_property.__get__]; [getitem] is [obj[...]]. *)
Definition dp_get (getitem : style → string → result value)
  (d : directional_property) (s : style) : result value :=
  bind (collect (map (format d) DIRECTIONS) getitem s)
       (fun s items => Ret s (VTuple items)).

(** The body of the loop in [directional_property.__set__]:
    [obj[self.format(direction)] = value[index]]; [setitem] is
    [obj[...] = ...]. *)
Definition assign (setitem : style → string → value → result unit)
  (d : directional_property) (items : list value)
  : string * nat → style → result unit :=
  fun '(direction, index) s =>
    setitem s (format d direction) (item items index).

(** [directional_property.__set__] *)
Definition dp_set (setitem : style → string → value → result unit)
  (d : directional_property) (s : style) (v : value) : result unit :=
  if is_descriptor v (dp_name d) then Ret s tt
  else
    let items := as_tuple v in
    match ASSIGNMENT_SCHEMES (length items) with
    | Some order => for_each (zip DIRECTIONS order) (assign setitem d items) s
    | None => Raise s (ValueError (InvalidShorthand (dp_name d)))
    end.

(** [directional_property.__delete__]; [delitem] is [del obj[...]]. *)
Definition dp_delete (delitem : style → string → result unit)
  (d : directional_property) (s : style) : result unit :=
  for_each DIRECTIONS (fun direction s => delitem s (format d direction)) s.

(** ** BaseStyle *)

Inductive descriptor :=
| Validated (p : validated_property)
| Directional (d : directional_property).

Definition descriptor_name (x : descriptor) : string :=
  match x with
  | Validated p => vp_name p
  | Directional d => dp_name d
  end.

(** A style class: the descriptors in its namespace.  The two name sets
    are what [__set_name__] builds; they are kept as lists, in the order
    of declaration where the code iterates over them. *)
Definition class := list descriptor.

Definition _PROPERTIES (c : class) : list string :=
  omap (fun x => match x with
                 | Validated p => Some (vp_name p)
                 | Directional _ => None
                 end) c.

Definition _ALL_PROPERTIES (c : class) : list string := map descriptor_name c.

(** The class attribute [name], when it is one of the descriptors. *)
Definition class_attr (c : class) (name : string) : option descriptor :=
  find (fun x => String.eqb (descriptor_name x) name) c.

(** The names of a class are distinct (it has one namespace) and, being
    identifiers, contain no hyphen. *)
Definition class_ok (c : class) : bool :=
  bool_decide (NoDup (_ALL_PROPERTIES c))
  && forallb hyphen_free (_ALL_PROPERTIES c).

(** [BaseStyle.__getitem__] *)
Fixpoint getitem (fuel : nat) (c : class) (s : style) (name : string)
  : result value :=
  match fuel with
  | O => OutOfFuel
  | S fuel' =>
      let name := replace_hyphens name in
      if bool_decide (name ∈ _ALL_PROPERTIES c) then
        match class_attr c name with
        | Some (Validated p) => Ret s (vp_get p s)
        | Some (Directional d) => dp_get (getitem fuel' c) d s
        | None => Raise s (AttributeError name)
        end
      else Raise s (KeyError name)
  end.

(** [BaseStyle.__setitem__] *)
Fixpoint setitem (fuel : nat) (B : builtins) (c : class) (s : style)
  (name : string) (v : value) : result unit :=
  match fuel with
  | O => OutOfFuel
  | S fuel' =>
      let name := replace_hyphens name in
      if bool_decide (name ∈ _ALL_PROPERTIES c) then
        match class_attr c name with
        | Some (Validated p) => vp_set B p s v
        | Some (Directional d) => dp_set (setitem fuel' B c) d s v
        | None => Raise s (AttributeError name)
        end
      else Raise s (KeyError name)
  end.

(** [BaseStyle.__delitem__] *)
Fixpoint delitem (fuel : nat) (c : class) (s : style) (name : string)
  : result unit :=
  match fuel with
  | O => OutOfFuel
  | S fuel' =>
      let name := replace_hyphens name in
      if bool_decide (name ∈ _ALL_PROPERTIES c) then
        match class_attr c name with
        | Some (Validated p) => vp_delete p s
        | Some (Directional d) => dp_delete (delitem fuel' c) d s
        | None => Raise s (AttributeError name)
        end
      else Raise s (KeyError name)
  end.

(** [hasattr(obj, name)], for the declared properties and the stored
    values (other attributes of a style object are not modelled).
    [hasattr] turns an [AttributeError] into [False] and lets any other
    exception through. *)
Definition hasattr (fuel : nat) (c : class) (s : style) (name : string)
  : result bool :=
  match class_attr c name with
  | Some (Validated _) => Ret s true
  | Some (Directional d) =>
      match dp_get (getitem fuel c) d s with
      | Ret s _ => Ret s true
      | Raise s (AttributeError _) => Ret s false
      | Raise s e => Raise s e
      | OutOfFuel => OutOfFuel
      end
  | None => Ret s (bool_decide (is_Some (attrs s !! name)))
  end.

(** [directional_property.is_set_on] *)
Definition dp_is_set_on (fuel : nat) (c : class) (d : directional_property)
  (s : style) : result bool :=
  any_of DIRECTIONS (fun s direction => hasattr fuel c s (format d direction)) s.

(** [BaseStyle.__contains__] *)
Definition contains (fuel : nat) (c : class) (s : style) (name : string)
  : result bool :=
  if bool_decide (name ∈ _ALL_PROPERTIES c) then
    match class_attr c name with
    | Some (Validated p) => Ret s (vp_is_set_on p s)
    | Some (Directional d) => dp_is_set_on fuel c d s
    | None => Raise s (AttributeError name)
    end
  else Ret s false.

(** [BaseStyle.reapply] *)
Definition reapply (fuel : nat) (c : class) (s : style) : result unit :=
  for_each (_PROPERTIES c)
           (fun name s =>
              bind (getitem fuel c s name) (fun s v =>
              Ret (apply_hook s name v) tt))
           s.

(** [BaseStyle.update], the keyword arguments in the order given *)
Definition update (fuel : nat) (B : builtins) (c : class) (s : style)
  (styles : list (string * value)) : result unit :=
  for_each styles
           (fun '(name, v) s =>
              let name := replace_hyphens name in
              if bool_decide (name ∈ _ALL_PROPERTIES c) then
                setitem fuel B c s name v
              else Raise s (NameError name))
           s.

(** ** Notions used in the statements *)

(** [r] is [x], or a value equal to [x] that was stored before. *)
Definition same_value (r x : value) : Prop := r = x ∨ py_eq x r = true.

(** Reading the directional property [d] gives the four values, in the
    order top, right, bottom, left. *)
Definition reads_as (fuel : nat) (c : class) (d : directional_property)
  (s : style) (xt xr xb xl : value) : Prop :=
  ∃ rt rr rb rl,
    dp_get (getitem fuel c) d s = Ret s (VTuple [rt; rr; rb; rl])
    ∧ same_value rt xt ∧ same_value rr xr
    ∧ same_value rb xb ∧ same_value rl xl.

(** A value [strip] would not change: any string without white space
    at its ends, and any value that is not a string. *)
Definition stripped (v : value) : Prop :=
  match v with VStr s => strip s = s | _ => True end.

(** A value a property takes, and what it is stored as. *)
Definition normalises (B : builtins) (p : validated_property) (x n : value)
  : Prop :=
  x ≠ VNone ∧ n ≠ VNone
  ∧ is_descriptor x (vp_name p) = false ∧ validate B p x = Ok n.

(** A value a property takes as it is. *)
Definition accepts (B : builtins) (p : validated_property) (x : value) : Prop :=
  normalises B p x x.

(** The four assignments [top = xt; right = xr; bottom = xb; left = xl]
    to the sub-properties of [d], in this order. *)
Definition write_sides (setitem : style → string → value → result unit)
  (d : directional_property) (s : style) (xt xr xb xl : value) : result unit :=
  bind (setitem s (format d TOP) xt) (fun s _ =>
  bind (setitem s (format d RIGHT) xr) (fun s _ =>
  bind (setitem s (format d BOTTOM) xb) (fun s _ =>
  bind (setitem s (format d LEFT) xl) (fun s _ => Ret s tt)))).

(** The validated properties of a class, in the order of [_PROPERTIES]. *)
Definition primaries (c : class) : list validated_property :=
  omap (fun x => match x with
                 | Validated p => Some p
                 | Directional _ => None
                 end) c.

(** ** Sample data *)

(** A concrete choice of builtins for sample runs: numbers are coerced,
    strings are not parsed, nothing is a colour. *)
Definition plain_builtins : builtins :=
  {| py_int := fun v =>
       match v with
       | VInt z => Coerced z
       | VFloat (FFin m e) =>
           Coerced (if (0 <=? e)%Z then m * 2 ^ e else Z.quot m (2 ^ (- e)))%Z
       | VFloat (FInf _) => Escapes (OtherError "OverflowError")
       | _ => Fails
       end;
     py_float := fun v =>
       match v with
       | VInt z => Coerced (FFin z 0)
       | VFloat f => Coerced f
       | _ => Fails
       end;
     color := fun _ => Fails |}.

Definition text_prop (name : string) (init : value) : validated_property :=
  {| vp_name := name; choices := Choices_init [] true false false false;
     initial := init; is_list := false |}.

Definition int_prop (name : string) : validated_property :=
  {| vp_name := name; choices := Choices_init [] false true false false;
     initial := VInt 0; is_list := false |}.

Definition number_prop (name : string) : validated_property :=
  {| vp_name := name; choices := Choices_init [] false false true false;
     initial := VNone; is_list := false |}.

Definition text_list_prop (name : string) : validated_property :=
  {| vp_name := name; choices := Choices_init [] true false false false;
     initial := VNone; is_list := true |}.

Definition margin : directional_property :=
  {| dp_name := "margin"; name_format := "margin{}" |}.

(** A class with one text property, the four integer margins and their
    shorthand. *)
Definition Box : class :=
  [Validated (text_prop "font_family" (VStr "system"));
   Validated (int_prop "margin_top"); Validated (int_prop "margin_right");
   Validated (int_prop "margin_bottom"); Validated (int_prop "margin_left");
   Directional margin].

End Declaration.

(* ===================================================================== *)
(** * declaration.py: the mapping interface of [BaseStyle] *)
(* ===================================================================== *)

Module Mapping.
Import Declaration.

(** [[f(x) for x in xs if test(x)]]: for each [x] in turn, the test and
    then, if it holds, the item. *)
Fixpoint comprehension {X Y} (xs : list X) (test : style → X → result bool)
  (f : style → X → result Y) (s : style) : result (list Y) :=
  match xs with
  | [] => Ret s []
  | x :: xs' =>
      bind (test s x) (fun s b =>
      if b then
        bind (f s x) (fun s y =>
        bind (comprehension xs' test f s) (fun s ys => Ret s (y :: ys)))
      else comprehension xs' test f s)
  end.

(** [BaseStyle.keys]: [{name for name in self._PROPERTIES if name in
    self}].  The set is given as the list of its members in the order
    of [_PROPERTIES], which holds no name twice. *)
Definition keys (fuel : nat) (c : class) (s : style) : result (list string) :=
  comprehension (_PROPERTIES c)
                (fun s name => contains fuel c s name)
                (fun s name => Ret s name) s.

(** [BaseStyle.items] *)
Definition items (fuel : nat) (c : class) (s : style)
  : result (list (string * value)) :=
  comprehension (_PROPERTIES c)
                (fun s name => contains fuel c s name)
                (fun s name =>
                   bind (getitem fuel c s name) (fun s v => Ret s (name, v)))
                s.

(** [BaseStyle.__len__]: [sum(1 for name in self._PROPERTIES if name in
    self)] *)
Definition len (fuel : nat) (c : class) (s : style) : result nat :=
  bind (comprehension (_PROPERTIES c)
                      (fun s name => contains fuel c s name)
                      (fun s name => Ret s 1) s)
       (fun s ones => Ret s (foldr Nat.add 0 ones)).

(** [BaseStyle.__iter__], as the list of the names it yields *)
Definition iter (fuel : nat) (c : class) (s : style) : result (list string) :=
  comprehension (_PROPERTIES c)
                (fun s name => contains fuel c s name)
                (fun s name => Ret s name) s.

(** [**obj] for a style object: its [keys()], then [obj[key]] for each
    key. *)
Definition unpack (fuel : nat) (c : class) (s : style)
  : result (list (string * value)) :=
  bind (keys fuel c s) (fun s ks =>
  bind (collect ks (fun s name => getitem fuel c s name) s) (fun s vs =>
  Ret s (zip ks vs))).

(** [BaseStyle.__init__] with keyword arguments, on a new object *)
Definition BaseStyle_init (fuel : nat) (B : builtins) (c : class)
  (styles : list (string * value)) : result unit :=
  update fuel B c empty_style styles.

(** [BaseStyle.copy()] (the deprecated [applicator] argument is left
    out).  The style in the result is the duplicate; [self] is only
    read.  [self.__class__()] gives an object without stored values:
    the generated [__init__] of a dataclass assigns each descriptor to
    its own attribute, which [__set__] ignores, and
    [BaseStyle.__init__] without arguments updates nothing. *)
Definition copy (fuel : nat) (B : builtins) (c : class) (s : style)
  : result unit :=
  let dup := empty_style in
  match unpack fuel c s with
  | Ret _ styles => update fuel B c dup styles
  | Raise _ e => Raise dup e
  | OutOfFuel => OutOfFuel
  end.

(** The right operand of [|] and [|=]. *)
Inductive operand :=
| SameClass (other : style)                  (* a style of the same class *)
| OtherClass                                 (* a style of another class *)
| Dict (styles : list (string * value))      (* any other [Mapping] *)
| NotAMapping.

(** What a binary operator method gives: a result, or [NotImplemented]. *)
Inductive operation :=
| Computed (r : result unit)
| NotImplemented.

(** [**other] *)
Definition unpack_operand (fuel : nat) (c : class) (other : operand)
  (s : style) : result (list (string * value)) :=
  match other with
  | SameClass o =>
      match unpack fuel c o with
      | Ret _ styles => Ret s styles
      | Raise _ e => Raise s e
      | OutOfFuel => OutOfFuel
      end
  | Dict styles => Ret s styles
  | OtherClass => Ret s []
  | NotAMapping => Ret s []
  end.

Definition is_operand (other : operand) : bool :=
  match other with
  | SameClass _ => true
  | Dict _ => true
  | OtherClass => false
  | NotAMapping => false
  end.

(** [BaseStyle.__or__]; the style in the result is the new object. *)
Definition or_ (fuel : nat) (B : builtins) (c : class) (s : style)
  (other : operand) : operation :=
  if is_operand other then
    Computed (bind (copy fuel B c s) (fun dup _ =>
              bind (unpack_operand fuel c other dup) (fun dup styles =>
              update fuel B c dup styles)))
  else NotImplemented.

(** [BaseStyle.__ior__]; the style in the result is [self]. *)
Definition ior (fuel : nat) (B : builtins) (c : class) (s : style)
  (other : operand) : operation :=
  if is_operand other then
    Computed (bind (unpack_operand fuel c other s) (fun s styles =>
              update fuel B c s styles))
  else NotImplemented.

(** The storage keys of the validated properties of a class. *)
Definition storage_keys (c : class) : list string :=
  map (fun p => storage_key (vp_name p)) (primaries c).

(** Every stored value of a validated property is one the property
    takes as it is. *)
Definition stored_accepted (B : builtins) (c : class) (s : style) : Prop :=
  ∀ p v, p ∈ primaries c → attrs s !! storage_key (vp_name p) = Some v →
         accepts B p v.

(** Every stored value of a validated property is a value that
    [validate] of the property has returned. *)
Definition stored_validated (B : builtins) (c : class) (s : style) : Prop :=
  ∀ p v, p ∈ primaries c → attrs s !! storage_key (vp_name p) = Some v →
         ∃ x, validate B p x = Ok v.

(** [Inv] holds of the style a result leaves behind. *)
Definition leaves {A} (Inv : style → Prop) (r : result A) : Prop :=
  match r with
  | Ret s _ => Inv s
  | Raise s _ => Inv s
  | OutOfFuel => True
  end.

(** The validated properties that are set on a style, in the order of
    [_PROPERTIES]. *)
Definition set_primaries (c : class) (s : style) : list validated_property :=
  filter (fun p => vp_is_set_on p s = true) (primaries c).

(** ** Sample data *)

Definition serif_style : style :=
  mk_style {[ "_font_family" := VStr "serif"; "_margin_top" := VInt 3 ]} [].

Definition mono_style : style :=
  mk_style {[ "_font_family" := VStr "mono" ]} [].

(** A class with a list property. *)
Definition Fonts : class := [Validated (text_list_prop "font_family")].

End Mapping.

(* ===================================================================== *)
(** * node.py: style, applicator and refresh *)
(* ===================================================================== *)

Module Binding.
Import Declaration Mapping.

(** The style and the applicator of a [Node].  An applicator is [None]
    or an object, given by its identity; such an object is truthy.
    [style_applicator] is the [_applicator] of the node's style object,
    and [warnings] counts the [DeprecationWarning]s issued.  The
    [intrinsic] and [layout] objects a style class builds for the node
    are not part of this development. *)
Record slots := mk_slots {
  _style : option style;
  style_applicator : option nat;
  _applicator : option nat;
  warnings : nat
}.

(** A [Node] before [__init__] has assigned anything: [getattr(self,
    "_style", None)] and [getattr(self, "_applicator", None)] give
    [None]. *)
Definition blank : slots := mk_slots None None None 0.

Inductive result :=
| Done (n : slots)
| Failed (n : slots) (e : exn)
| NoFuel.

Definition and_then (r : result) (k : slots → result) : result :=
  match r with
  | Done n => k n
  | other => other
  end.

(** [try: self.style.reapply() except AttributeError: warn(...)] *)
Definition try_reapply (fuel : nat) (c : class) (n : slots) (s : style)
  : result :=
  match reapply fuel c s with
  | Ret s' _ =>
      Done (mk_slots (Some s') (style_applicator n) (_applicator n) (warnings n))
  | Raise s' (AttributeError _) =>
      Done (mk_slots (Some s') (style_applicator n) (_applicator n)
                     (S (warnings n)))
  | Raise s' e =>
      Failed (mk_slots (Some s') (style_applicator n) (_applicator n)
                       (warnings n)) e
  | OutOfFuel => NoFuel
  end.

(** The setter of [Node.style] *)
Definition set_style (fuel : nat) (B : builtins) (c : class) (n : slots)
  (style : option style) : result :=
  match style with
  | None => Done (mk_slots None None (_applicator n) (warnings n))
  | Some s =>
      match copy fuel B c s with
      | Ret dup _ =>
          match _applicator n with
          | Some a =>
              try_reapply fuel c
                (mk_slots (Some dup) (Some a) (_applicator n) (warnings n)) dup
          | None => Done (mk_slots (Some dup) None (_applicator n) (warnings n))
          end
      | Raise _ e => Failed n e
      | OutOfFuel => NoFuel
      end
  end.

(** The setter of [Node.applicator] *)
Definition set_applicator (fuel : nat) (c : class) (n : slots)
  (applicator : option nat) : result :=
  match _style n with
  | None => Done (mk_slots None (style_applicator n) applicator (warnings n))
  | Some s =>
      match applicator with
      | Some a =>
          try_reapply fuel c (mk_slots (Some s) (Some a) (Some a) (warnings n)) s
      | None => Done (mk_slots (Some s) None None (warnings n))
      end
  end.

(** [Node.__init__], the part before the tree fields:
    [self.applicator = applicator; self.style = style]. *)
Definition Node_init (fuel : nat) (B : builtins) (c : class)
  (style : option style) (applicator : option nat) : result :=
  and_then (set_applicator fuel c blank applicator) (fun n =>
  set_style fuel B c n style).

(** What [refresh] calls: [style.layout(node, viewport)] of the style
    class and [set_bounds()] of the applicator, both outside this
    development. *)
Inductive call (V : Type) :=
| Layout (node : nat) (viewport : V)
| SetBounds (node : nat).
Arguments Layout {V} node viewport.
Arguments SetBounds {V} node.

(** [Node.refresh]; [has_applicator] tells the nodes whose applicator
    is an object.  [None] stands for a walk along [_root] that did not
    end within the fuel, or that left the heap. *)
Fixpoint refresh {V} (fuel : nat) (has_applicator : nat → bool)
  (h : Node.heap) (self : nat) (viewport : V) : option (list (call V)) :=
  match fuel with
  | O => None
  | S fuel' =>
      match h !! self with
      | None => None
      | Some nd =>
          match Node._root nd with
          | Some r => refresh fuel' has_applicator h r viewport
          | None =>
              Some (Layout self viewport
                    :: if has_applicator self then [SetBounds self] else [])
          end
      end
  end.

End Binding.

Module NodeFacts.
Import Node.

(** ** The children relation depends on the [_children] fields only *)

Lemma same_kids_refl h : same_kids h h.
Proof. intros n. reflexivity. Qed.

Lemma same_kids_sym h g : same_kids h g → same_kids g h.
Proof. intros H n. symmetry. apply H. Qed.

Lemma same_kids_trans h g k : same_kids h g → same_kids g k → same_kids h k.
Proof. intros H1 H2 n. rewrite H1. apply H2. Qed.

Lemma same_kids_lookup h g n nd :
  same_kids h g → h !! n = Some nd →
  ∃ nd', g !! n = Some nd' ∧ _children nd' = _children nd.
Proof.
  intros H Hn. specialize (H n). rewrite Hn in H. simpl in H.
  destruct (g !! n) as [nd'|]; simpl in H; [|discriminate].
  exists nd'. split; [reflexivity|congruence].
Qed.

Lemma child_of_kids h g p c : same_kids h g → child_of h p c → child_of g p c.
Proof.
  intros H (nd & Hp & Hc).
  destruct (same_kids_lookup _ _ _ _ H Hp) as (nd' & Hp' & Hk).
  exists nd'. split; [assumption|]. unfold children in *. rewrite Hk. exact Hc.
Qed.

Lemma reaches_kids h g n m : same_kids h g → reaches h n m → reaches g n m.
Proof.
  intros H. induction 1 as [|x y z Hxy _ IH]; [apply rtc_refl|].
  eapply rtc_l; [eapply child_of_kids; eassumption|exact IH].
Qed.

Lemma height_le_kids h g n k : same_kids h g → height_le h n k → height_le g n k.
Proof.
  intros H. induction 1 as [n k _ IH]. constructor. intros c Hc.
  apply IH. eapply child_of_kids; [apply same_kids_sym|]; eassumption.
Qed.

Lemma closed_kids h g : same_kids h g → closed h → closed g.
Proof.
  intros H Hcl p c Hc.
  destruct (Hcl p c (child_of_kids _ _ _ _ (same_kids_sym _ _ H) Hc)) as [cd Hcd].
  destruct (same_kids_lookup _ _ _ _ H Hcd) as (cd' & -> & _). eauto.
Qed.

Lemma height_le_mono h n k k' : height_le h n k → k ≤ k' → height_le h n k'.
Proof.
  intros H. revert k'. induction H as [n k _ IH]. intros k' Hk.
  destruct k' as [|k']; [lia|]. constructor. intros c Hc. apply IH; [exact Hc|lia].
Qed.

Lemma height_le_irrefl h n k : height_le h n k → ¬ child_of h n n.
Proof.
  revert n. induction k as [|k IH]; intros n H Hc; inversion H; subst.
  eapply IH; eauto.
Qed.

Lemma reaches_unfold h n m :
  reaches h n m ↔ n = m ∨ ∃ c, child_of h n c ∧ reaches h c m.
Proof.
  split.
  - intros H. destruct H as [|x y z Hxy Hyz]; [left; reflexivity|right; eauto].
  - intros [->|(c & Hc & Hr)]; [apply rtc_refl|eapply rtc_l; eassumption].
Qed.

(** ** [_set_root] *)

Lemma root_set_idem rt (o : option node) :
  root_set rt <$> (root_set rt <$> o) = root_set rt <$> o.
Proof. destruct o; reflexivity. Qed.

Lemma written_kids P rt g g' : written P rt g g' → same_kids g g'.
Proof.
  intros H n. destruct (H n) as [[_ ->]|[_ ->]]; [|reflexivity].
  destruct (g !! n); reflexivity.
Qed.

Lemma written_iff (P Q : nat → Prop) rt g g' :
  (∀ m, P m ↔ Q m) → written P rt g g' → written Q rt g g'.
Proof.
  intros HPQ H m. destruct (H m) as [[HP E]|[HP E]]; [left|right];
    (split; [|exact E]); [apply HPQ, HP|].
  intros HQ. apply HP, HPQ, HQ.
Qed.

Lemma written_compose (P Q : nat → Prop) rt g1 g2 g3 :
  written P rt g1 g2 → written Q rt g2 g3 →
  written (fun m => P m ∨ Q m) rt g1 g3.
Proof.
  intros H12 H23 m.
  destruct (H12 m) as [[HP E1]|[HP E1]], (H23 m) as [[HQ E2]|[HQ E2]];
    rewrite E2, E1; auto using root_set_idem.
  right. split; [tauto|reflexivity].
Qed.

Lemma written_nothing rt g : written (fun _ => False) rt g g.
Proof. intros m. right. auto. Qed.

Lemma written_one n nd rt g :
  g !! n = Some nd → written (eq n) rt g (<[n := set_root nd rt]> g).
Proof.
  intros Hn m. destruct (decide (n = m)) as [<-|Hne].
  - left. rewrite lookup_insert_eq, Hn. auto.
  - right. rewrite lookup_insert_ne by assumption. auto.
Qed.

Lemma written_in P rt g g' m :
  written P rt g g' → P m → g' !! m = root_set rt <$> g !! m.
Proof. intros H HP. destruct (H m) as [[_ E]|[HN _]]; [exact E|contradiction]. Qed.

Lemma written_out P rt g g' m :
  written P rt g g' → ¬ P m → g' !! m = g !! m.
Proof. intros H HP. destruct (H m) as [[? _]|[_ E]]; [contradiction|exact E]. Qed.

Lemma written_dec P rt g g' m : written P rt g g' → P m ∨ ¬ P m.
Proof. intros H. destruct (H m) as [[? _]|[? _]]; auto. Qed.

Lemma _set_root_ok k : ∀ h n,
  closed h → height_le h n k → is_Some (h !! n) →
  ∀ fuel rt g, k ≤ fuel → same_kids h g →
  ∃ g', _set_root fuel n rt g = Ret g' ∧ written (reaches h n) rt g g'.
Proof.
  induction k as [|k IH]; intros h n Hcl Hh [nd Hnd] fuel rt g Hf Hk;
    inversion Hh as [n' k' Hch]; subst.
  destruct fuel as [|fuel]; [lia|]. simpl.
  destruct (same_kids_lookup _ _ _ _ Hk Hnd) as (ndg & Hg & Hkids).
  rewrite Hg.
  assert (Hcs : children ndg = children nd) by (unfold children; congruence).
  rewrite Hcs.
  assert (Hloop : ∀ cs g1,
    (∀ c, c ∈ cs → child_of h n c) → same_kids h g1 →
    ∃ g', for_each cs (fun child => _set_root fuel child rt) g1 = Ret g'
          ∧ written (fun m => ∃ c, c ∈ cs ∧ reaches h c m) rt g1 g').
  { induction cs as [|c cs IHcs]; intros g1 Hin Hk1.
    - exists g1. split; [reflexivity|].
      eapply written_iff; [|apply written_nothing].
      intros m. split; [intros []|]. intros (c & Hc & _).
      apply elem_of_nil in Hc. exact Hc.
    - simpl.
      assert (Hc : child_of h n c) by (apply Hin; left).
      destruct (IH h c Hcl (Hch c Hc) (Hcl n c Hc) fuel rt g1 ltac:(lia) Hk1)
        as (g2 & -> & Hw2). simpl.
      destruct (IHcs g2) as (g3 & -> & Hw3).
      { intros c' Hc'. apply Hin. right. exact Hc'. }
      { eapply same_kids_trans; [exact Hk1|eapply written_kids; exact Hw2]. }
      exists g3. split; [reflexivity|].
      eapply written_iff; [|eapply written_compose; eassumption].
      intros m. simpl. split.
      + intros [Hr|(c' & Hc' & Hr)]; [exists c; split; [left|exact Hr]|].
        exists c'. split; [right; exact Hc'|exact Hr].
      + intros (c' & Hc' & Hr). apply elem_of_cons in Hc' as [->|Hc'];
          [left; exact Hr|right; eauto]. }
  destruct (Hloop (children nd) (<[n := set_root ndg rt]> g))
    as (g' & -> & Hw).
  { intros c Hc. exists nd. split; assumption. }
  { eapply same_kids_trans; [exact Hk|].
    eapply written_kids. apply written_one. exact Hg. }
  exists g'. split; [reflexivity|].
  eapply written_iff; [|eapply written_compose; [apply written_one; exact Hg|exact Hw]].
  intros m. simpl. rewrite reaches_unfold. split.
  - intros [->|(c & Hc & Hr)]; [left; reflexivity|right].
    exists c. split; [|exact Hr]. exists nd. split; assumption.
  - intros [->|(c & (nd' & Hnd' & Hc) & Hr)]; [left; reflexivity|right].
    exists c. split; [|exact Hr]. congruence.
Qed.


(** ** More fuel does not change a result *)

Lemma for_each_mono (f f' : nat → heap → result) :
  (∀ x g, finished (f x g) → f' x g = f x g) →
  ∀ xs g, finished (for_each xs f g) → for_each xs f' g = for_each xs f g.
Proof.
  intros Hf. induction xs as [|x xs IH]; intros g Hfin; [reflexivity|].
  simpl in *. destruct (f x g) as [g1| | |] eqn:E;
    try (rewrite Hf by (rewrite E; exact I); rewrite E; reflexivity).
  - rewrite Hf by (rewrite E; exact I). rewrite E. simpl. apply IH, Hfin.
  - destruct Hfin.
Qed.

Lemma _set_root_mono fuel : ∀ fuel' n rt g,
  finished (_set_root fuel n rt g) → fuel ≤ fuel' →
  _set_root fuel' n rt g = _set_root fuel n rt g.
Proof.
  induction fuel as [|fuel IH]; intros fuel' n rt g Hfin Hle; [destruct Hfin|].
  destruct fuel' as [|fuel']; [lia|]. simpl in *.
  destruct (g !! n) as [nd|]; [|reflexivity].
  apply for_each_mono; [|exact Hfin].
  intros x g1 Hx. apply IH; [exact Hx|lia].
Qed.

Lemma bind_mono r r' k k' :
  r' = r → (∀ g, finished (k g) → k' g = k g) →
  finished (bind r k) → bind r' k' = bind r k.
Proof. intros -> Hk. destruct r; simpl; auto. Qed.

Lemma attach_mono fuel fuel' self child g :
  finished (attach fuel self child g) → fuel ≤ fuel' →
  attach fuel' self child g = attach fuel self child g.
Proof.
  intros Hfin Hle. unfold attach in *. apply bind_mono; [reflexivity| |exact Hfin].
  intros g1 H1. destruct (root g1 self); [|reflexivity].
  apply _set_root_mono; assumption.
Qed.

Lemma detach_mono fuel fuel' child g :
  finished (detach fuel child g) → fuel ≤ fuel' →
  detach fuel' child g = detach fuel child g.
Proof.
  intros Hfin Hle. unfold detach in *. apply bind_mono; [reflexivity| |exact Hfin].
  intros g1 H1. apply _set_root_mono; assumption.
Qed.

Lemma add_mono fuel fuel' h self child :
  finished (add fuel h self child) → fuel ≤ fuel' →
  add fuel' h self child = add fuel h self child.
Proof.
  intros Hfin Hle. unfold add in *. destruct (h !! self) as [nd|]; [|reflexivity].
  destruct (_children nd); [|reflexivity]. apply attach_mono; assumption.
Qed.

Lemma exec_mono fuel fuel' h o :
  finished (exec fuel h o) → fuel ≤ fuel' → exec fuel' h o = exec fuel h o.
Proof.
  intros Hfin Hle. destruct o as [kids|self child|self index child|self child|self];
    simpl in *.
  - destruct kids as [cs|]; [|reflexivity].
    apply for_each_mono; [|exact Hfin].
    intros x g Hx. apply add_mono; assumption.
  - apply add_mono; assumption.
  - unfold insert in *. destruct (h !! self) as [nd|]; [|reflexivity].
    destruct (_children nd) as [cs|]; [|reflexivity].
    destruct (list_insert_at index child cs); [|reflexivity].
    apply attach_mono; assumption.
  - unfold remove in *. destruct (h !! self) as [nd|]; [|reflexivity].
    destruct (_children nd) as [cs|]; [|reflexivity].
    destruct (list_remove child cs); [|reflexivity].
    apply detach_mono; assumption.
  - unfold clear in *. destruct (h !! self) as [nd|]; [|reflexivity].
    destruct (_children nd) as [cs|]; [|reflexivity].
    apply bind_mono; [|auto|exact Hfin].
    apply for_each_mono.
    + intros x g Hx. apply detach_mono; assumption.
    + destruct (for_each cs (detach fuel) h); simpl in *; auto.
Qed.

(** ** Python list operations *)

Example insert_in_the_middle :
  list_insert_at 2 9 [1; 2; 3] = Some [1; 2; 9; 3].
Proof. reflexivity. Qed.

Example insert_from_the_end :
  list_insert_at (-1) 9 [1; 2; 3] = Some [1; 2; 9; 3].
Proof. reflexivity. Qed.

Example insert_out_of_range :
  list_insert_at 10 9 [1; 2; 3] = Some [1; 2; 3; 9]
  ∧ list_insert_at (-10) 9 [1; 2; 3] = Some [9; 1; 2; 3].
Proof. split; reflexivity. Qed.

Example insert_beyond_ssize_t :
  list_insert_at (2 ^ 63 - 1) 9 [1; 2; 3] = Some [1; 2; 3; 9]
  ∧ list_insert_at (2 ^ 63) 9 [1; 2; 3] = None
  ∧ list_insert_at (- 2 ^ 63) 9 [1; 2; 3] = Some [9; 1; 2; 3]
  ∧ list_insert_at (- 2 ^ 63 - 1) 9 [1; 2; 3] = None.
Proof. repeat split; reflexivity. Qed.

Example remove_first_occurrence :
  list_remove 2 [1; 2; 3; 2] = Some [1; 3; 2] ∧ list_remove 7 [1; 2] = None.
Proof. split; reflexivity. Qed.

Lemma list_insert_at_elem {A} (index : Z) (x : A) l l' y :
  list_insert_at index x l = Some l' → y ∈ l' ↔ y = x ∨ y ∈ l.
Proof.
  unfold list_insert_at. destruct (fits_ssize_t index); [|discriminate].
  intros [= <-]. set (i := insert_position _ _).
  rewrite elem_of_app, elem_of_cons.
  rewrite <- (take_drop i l) at 3. rewrite elem_of_app. tauto.
Qed.

Lemma list_insert_at_nodup {A} (index : Z) (x : A) l l' :
  list_insert_at index x l = Some l' → x ∉ l → NoDup l → NoDup l'.
Proof.
  unfold list_insert_at. destruct (fits_ssize_t index); [|discriminate].
  intros [= <-]. set (i := insert_position _ _). intros Hx Hl.
  rewrite <- (take_drop i l) in Hl, Hx.
  apply NoDup_app in Hl as (H1 & H2 & H3).
  rewrite elem_of_app in Hx.
  apply NoDup_app. split; [exact H1|]. split.
  - intros y Hy Hy'. apply elem_of_cons in Hy' as [->|Hy']; [tauto|].
    eapply H2; eassumption.
  - apply NoDup_cons. split; [tauto|exact H3].
Qed.

Lemma list_remove_Some x l l' :
  list_remove x l = Some l' →
  x ∈ l ∧ (NoDup l → NoDup l' ∧ ∀ y, y ∈ l' ↔ y ∈ l ∧ y ≠ x).
Proof.
  revert l'. induction l as [|a l IH]; intros l' H; simpl in H; [discriminate|].
  destruct (decide (a = x)) as [->|Hne].
  - injection H as <-. split; [left|]. intros Hnd.
    apply NoDup_cons in Hnd as [Hx Hnd]. split; [exact Hnd|].
    intros y. rewrite elem_of_cons. split; [|intros [[->|Hy] Hyx]; tauto].
    intros Hy. split; [tauto|]. intros ->. contradiction.
  - destruct (list_remove x l) as [l0|] eqn:E; [|discriminate].
    injection H as <-. destruct (IH l0 eq_refl) as (Hin & Hrest).
    split; [right; exact Hin|]. intros Hnd.
    apply NoDup_cons in Hnd as [Ha Hnd]. destruct (Hrest Hnd) as (Hnd0 & Hiff).
    split.
    + apply NoDup_cons. split; [|exact Hnd0]. rewrite Hiff. tauto.
    + intros y. rewrite !elem_of_cons, Hiff. split; [|tauto].
      intros [->|[? ?]]; tauto.
Qed.

(** ** The ancestor test *)

Lemma on_parent_chain_sound h a fuel : ∀ n,
  (∀ p c, child_of h p c → ∃ cd, h !! c = Some cd ∧ _parent cd = Some p) →
  on_parent_chain fuel h a n = false → ¬ reaches h a n.
Proof.
  induction fuel as [|fuel IH]; intros n Hdown Hch Hr; simpl in Hch;
    [discriminate|].
  destruct (decide (a = n)) as [|Hne]; [discriminate|].
  apply rtc_inv_r in Hr as [->|(m & Hr & Hc)]; [contradiction|].
  destruct (Hdown _ _ Hc) as (cd & Hcd & Hp). rewrite Hcd, Hp in Hch.
  eapply IH; eassumption.
Qed.


(** ** Well-formedness depends on parents and children only *)

Lemma same_shape_lookup h g n nd :
  same_shape h g → h !! n = Some nd →
  ∃ nd', g !! n = Some nd' ∧ _parent nd' = _parent nd
         ∧ _children nd' = _children nd.
Proof.
  intros H Hn. specialize (H n). rewrite Hn in H. simpl in H.
  destruct (g !! n) as [nd'|]; simpl in H; [|discriminate].
  exists nd'. injection H as H1 H2. auto.
Qed.

Lemma same_shape_sym h g : same_shape h g → same_shape g h.
Proof. intros H n. symmetry. apply H. Qed.

Lemma same_shape_kids h g : same_shape h g → same_kids h g.
Proof.
  intros H n. specialize (H n).
  destruct (h !! n), (g !! n); simpl in *; congruence.
Qed.

Lemma written_shape P rt g g' : written P rt g g' → same_shape g g'.
Proof.
  intros H n. destruct (H n) as [[_ ->]|[_ ->]]; [|reflexivity].
  destruct (g !! n); reflexivity.
Qed.

Lemma wf_closed h : wf h → closed h.
Proof. intros H p c Hc. destruct (wf_down h H p c Hc) as (cd & -> & _). eauto. Qed.

Lemma wf_shape h g : same_shape h g → wf h → wf g.
Proof.
  intros Hs Hwf.
  pose proof (same_shape_kids _ _ Hs) as Hk.
  pose proof (same_shape_sym _ _ Hs) as Hs'.
  pose proof (same_kids_sym _ _ Hk) as Hk'.
  constructor.
  - intros p c Hc. apply (child_of_kids _ _ _ _ Hk') in Hc.
    destruct (wf_down h Hwf p c Hc) as (cd & Hcd & Hp).
    destruct (same_shape_lookup _ _ _ _ Hs Hcd) as (cd' & ? & ? & ?).
    exists cd'. split; congruence.
  - intros c cd p Hcd Hp.
    destruct (same_shape_lookup _ _ _ _ Hs' Hcd) as (cd' & ? & ? & ?).
    apply (child_of_kids _ _ _ _ Hk). eapply (wf_up h Hwf); [eassumption|congruence].
  - intros p nd Hnd.
    destruct (same_shape_lookup _ _ _ _ Hs' Hnd) as (nd' & ? & ? & Hc).
    unfold children. rewrite <- Hc. eapply (wf_nodup h Hwf). eassumption.
  - intros n. destruct (wf_height h Hwf n) as [k Hkh]. exists k.
    eapply height_le_kids; eassumption.
Qed.

(** ** Attaching a child ([add], [insert]) *)

Section Attach.
Variables (h : heap) (self child : nat) (nd cd : node) (cs' : list nat).
Hypothesis Hwf : wf h.
Hypothesis Hself : h !! self = Some nd.
Hypothesis Hchild : h !! child = Some cd.
Hypothesis Hpar : _parent cd = None.
Hypothesis Hfar : ¬ reaches h child self.
Hypothesis Hcs' : ∀ x, x ∈ cs' ↔ x = child ∨ x ∈ children nd.
Hypothesis Hnd' : NoDup cs'.

Let h1 : heap := <[self := set_children nd (Some cs')]> h.
Let h2 : heap := <[child := set_parent cd (Some self)]> h1.

Lemma attached_ne : child ≠ self.
Proof. intros ->. apply Hfar, rtc_refl. Qed.

Lemma attached_lookup p :
  h2 !! p = if decide (child = p) then Some (set_parent cd (Some self))
            else if decide (self = p) then Some (set_children nd (Some cs'))
            else h !! p.
Proof. unfold h2, h1. rewrite !lookup_insert. reflexivity. Qed.

Lemma child_of_attached p c :
  child_of h2 p c ↔ child_of h p c ∨ (p = self ∧ c = child).
Proof.
  pose proof attached_ne as Hne.
  unfold child_of. rewrite attached_lookup.
  destruct (decide (child = p)) as [<-|Hp1].
  - split.
    + intros (x & [= <-] & Hc). left. exists cd. split; assumption.
    + intros [(x & Hx & Hc)|[? _]]; [|contradiction].
      exists (set_parent cd (Some self)). split; [reflexivity|].
      rewrite Hchild in Hx. injection Hx as <-. exact Hc.
  - destruct (decide (self = p)) as [<-|Hp2].
    + split.
      * intros (x & [= <-] & Hc). unfold children in Hc. simpl in Hc.
        apply Hcs' in Hc as [->|Hc]; [right; auto|left].
        exists nd. split; assumption.
      * intros H. exists (set_children nd (Some cs')). split; [reflexivity|].
        unfold children at 1. simpl. apply Hcs'.
        destruct H as [(x & Hx & Hc)|[_ ->]]; [right|left; reflexivity].
        rewrite Hself in Hx. injection Hx as <-. exact Hc.
    + split; [intros H; left; exact H|].
      intros [H|[-> _]]; [exact H|contradiction].
Qed.

Lemma height_attached_below k m :
  height_le h m k → reaches h child m → height_le h2 m k.
Proof.
  induction 1 as [m k _ IH]. intros Hr. constructor. intros c Hc.
  apply child_of_attached in Hc as [Hc|[-> _]]; [|contradiction].
  apply IH; [exact Hc|]. eapply rtc_r; eassumption.
Qed.

Lemma height_attached kc k n :
  height_le h child kc → height_le h n k → height_le h2 n (k + kc).
Proof.
  intros Hkc. induction 1 as [n k _ IH]. simpl. constructor. intros c Hc.
  apply child_of_attached in Hc as [Hc|[-> ->]]; [apply IH, Hc|].
  eapply height_le_mono; [apply height_attached_below;
                          [exact Hkc|apply rtc_refl]|lia].
Qed.

Lemma wf_attached : wf h2.
Proof.
  pose proof attached_ne as Hne.
  constructor.
  - intros p c Hc. apply child_of_attached in Hc as [Hc|[-> ->]].
    + destruct (wf_down h Hwf p c Hc) as (x & Hx & Hp).
      rewrite attached_lookup.
      destruct (decide (child = c)) as [<-|?]; [congruence|].
      destruct (decide (self = c)) as [<-|?]; [|eauto].
      eexists. split; [reflexivity|]. simpl. congruence.
    + rewrite attached_lookup. rewrite decide_True by reflexivity.
      eexists. split; reflexivity.
  - intros c x p Hx Hp. apply child_of_attached. rewrite attached_lookup in Hx.
    destruct (decide (child = c)) as [<-|?].
    { injection Hx as <-. simpl in Hp. injection Hp as <-. auto. }
    left. destruct (decide (self = c)) as [<-|?].
    + injection Hx as <-. simpl in Hp. eapply (wf_up h Hwf); eassumption.
    + eapply (wf_up h Hwf); eassumption.
  - intros p x Hx. rewrite attached_lookup in Hx.
    destruct (decide (child = p)) as [<-|?].
    { injection Hx as <-. apply (wf_nodup h Hwf child cd Hchild). }
    destruct (decide (self = p)) as [<-|?].
    + injection Hx as <-. exact Hnd'.
    + eapply (wf_nodup h Hwf); eassumption.
  - intros n. destruct (wf_height h Hwf child) as [kc Hkc].
    destruct (wf_height h Hwf n) as [k Hk]. exists (k + kc).
    apply height_attached; assumption.
Qed.

Lemma reaches_attached_below m : reaches h2 child m ↔ reaches h child m.
Proof.
  unfold reaches. split; revert m.
  - apply (rtc_ind_r (fun m => rtc (child_of h) child m)); [apply rtc_refl|].
    intros y z Hxy Hyz IH.
    apply child_of_attached in Hyz as [Hc|[-> _]];
      [|contradiction (Hfar IH)].
    eapply rtc_r; eassumption.
  - apply (rtc_ind_r (fun m => rtc (child_of h2) child m)); [apply rtc_refl|].
    intros y z Hxy Hyz IH.
    eapply rtc_r; [exact IH|]. apply child_of_attached. left. exact Hyz.
Qed.

Lemma attach_ok :
  ∃ fuel0, ∀ fuel, fuel0 ≤ fuel →
  ∃ g', attach fuel self child h1 = Ret g'
        ∧ written (reaches h child) (Some (default self (_root nd))) h2 g'.
Proof.
  pose proof attached_ne as Hne.
  destruct (wf_height h2 wf_attached child) as [k Hk]. exists k.
  intros fuel Hfuel. unfold attach, update.
  assert (H1 : h1 !! child = Some cd).
  { unfold h1. rewrite lookup_insert_ne by congruence. exact Hchild. }
  rewrite H1. simpl. fold h2.
  assert (H2 : root h2 self = Some (default self (_root nd))).
  { unfold root. rewrite attached_lookup.
    rewrite decide_False by assumption. rewrite decide_True by reflexivity.
    reflexivity. }
  rewrite H2.
  destruct (_set_root_ok k h2 child (wf_closed _ wf_attached) Hk
              (ltac:(rewrite attached_lookup, decide_True by reflexivity; eauto))
              fuel (Some (default self (_root nd))) h2 Hfuel
              (same_kids_refl _)) as (g' & Hg' & Hw).
  exists g'. split; [exact Hg'|].
  eapply written_iff; [|exact Hw]. apply reaches_attached_below.
Qed.
End Attach.


(** ** Detaching a child ([remove]) *)

Section Detach.
Variables (h : heap) (self child : nat) (nd cd : node) (cs' : list nat).
Hypothesis Hwf : wf h.
Hypothesis Hself : h !! self = Some nd.
Hypothesis Hchild : h !! child = Some cd.
Hypothesis Hne : child ≠ self.
Hypothesis Hcs' : ∀ x, x ∈ cs' ↔ x ∈ children nd ∧ x ≠ child.
Hypothesis Hnd' : NoDup cs'.
Hypothesis Hin : child ∈ children nd.

Let h1 : heap := <[self := set_children nd (Some cs')]> h.
Let h2 : heap := <[child := set_parent cd None]> h1.

Lemma detached_lookup p :
  h2 !! p = if decide (child = p) then Some (set_parent cd None)
            else if decide (self = p) then Some (set_children nd (Some cs'))
            else h !! p.
Proof. unfold h2, h1. rewrite !lookup_insert. reflexivity. Qed.

Lemma child_of_detached p c :
  child_of h2 p c ↔ child_of h p c ∧ ¬ (p = self ∧ c = child).
Proof.
  unfold child_of. rewrite detached_lookup.
  destruct (decide (child = p)) as [<-|Hp1].
  - split.
    + intros (x & [= <-] & Hc). split; [|tauto]. exists cd. auto.
    + intros [(x & Hx & Hc) _]. eexists. split; [reflexivity|].
      rewrite Hchild in Hx. injection Hx as <-. exact Hc.
  - destruct (decide (self = p)) as [<-|Hp2].
    + split.
      * intros (x & [= <-] & Hc). unfold children in Hc. simpl in Hc.
        apply Hcs' in Hc as [Hc Hx]. split; [|tauto]. exists nd. auto.
      * intros [(x & Hx & Hc) Hn]. eexists. split; [reflexivity|].
        unfold children at 1. simpl. apply Hcs'.
        rewrite Hself in Hx. injection Hx as <-. split; [exact Hc|].
        intros ->. tauto.
    + split; [intros H; split; [exact H|]|tauto]. intros [-> _]. congruence.
Qed.

Lemma height_detached k n : height_le h n k → height_le h2 n k.
Proof.
  induction 1 as [n k _ IH]. constructor. intros c Hc.
  apply child_of_detached in Hc as [Hc _]. apply IH, Hc.
Qed.

Lemma wf_detached : wf h2.
Proof.
  assert (Hcp : _parent cd = Some self).
  { destruct (wf_down h Hwf self child) as (x & Hx & Hp);
      [exists nd; auto|congruence]. }
  constructor.
  - intros p c Hc. apply child_of_detached in Hc as [Hc Hn].
    destruct (wf_down h Hwf p c Hc) as (x & Hx & Hp).
    rewrite detached_lookup.
    destruct (decide (child = c)) as [<-|?].
    { exfalso. apply Hn. split; congruence. }
    destruct (decide (self = c)) as [<-|?]; [|eauto].
    eexists. split; [reflexivity|]. simpl. congruence.
  - intros c x p Hx Hp. apply child_of_detached. rewrite detached_lookup in Hx.
    destruct (decide (child = c)) as [<-|?].
    { injection Hx as <-. discriminate. }
    split; [|intros [_ ->]; congruence].
    destruct (decide (self = c)) as [<-|?].
    + injection Hx as <-. simpl in Hp. eapply (wf_up h Hwf); eassumption.
    + eapply (wf_up h Hwf); eassumption.
  - intros p x Hx. rewrite detached_lookup in Hx.
    destruct (decide (child = p)) as [<-|?].
    { injection Hx as <-. apply (wf_nodup h Hwf child cd Hchild). }
    destruct (decide (self = p)) as [<-|?].
    + injection Hx as <-. exact Hnd'.
    + eapply (wf_nodup h Hwf); eassumption.
  - intros n. destruct (wf_height h Hwf n) as [k Hk]. exists k.
    apply height_detached, Hk.
Qed.

Lemma detach_ok :
  ∃ fuel0, ∀ fuel, fuel0 ≤ fuel →
  ∃ g', detach fuel child h1 = Ret g'
        ∧ written (reaches h2 child) None h2 g'.
Proof.
  destruct (wf_height h2 wf_detached child) as [k Hk]. exists k.
  intros fuel Hfuel. unfold detach, update.
  assert (H1 : h1 !! child = Some cd).
  { unfold h1. rewrite lookup_insert_ne by congruence. exact Hchild. }
  rewrite H1. simpl. fold h2.
  apply (_set_root_ok k h2 child (wf_closed _ wf_detached) Hk); auto.
  - rewrite detached_lookup, decide_True by reflexivity. eauto.
  - apply same_kids_refl.
Qed.
End Detach.

(** ** A new node *)

Lemma wf_new h nd :
  wf h → _parent nd = None → children nd = [] →
  wf (<[fresh (dom h) := nd]> h).
Proof.
  intros Hwf Hp Hc.
  assert (Hfresh : h !! fresh (dom h) = None).
  { apply not_elem_of_dom. apply is_fresh. }
  assert (Hco : ∀ p c, child_of (<[fresh (dom h) := nd]> h) p c ↔ child_of h p c).
  { intros p c. unfold child_of. rewrite lookup_insert.
    destruct (decide (fresh (dom h) = p)) as [<-|?]; [|reflexivity].
    split; intros (x & Hx & Hin); [|congruence].
    injection Hx as <-. rewrite Hc in Hin. apply elem_of_nil in Hin as []. }
  constructor.
  - intros p c Hpc. apply Hco in Hpc.
    destruct (wf_down h Hwf p c Hpc) as (x & Hx & Hxp).
    exists x. split; [|exact Hxp]. rewrite lookup_insert_ne; [exact Hx|].
    intros <-. congruence.
  - intros c x p Hx Hxp. apply Hco. rewrite lookup_insert in Hx.
    destruct (decide (fresh (dom h) = c)) as [<-|?]; [congruence|].
    eapply (wf_up h Hwf); eassumption.
  - intros p x Hx. rewrite lookup_insert in Hx.
    destruct (decide (fresh (dom h) = p)) as [<-|?].
    + injection Hx as <-. rewrite Hc. apply NoDup_nil_2.
    + eapply (wf_nodup h Hwf); eassumption.
  - intros n. destruct (wf_height h Hwf n) as [k Hk]. exists k.
    clear -Hk Hco. induction Hk as [n k _ IH]. constructor.
    intros c Hpc. apply IH, Hco, Hpc.
Qed.


(** ** Detaching all children ([clear]) *)

Lemma same_kids_is_Some h g n : same_kids h g → is_Some (h !! n) → is_Some (g !! n).
Proof.
  intros H [x Hx]. destruct (same_kids_lookup _ _ _ _ H Hx) as (y & -> & _). eauto.
Qed.

Lemma childless_reaches h c m :
  (∀ x, ¬ child_of h c x) → reaches h c m ↔ c = m.
Proof.
  intros Hc. rewrite reaches_unfold. split; [|auto].
  intros [?|(x & Hx & _)]; [assumption|]. destruct (Hc x Hx).
Qed.

Ltac elem_cons :=
  repeat case_decide; try reflexivity; try congruence; exfalso;
  repeat match goal with
         | H : context [_ ∈ _ :: _] |- _ => rewrite elem_of_cons in H
         end;
  intuition congruence.

Lemma detach_loop h K fuel :
  closed h → K ≤ fuel →
  ∀ l g, (∀ c, c ∈ l → is_Some (h !! c) ∧ height_le h c K) → same_kids h g →
  ∃ g', for_each l (detach fuel) g = Ret g'
    ∧ same_kids h g'
    ∧ (∀ m, _parent <$> g' !! m
             = (fun x => if decide (m ∈ l) then None else _parent x) <$> g !! m)
    ∧ ((∀ c, c ∈ l → ∀ x, ¬ child_of h c x) →
       ∀ m, g' !! m
            = (fun x => if decide (m ∈ l) then mk_node None None (_children x)
                        else x) <$> g !! m).
Proof.
  intros Hcl Hfuel. induction l as [|c l IH]; intros g Hl Hk.
  { exists g. split; [reflexivity|]. split; [exact Hk|]. split.
    - intros m. destruct (g !! m); reflexivity.
    - intros _ m. destruct (g !! m); reflexivity. }
  destruct (Hl c) as [Hc Hh]; [left|].
  destruct (same_kids_is_Some _ _ _ Hk Hc) as [cdg Hcdg].
  simpl. unfold detach at 1, update. rewrite Hcdg. simpl.
  set (g1 := <[c := set_parent cdg None]> g).
  assert (Hk1 : same_kids g g1).
  { intros m. unfold g1. rewrite lookup_insert.
    destruct (decide (c = m)) as [<-|?]; [rewrite Hcdg|]; reflexivity. }
  destruct (_set_root_ok K h c Hcl Hh Hc fuel None g1 Hfuel
              (same_kids_trans _ _ _ Hk Hk1)) as (g2 & -> & Hw).
  simpl.
  destruct (IH g2) as (g' & -> & Hk' & Hpar & Hexact).
  { intros c' Hc'. apply Hl. right. exact Hc'. }
  { eapply same_kids_trans; [exact Hk|]. eapply same_kids_trans; [exact Hk1|].
    eapply written_kids, Hw. }
  exists g'. split; [reflexivity|]. split; [exact Hk'|]. split.
  - intros m. rewrite Hpar.
    pose proof (written_shape _ _ _ _ Hw m) as Hs. unfold g1 in Hs.
    rewrite lookup_insert in Hs.
    destruct (decide (c = m)) as [<-|Hne].
    + rewrite Hcdg. destruct (g2 !! c); simpl in *; [|discriminate].
      injection Hs as Hs1 Hs2.
      elem_cons.
    + destruct (g !! m), (g2 !! m); simpl in *; try discriminate; [|reflexivity].
      injection Hs as Hs1 Hs2.
      elem_cons.
  - intros Hless m. rewrite Hexact by (intros c' Hc'; apply Hless; right; exact Hc').
    pose proof (childless_reaches h c m (Hless c ltac:(left))) as Hr.
    destruct (decide (c = m)) as [<-|Hne].
    + rewrite (written_in _ _ _ _ c Hw) by apply rtc_refl.
      unfold g1. rewrite lookup_insert_eq, Hcdg. simpl.
      elem_cons.
    + rewrite (written_out _ _ _ _ m Hw) by (rewrite Hr; exact Hne).
      unfold g1. rewrite lookup_insert_ne by exact Hne.
      destruct (g !! m); [|reflexivity]. simpl.
      elem_cons.
Qed.

Lemma wf_cleared h self nd g :
  wf h → h !! self = Some nd →
  (∀ m, (fun y => (_parent y, _children y)) <$> g !! m
        = (fun x => (if decide (m ∈ children nd) then None else _parent x,
                     if decide (m = self) then Some [] else _children x))
            <$> h !! m) →
  wf g.
Proof.
  intros Hwf Hself Hg.
  assert (Hlk : ∀ m y, g !! m = Some y →
            ∃ x, h !! m = Some x
                 ∧ _parent y = (if decide (m ∈ children nd) then None
                                else _parent x)
                 ∧ _children y = (if decide (m = self) then Some []
                                  else _children x)).
  { intros m y Hy. specialize (Hg m). rewrite Hy in Hg.
    destruct (h !! m) as [x|]; simpl in Hg; [|discriminate].
    exists x. injection Hg as -> ->. auto. }
  assert (Hlk' : ∀ m x, h !! m = Some x → ∃ y, g !! m = Some y).
  { intros m x Hx. specialize (Hg m). rewrite Hx in Hg.
    destruct (g !! m); simpl in Hg; [eauto|discriminate]. }
  assert (Hco : ∀ p c, child_of g p c ↔ child_of h p c ∧ p ≠ self).
  { intros p c. split.
    - intros (y & Hy & Hc). destruct (Hlk _ _ Hy) as (x & Hx & _ & Hch).
      unfold children in Hc. rewrite Hch in Hc.
      destruct (decide (p = self)) as [->|Hne].
      + simpl in Hc. apply elem_of_nil in Hc as [].
      + split; [|exact Hne]. exists x. auto.
    - intros [(x & Hx & Hc) Hne]. destruct (Hlk' _ _ Hx) as [y Hy].
      exists y. split; [exact Hy|]. destruct (Hlk _ _ Hy) as (x' & Hx' & _ & Hch).
      unfold children. rewrite Hch. rewrite decide_False by exact Hne.
      rewrite Hx in Hx'. injection Hx' as <-. exact Hc. }
  constructor.
  - intros p c Hc. apply Hco in Hc as [Hc Hne].
    destruct (wf_down h Hwf p c Hc) as (x & Hx & Hp).
    destruct (Hlk' _ _ Hx) as [y Hy]. exists y. split; [exact Hy|].
    destruct (Hlk _ _ Hy) as (x' & Hx' & Hpar & _). rewrite Hpar.
    rewrite decide_False; [congruence|]. intros Hin.
    destruct (wf_down h Hwf self c) as (x2 & Hx2 & Hp2);
      [exists nd; auto|congruence].
  - intros c y p Hy Hp. destruct (Hlk _ _ Hy) as (x & Hx & Hpar & _).
    rewrite Hp in Hpar.
    destruct (decide (c ∈ children nd)) as [|Hnin]; [discriminate|].
    apply Hco. pose proof (wf_up h Hwf c x p Hx (eq_sym Hpar)) as Hc.
    split; [exact Hc|]. intros ->. destruct Hc as (x' & Hx' & Hin).
    congruence.
  - intros p y Hy. destruct (Hlk _ _ Hy) as (x & Hx & _ & Hch).
    unfold children. rewrite Hch. destruct (decide (p = self)).
    + apply NoDup_nil_2.
    + apply (wf_nodup h Hwf p x Hx).
  - intros n. destruct (wf_height h Hwf n) as [k Hk]. exists k.
    clear -Hk Hco. induction Hk as [n k _ IH]. constructor.
    intros c Hc. apply IH, Hco, Hc.
Qed.


(** ** Root pointers *)

Lemma root_lookup h n x : h !! n = Some x → root h n = Some (default n (_root x)).
Proof. intros H. unfold root. rewrite H. reflexivity. Qed.

Lemma root_ok_attached h self child nd cd cs' g' :
  wf h → root_ok h →
  h !! self = Some nd → h !! child = Some cd → _parent cd = None →
  ¬ reaches h child self →
  written (reaches h child) (Some (default self (_root nd)))
          (<[child := set_parent cd (Some self)]>
             (<[self := set_children nd (Some cs')]> h)) g' →
  root_ok g'.
Proof.
  intros Hwf Hrk Hself Hchild Hpar Hfar Hw.
  set (r := default self (_root nd)) in *.
  assert (Hne : child ≠ self) by (intros ->; apply Hfar, rtc_refl).
  pose proof (attached_lookup h self child nd cd cs') as Hlk.
  assert (Hroot_out : ∀ p x, h !! p = Some x → ¬ reaches h child p →
                             root g' p = root h p).
  { intros p x Hx Hp. unfold root at 1.
    rewrite (written_out _ _ _ _ p Hw Hp), Hlk.
    rewrite decide_False by (intros <-; apply Hp, rtc_refl).
    destruct (decide (self = p)) as [<-|?].
    - rewrite (root_lookup _ _ _ Hself). reflexivity.
    - rewrite Hx. rewrite (root_lookup _ _ _ Hx). reflexivity. }
  assert (Hroot_in : ∀ p x, h !! p = Some x → reaches h child p →
                            root g' p = Some r).
  { intros p x Hx Hp. unfold root.
    rewrite (written_in _ _ _ _ p Hw Hp), Hlk.
    destruct (decide (child = p)) as [<-|?]; [reflexivity|].
    rewrite decide_False by (intros <-; contradiction).
    rewrite Hx. reflexivity. }
  intros n x Hx. destruct (Hw n) as [[Hr E]|[Hr E]]; rewrite Hx, Hlk in E.
  - destruct (decide (child = n)) as [<-|Hn].
    + injection E as ->. simpl. exists r. split; [|reflexivity].
      rewrite (Hroot_out self nd Hself Hfar). apply root_lookup, Hself.
    + rewrite decide_False in E by (intros <-; contradiction).
      apply rtc_inv_r in Hr as [->|(m & Hm & Hc)]; [contradiction|].
      destruct (wf_down h Hwf m n Hc) as (xn & Hxn & Hp).
      rewrite Hxn in E. injection E as ->. simpl. rewrite Hp.
      exists r. split; [|reflexivity]. destruct Hc as (xm & Hxm & _).
      eapply Hroot_in; eassumption.
  - rewrite decide_False in E by (intros <-; apply Hr, rtc_refl).
    assert (∃ xh, h !! n = Some xh ∧ _parent x = _parent xh
                  ∧ _root x = _root xh) as (xh & Hxh & -> & ->).
    { destruct (decide (self = n)) as [<-|?].
      - injection E as ->. exists nd. auto.
      - exists x. auto. }
    pose proof (Hrk n xh Hxh) as Hn.
    destruct (_parent xh) as [p|] eqn:Ep; [|exact Hn].
    destruct Hn as (r0 & Hr0 & Hr0').
    exists r0. split; [|exact Hr0'].
    pose proof (wf_up h Hwf n xh p Hxh Ep) as Hc.
    assert (Hp : ∃ xp, h !! p = Some xp).
    { unfold root in Hr0. destruct (h !! p); [eauto|discriminate]. }
    destruct Hp as [xp Hxp]. rewrite <- Hr0.
    apply (Hroot_out p xp Hxp). intros Hp. apply Hr.
    eapply rtc_r; [exact Hp|exact Hc].
Qed.


Lemma root_ok_detached h self child nd cd cs' g' :
  wf h → root_ok h →
  h !! self = Some nd → h !! child = Some cd → child ≠ self →
  children cd = [] →
  written (reaches (<[child := set_parent cd None]>
                      (<[self := set_children nd (Some cs')]> h)) child)
          None
          (<[child := set_parent cd None]>
             (<[self := set_children nd (Some cs')]> h)) g' →
  root_ok g'.
Proof.
  intros Hwf Hrk Hself Hchild Hne Hless Hw.
  pose proof (detached_lookup h self child nd cd cs') as Hlk.
  set (h2 := <[child := set_parent cd None]> _) in *.
  assert (Hr : ∀ m, reaches h2 child m ↔ child = m).
  { intros m. apply childless_reaches. intros x (y & Hy & Hin).
    rewrite Hlk, decide_True in Hy by reflexivity. injection Hy as <-.
    unfold children in *. simpl in Hin. rewrite Hless in Hin.
    apply elem_of_nil in Hin as []. }
  assert (Hout : ∀ p x, h !! p = Some x → p ≠ child → root g' p = root h p).
  { intros p x Hx Hp. unfold root at 1.
    rewrite (written_out _ _ _ _ p Hw) by (rewrite Hr; congruence).
    rewrite Hlk, decide_False by congruence.
    destruct (decide (self = p)) as [<-|?].
    - rewrite (root_lookup _ _ _ Hself). reflexivity.
    - rewrite Hx. rewrite (root_lookup _ _ _ Hx). reflexivity. }
  intros n x Hx. destruct (decide (child = n)) as [<-|Hn].
  - rewrite (written_in _ _ _ _ child Hw) in Hx by (apply Hr; reflexivity).
    rewrite Hlk, decide_True in Hx by reflexivity.
    injection Hx as <-. reflexivity.
  - rewrite (written_out _ _ _ _ n Hw) in Hx by (rewrite Hr; exact Hn).
    rewrite Hlk, decide_False in Hx by exact Hn.
    assert (∃ xh, h !! n = Some xh ∧ _parent x = _parent xh
                  ∧ _root x = _root xh) as (xh & Hxh & -> & ->).
    { destruct (decide (self = n)) as [<-|?].
      - injection Hx as <-. exists nd. auto.
      - exists x. auto. }
    pose proof (Hrk n xh Hxh) as Hn'.
    destruct (_parent xh) as [p|] eqn:Ep; [|exact Hn'].
    destruct Hn' as (r0 & Hr0 & Hr0').
    exists r0. split; [|exact Hr0'].
    assert (Hp : ∃ xp, h !! p = Some xp).
    { unfold root in Hr0. destruct (h !! p); [eauto|discriminate]. }
    destruct Hp as [xp Hxp]. rewrite <- Hr0.
    apply (Hout p xp Hxp). intros ->.
    destruct (wf_up h Hwf n xh child Hxh Ep) as (y & Hy & Hin).
    rewrite Hchild in Hy. injection Hy as <-. rewrite Hless in Hin.
    apply elem_of_nil in Hin as [].
Qed.

Lemma root_ok_cleared h self nd g' x :
  wf h → root_ok h → h !! self = Some nd →
  (∀ c, c ∈ children nd → ∀ y, ¬ child_of h c y) →
  (∀ m, g' !! m
        = (fun x => if decide (m ∈ children nd)
                    then mk_node None None (_children x) else x) <$> h !! m) →
  g' !! self = Some x →
  root_ok (<[self := set_children x (Some [])]> g').
Proof.
  intros Hwf Hrk Hself Hless Hg' Hx.
  assert (Hnin : self ∉ children nd).
  { intros Hin. destruct (wf_height h Hwf self) as [k Hk].
    apply (height_le_irrefl _ _ _ Hk). exists nd. auto. }
  assert (Hxnd : x = nd).
  { rewrite Hg', Hself in Hx. simpl in Hx.
    rewrite decide_False in Hx by exact Hnin. congruence. }
  subst x.
  assert (Hout : ∀ p xp, h !! p = Some xp → p ∉ children nd →
            root (<[self := set_children nd (Some [])]> g') p = root h p).
  { intros p xp Hxp Hp. unfold root at 1. rewrite lookup_insert.
    destruct (decide (self = p)) as [<-|?].
    - rewrite (root_lookup _ _ _ Hself). reflexivity.
    - rewrite Hg', Hxp. simpl. rewrite decide_False by exact Hp.
      rewrite (root_lookup _ _ _ Hxp). reflexivity. }
  intros n y Hy. rewrite lookup_insert in Hy.
  assert (Hcase : ((n ∈ children nd) ∧ _parent y = None ∧ _root y = None)
                  ∨ ((n ∉ children nd)
                     ∧ (∃ xh, h !! n = Some xh
                              ∧ _parent y = _parent xh ∧ _root y = _root xh))).
  { destruct (decide (self = n)) as [<-|?].
    - injection Hy as <-. right. split; [exact Hnin|]. exists nd. auto.
    - rewrite Hg' in Hy. destruct (h !! n) as [xh|]; [|discriminate].
      simpl in Hy. destruct (decide (n ∈ children nd)).
      + injection Hy as <-. left. auto.
      + injection Hy as <-. right. split; [assumption|]. exists xh. auto. }
  destruct Hcase as [(_ & -> & ->)|(Hn & xh & Hxh & -> & ->)]; [reflexivity|].
  pose proof (Hrk n xh Hxh) as Hn'.
  destruct (_parent xh) as [p|] eqn:Ep; [|exact Hn'].
  destruct Hn' as (r0 & Hr0 & Hr0').
  exists r0. split; [|exact Hr0'].
  assert (Hp : ∃ xp, h !! p = Some xp).
  { unfold root in Hr0. destruct (h !! p); [eauto|discriminate]. }
  destruct Hp as [xp Hxp]. rewrite <- Hr0.
  apply (Hout p xp Hxp). intros Hin.
  apply (Hless p Hin n). eapply (wf_up h Hwf); eassumption.
Qed.

Lemma root_ok_new h nd :
  wf h → root_ok h → _parent nd = None → _root nd = None →
  root_ok (<[fresh (dom h) := nd]> h).
Proof.
  intros Hwf Hrk Hp Hr.
  assert (Hfresh : h !! fresh (dom h) = None).
  { apply not_elem_of_dom. apply is_fresh. }
  intros n x Hx. rewrite lookup_insert in Hx.
  destruct (decide (fresh (dom h) = n)) as [<-|Hn].
  - injection Hx as <-. rewrite Hp. exact Hr.
  - pose proof (Hrk n x Hx) as Hn'.
    destruct (_parent x) as [p|]; [|exact Hn'].
    destruct Hn' as (r0 & Hr0 & Hr0'). exists r0. split; [|exact Hr0'].
    unfold root in *. rewrite lookup_insert_ne; [exact Hr0|].
    intros <-. rewrite Hfresh in Hr0. discriminate.
Qed.


(** ** One allowed call *)

Lemma attachable_spec h self child :
  wf h → attachable h self child = true →
  ∃ nd cd, h !! self = Some nd ∧ h !! child = Some cd
           ∧ _parent cd = None ∧ ¬ reaches h child self.
Proof.
  intros Hwf H. unfold attachable in H.
  apply andb_prop in H as [H Hchain]. apply andb_prop in H as [Ha Hp].
  unfold allocated in Ha. apply bool_decide_eq_true in Ha as [nd Hnd].
  unfold parentless in Hp. destruct (h !! child) as [cd|] eqn:Hcd; [|discriminate].
  destruct (_parent cd) eqn:Hpar; [discriminate|].
  exists nd, cd. repeat split; try assumption.
  apply negb_true_iff in Hchain.
  eapply on_parent_chain_sound; [|exact Hchain]. apply (wf_down h Hwf).
Qed.

Lemma childless_spec h c :
  childless h c = true → ∃ cd, h !! c = Some cd ∧ children cd = [].
Proof.
  unfold childless. destruct (h !! c) as [cd|]; [|discriminate].
  destruct (children cd) eqn:E; [|discriminate]. eauto.
Qed.

Lemma children_Some nd cs : _children nd = Some cs → children nd = cs.
Proof. unfold children. intros ->. reflexivity. Qed.

Lemma attach_step h self child nd cd cs cs' :
  wf h → h !! self = Some nd → _children nd = Some cs →
  h !! child = Some cd → _parent cd = None → ¬ reaches h child self →
  (∀ x, x ∈ cs' ↔ x = child ∨ x ∈ cs) → (child ∉ cs → NoDup cs') →
  ∃ fuel0, ∀ fuel, fuel0 ≤ fuel →
  ∃ h', attach fuel self child (<[self := set_children nd (Some cs')]> h)
        = Ret h'
        ∧ wf h' ∧ (root_ok h → root_ok h') ∧ child_of h' self child
        ∧ (is_root h self → is_root h' self)
        ∧ same_shape (<[child := set_parent cd (Some self)]>
                        (<[self := set_children nd (Some cs')]> h)) h'.
Proof.
  intros Hwf Hself Hcs Hchild Hpar Hfar Hcs' Hnd'.
  pose proof (children_Some _ _ Hcs) as Hch.
  assert (Hnin : child ∉ cs).
  { intros Hin. destruct (wf_down h Hwf self child) as (x & Hx & Hp);
      [exists nd; rewrite Hch; auto|congruence]. }
  assert (Hcs'' : ∀ x, x ∈ cs' ↔ x = child ∨ x ∈ children nd)
    by (rewrite Hch; exact Hcs').
  destruct (attach_ok h self child nd cd cs' Hwf Hself Hchild Hpar Hfar
              Hcs'' (Hnd' Hnin)) as (fuel0 & Hok).
  exists fuel0. intros fuel Hfuel. destruct (Hok fuel Hfuel) as (g' & Hg' & Hw).
  exists g'. split; [exact Hg'|]. split.
  - eapply wf_shape; [eapply written_shape, Hw|].
    apply wf_attached; auto.
  - split; [intros Hrk; apply (root_ok_attached h self child nd cd cs' g'); auto|].
    split.
    + eapply child_of_kids; [eapply written_kids, Hw|].
      apply child_of_attached; auto.
    + split; [|eapply written_shape, Hw].
      intros (x & Hx & Hp). rewrite Hself in Hx. injection Hx as <-.
      destruct (same_shape_lookup _ g' self (set_children nd (Some cs'))
                  (written_shape _ _ _ _ Hw)) as (y & Hy & Hyp & _).
      { rewrite attached_lookup.
        rewrite decide_False by (intros ->; apply Hfar, rtc_refl).
        rewrite decide_True by reflexivity. reflexivity. }
      exists y. split; [exact Hy|]. rewrite Hyp. exact Hp.
Qed.

Lemma add_step h self child nd cd cs :
  wf h → h !! self = Some nd → _children nd = Some cs →
  h !! child = Some cd → _parent cd = None → ¬ reaches h child self →
  ∃ fuel0, ∀ fuel, fuel0 ≤ fuel →
  ∃ h', add fuel h self child = Ret h'
        ∧ wf h' ∧ (root_ok h → root_ok h') ∧ child_of h' self child
        ∧ (is_root h self → is_root h' self)
        ∧ same_shape (<[child := set_parent cd (Some self)]>
                        (<[self := set_children nd (Some (cs ++ [child]))]> h))
                     h'.
Proof.
  intros Hwf Hself Hcs Hchild Hpar Hfar. unfold add. rewrite Hself, Hcs.
  apply (attach_step h self child nd cd cs (cs ++ [child])); auto.
  - intros x. rewrite elem_of_app, list_elem_of_singleton. tauto.
  - intros Hnin. apply NoDup_app. split; [|split].
    + pose proof (wf_nodup h Hwf self nd Hself) as H.
      rewrite (children_Some _ _ Hcs) in H. exact H.
    + intros x Hx Hx'. apply list_elem_of_singleton in Hx' as ->. tauto.
    + apply NoDup_singleton.
Qed.

(** The loop of [Node.__init__]: the new node adopts roots of other
    trees one after the other. *)
Lemma init_loop self : ∀ cs h,
  wf h → is_root h self →
  (∃ nd l, h !! self = Some nd ∧ _children nd = Some l) →
  (∀ c, c ∈ cs → parentless h c = true ∧ c ≠ self) → NoDup cs →
  ∃ fuel0, ∀ fuel, fuel0 ≤ fuel →
  ∃ h', for_each cs (fun child g => add fuel g self child) h = Ret h'
        ∧ wf h' ∧ (root_ok h → root_ok h').
Proof.
  induction cs as [|c cs IH]; intros h Hwf Hroot (nd & l & Hself & Hl) Hcs Hnd.
  { exists 0. intros fuel _. exists h. simpl. auto. }
  apply NoDup_cons in Hnd as [Hc Hnd].
  destruct (Hcs c) as [Hpc Hcself]; [left|].
  unfold parentless in Hpc. destruct (h !! c) as [cd|] eqn:Hcd; [|discriminate].
  destruct (_parent cd) eqn:Hpar; [discriminate|]. clear Hpc.
  assert (Hfar : ¬ reaches h c self).
  { intros Hr. apply rtc_inv_r in Hr as [->|(m & _ & Hm)]; [congruence|].
    destruct (wf_down h Hwf m self Hm) as (x & Hx & Hxp).
    destruct Hroot as (y & Hy & Hyp). congruence. }
  destruct (add_step h self c nd cd l Hwf Hself Hl Hcd Hpar Hfar)
    as (fuel1 & Hok1).
  destruct (Hok1 fuel1 ltac:(lia)) as (h1 & Hadd & Hwf1 & Hrk1 & _ & Hroot1 & Hs).
  destruct (IH h1 Hwf1 (Hroot1 Hroot)) as (fuel2 & Hok2); [| |exact Hnd|].
  { destruct (same_shape_lookup _ h1 self
                (set_children nd (Some (l ++ [c]))) Hs) as (y & Hy & _ & Hyc).
    - rewrite lookup_insert_ne by congruence. apply lookup_insert_eq.
    - exists y, (l ++ [c]). auto. }
  { intros c' Hc'. destruct (Hcs c') as [Hp' Hne']; [right; exact Hc'|].
    split; [|exact Hne'].
    unfold parentless in *. destruct (h !! c') as [cd'|] eqn:Hcd'; [|discriminate].
    destruct (same_shape_lookup _ h1 c' cd' Hs) as (y & -> & Hyp & _).
    - rewrite !lookup_insert_ne; [exact Hcd'|congruence|].
      intros ->. contradiction.
    - rewrite Hyp. exact Hp'. }
  exists (fuel1 `max` fuel2). intros fuel Hfuel. simpl.
  rewrite (add_mono fuel1 fuel) by (first [rewrite Hadd; exact I|lia]).
  rewrite Hadd. simpl.
  destruct (Hok2 fuel ltac:(lia)) as (h' & -> & Hwf' & Hrk').
  exists h'. auto.
Qed.

Lemma exec_step h o :
  wf h → pre_attach h o = true →
  ∃ fuel0, ∀ fuel, fuel0 ≤ fuel →
  ∃ h', heap_after (exec fuel h o) = Some h'
        ∧ wf h' ∧ (root_ok h → pre_root h o = true → root_ok h').
Proof.
  intros Hwf Hpre.
  destruct o as [kids|self child|self index child|self child|self]; simpl in *.
  - destruct kids as [cs|].
    + apply andb_prop in Hpre as [Hroots Hnd].
      apply bool_decide_eq_true in Hnd. rewrite forallb_forall in Hroots.
      set (self := fresh (dom h)).
      assert (Hfresh : h !! self = None).
      { apply not_elem_of_dom. apply is_fresh. }
      set (h0 := <[self := set_children fresh_node (Some [])]> h).
      assert (Hwf0 : wf h0) by (apply wf_new; auto).
      destruct (init_loop self cs h0 Hwf0) as (fuel0 & Hok); [| | |exact Hnd|].
      { eexists. split; [apply lookup_insert_eq|reflexivity]. }
      { eexists. eexists. split; [apply lookup_insert_eq|reflexivity]. }
      { intros c Hc. apply list_elem_of_In, Hroots in Hc.
        unfold parentless in *.
        destruct (h !! c) as [cd|] eqn:Hcd; [|discriminate].
        assert (c ≠ self) by congruence.
        split; [|assumption]. unfold h0.
        rewrite lookup_insert_ne by congruence. rewrite Hcd. exact Hc. }
      exists fuel0. intros fuel Hfuel.
      destruct (Hok fuel Hfuel) as (h' & Hh' & Hwf' & Hrk').
      exists h'. fold self. fold h0. rewrite Hh'. simpl.
      split; [reflexivity|]. split; [exact Hwf'|].
      intros Hrk _. apply Hrk'. apply root_ok_new; auto.
    + exists 0. intros fuel _. eexists. split; [reflexivity|].
      split; [apply wf_new; auto|intros; apply root_ok_new; auto].
  - pose proof (attachable_spec _ _ _ Hwf Hpre)
      as (nd & cd & Hself & Hchild & Hpar & Hfar).
    destruct (_children nd) as [cs|] eqn:Hcs.
    + destruct (add_step h self child nd cd cs Hwf Hself Hcs Hchild Hpar Hfar)
        as (fuel0 & Hok).
      exists fuel0. intros fuel Hfuel.
      destruct (Hok fuel Hfuel) as (h' & -> & Hwf' & Hrk' & _).
      exists h'. simpl. auto.
    + exists 0. intros fuel _. exists h. unfold add. rewrite Hself, Hcs.
      simpl. auto.
  - pose proof (attachable_spec _ _ _ Hwf Hpre)
      as (nd & cd & Hself & Hchild & Hpar & Hfar).
    unfold insert. rewrite Hself. destruct (_children nd) as [cs|] eqn:Hcs.
    + destruct (list_insert_at index child cs) as [cs'|] eqn:Hins;
        [|exists 0; intros fuel _; exists h; simpl; auto].
      destruct (attach_step h self child nd cd cs cs'
                  Hwf Hself Hcs Hchild Hpar Hfar) as (fuel0 & Hok).
      { intros x. apply (list_insert_at_elem _ _ _ _ _ Hins). }
      { intros Hnin. apply (list_insert_at_nodup _ _ _ _ Hins); [exact Hnin|].
        pose proof (wf_nodup h Hwf self nd Hself) as H.
        rewrite (children_Some _ _ Hcs) in H. exact H. }
      exists fuel0. intros fuel Hfuel.
      destruct (Hok fuel Hfuel) as (h' & -> & Hwf' & Hrk' & _).
      exists h'. simpl. auto.
    + exists 0. intros fuel _. exists h. simpl. auto.
  - apply andb_prop in Hpre as [Ha Hb]. unfold allocated in *.
    apply bool_decide_eq_true in Ha as [nd Hself].
    apply bool_decide_eq_true in Hb as [cd Hchild].
    unfold remove. rewrite Hself.
    destruct (_children nd) as [cs|] eqn:Hcs;
      [|exists 0; intros fuel _; exists h; simpl; auto].
    destruct (list_remove child cs) as [cs'|] eqn:Hrm;
      [|exists 0; intros fuel _; exists h; simpl; auto].
    pose proof (children_Some _ _ Hcs) as Hch.
    pose proof (wf_nodup h Hwf self nd Hself) as Hnd. rewrite Hch in Hnd.
    destruct (list_remove_Some _ _ _ Hrm) as (Hin & Hrest).
    destruct (Hrest Hnd) as (Hnd' & Hcs').
    assert (Hne : child ≠ self).
    { intros ->. destruct (wf_height h Hwf self) as [k Hk].
      apply (height_le_irrefl _ _ _ Hk). exists nd. rewrite Hch. auto. }
    assert (Hcs'' : ∀ x, x ∈ cs' ↔ x ∈ children nd ∧ x ≠ child)
      by (rewrite Hch; exact Hcs').
    assert (Hin' : child ∈ children nd) by (rewrite Hch; exact Hin).
    destruct (detach_ok h self child nd cd cs' Hwf Hself Hchild Hne Hcs''
                Hnd' Hin') as (fuel0 & Hok).
    exists fuel0. intros fuel Hfuel.
    destruct (Hok fuel Hfuel) as (g' & -> & Hw). exists g'. simpl.
    split; [reflexivity|]. split.
    + eapply wf_shape; [eapply written_shape, Hw|].
      apply wf_detached; auto.
    + intros Hrk Hpr. unfold pre_root in Hpr.
      apply andb_prop in Hpr as [_ Hless].
      destruct (childless_spec _ _ Hless) as (cd' & Hcd' & Hnone).
      rewrite Hchild in Hcd'. injection Hcd' as <-.
      apply (root_ok_detached h self child nd cd cs' g'); auto.
  - unfold allocated in Hpre. apply bool_decide_eq_true in Hpre as [nd Hself].
    unfold clear. rewrite Hself.
    destruct (_children nd) as [cs|] eqn:Hcs;
      [|exists 0; intros fuel _; exists h; simpl; auto].
    pose proof (children_Some _ _ Hcs) as Hch.
    destruct (wf_height h Hwf self) as [k Hk].
    destruct k as [|K]; [inversion Hk|].
    assert (Hkids : ∀ c, child_of h self c → height_le h c K)
      by (inversion Hk; assumption).
    exists K. intros fuel Hfuel.
    destruct (detach_loop h K fuel (wf_closed _ Hwf) Hfuel cs h)
      as (g' & -> & Hk' & Hpar & Hexact).
    { intros c Hc. assert (Hco : child_of h self c)
        by (exists nd; rewrite Hch; auto).
      split; [apply (wf_closed _ Hwf self c Hco)|apply Hkids, Hco]. }
    { apply same_kids_refl. }
    simpl. unfold update.
    destruct (same_kids_lookup _ _ _ _ Hk' Hself) as (x & Hx & Hxk).
    rewrite Hx. simpl. eexists. split; [reflexivity|]. split.
    + apply (wf_cleared h self nd); auto. intros m. rewrite lookup_insert.
      rewrite Hch. destruct (decide (self = m)) as [<-|Hne].
      * rewrite Hself. simpl. pose proof (Hpar self) as Hp.
        rewrite Hx, Hself in Hp. simpl in Hp. injection Hp as ->.
        rewrite (decide_True (P := self = self)) by reflexivity. reflexivity.
      * pose proof (Hpar m) as Hp. pose proof (Hk' m) as Hc.
        destruct (h !! m), (g' !! m); simpl in *; try discriminate;
          [|reflexivity].
        injection Hp as ->. injection Hc as <-.
        rewrite (decide_False (P := m = self)) by congruence. reflexivity.
    + intros Hrk Hpr. unfold pre_root in Hpr.
      apply andb_prop in Hpr as [_ Hpr]. rewrite Hself in Hpr.
      assert (Hless : ∀ c, c ∈ cs → ∀ y, ¬ child_of h c y).
      { intros c Hc y (z & Hz & Hy).
        rewrite Hch in Hpr. rewrite forallb_forall in Hpr.
        apply list_elem_of_In in Hc.
        destruct (childless_spec _ _ (Hpr c Hc)) as (cd & Hcd & Hnone).
        rewrite Hz in Hcd. injection Hcd as <-. rewrite Hnone in Hy.
        apply elem_of_nil in Hy as []. }
      apply (root_ok_cleared h self nd g' x); auto.
      * rewrite Hch. exact Hless.
      * rewrite Hch. apply Hexact, Hless.
Qed.


(** ** Runs of allowed calls *)

Lemma heap_after_finished r h : heap_after r = Some h → finished r.
Proof. destruct r; simpl; auto; discriminate. Qed.

Lemma exec_step_any_fuel h o fuel h1 :
  wf h → pre_attach h o = true → heap_after (exec fuel h o) = Some h1 →
  wf h1 ∧ (root_ok h → pre_root h o = true → root_ok h1).
Proof.
  intros Hwf Hpre Hrun. destruct (exec_step h o Hwf Hpre) as (fuel0 & Hok).
  destruct (Hok (fuel `max` fuel0) ltac:(lia)) as (h' & Hh' & Hres).
  rewrite (exec_mono fuel) in Hh'; [|eapply heap_after_finished, Hrun|lia].
  rewrite Hrun in Hh'. injection Hh' as <-. exact Hres.
Qed.

Lemma wf_empty : wf ∅.
Proof.
  assert (Hno : ∀ p c, ¬ child_of ∅ p c).
  { intros p c (x & Hx & _). rewrite lookup_empty in Hx. discriminate. }
  constructor.
  - intros p c Hc. destruct (Hno _ _ Hc).
  - intros c cd p Hx. rewrite lookup_empty in Hx. discriminate.
  - intros p x Hx. rewrite lookup_empty in Hx. discriminate.
  - intros n. exists 1. constructor. intros c Hc. destruct (Hno _ _ Hc).
Qed.

Lemma root_ok_empty : root_ok ∅.
Proof. intros n x Hx. rewrite lookup_empty in Hx. discriminate. Qed.

Lemma pre_root_attach h o : pre_root h o = true → pre_attach h o = true.
Proof. unfold pre_root. intros H. apply andb_prop in H as [H _]. exact H. Qed.

Lemma run_pre_attach fuel ops : ∀ h h',
  wf h → run pre_attach fuel ops h = Some h' → wf h'.
Proof.
  induction ops as [|o ops IH]; intros h h' Hwf Hrun; simpl in Hrun.
  - injection Hrun as <-. exact Hwf.
  - destruct (pre_attach h o) eqn:Hpre; [|discriminate].
    destruct (heap_after (exec fuel h o)) as [h1|] eqn:Hex; [|discriminate].
    apply (IH h1); [|exact Hrun].
    apply (exec_step_any_fuel h o fuel h1 Hwf Hpre Hex).
Qed.

Lemma run_pre_root fuel ops : ∀ h h',
  wf h → root_ok h → run pre_root fuel ops h = Some h' → wf h' ∧ root_ok h'.
Proof.
  induction ops as [|o ops IH]; intros h h' Hwf Hrk Hrun; simpl in Hrun.
  - injection Hrun as <-. auto.
  - destruct (pre_root h o) eqn:Hpre; [|discriminate].
    destruct (heap_after (exec fuel h o)) as [h1|] eqn:Hex; [|discriminate].
    destruct (exec_step_any_fuel h o fuel h1 Hwf (pre_root_attach _ _ Hpre) Hex)
      as [Hwf1 Hrk1].
    apply (IH h1); auto.
Qed.

Lemma wf_parent_consistent h : wf h → parent_consistent h.
Proof.
  intros Hwf p c. unfold parent. split.
  - intros Hc. destruct (wf_down h Hwf p c Hc) as (cd & -> & Hp).
    simpl. rewrite Hp. reflexivity.
  - intros H. destruct (h !! c) as [cd|] eqn:Hcd; [|discriminate].
    simpl in H. injection H as Hp. eapply (wf_up h Hwf); eassumption.
Qed.

Lemma root_along_edge h p c :
  wf h → root_ok h → child_of h p c → root h c = root h p.
Proof.
  intros Hwf Hrk Hc. destruct (wf_down h Hwf p c Hc) as (cd & Hcd & Hp).
  pose proof (Hrk c cd Hcd) as H. rewrite Hp in H.
  destruct H as (r & Hr & Hr'). rewrite Hr.
  rewrite (root_lookup _ _ _ Hcd), Hr'. reflexivity.
Qed.

Lemma root_along_path h a n :
  wf h → root_ok h → reaches h a n → root h n = root h a.
Proof.
  intros Hwf Hrk. unfold reaches. revert n.
  apply (rtc_ind_r (fun n => root h n = root h a)); [reflexivity|].
  intros y z _ Hyz IH. rewrite <- IH. apply root_along_edge; assumption.
Qed.

Lemma wf_root_consistent h : wf h → root_ok h → root_consistent h.
Proof.
  intros Hwf Hrk r n (x & Hx & Hp) Hr.
  rewrite (root_along_path h r n Hwf Hrk Hr), (root_lookup _ _ _ Hx).
  pose proof (Hrk r x Hx) as H. rewrite Hp in H. rewrite H. reflexivity.
Qed.

Lemma add_attached h self child fuel h' :
  wf h → attachable h self child = true → add fuel h self child = Ret h' →
  wf h' ∧ (root_ok h → root_ok h') ∧ child_of h' self child
  ∧ (is_root h self → is_root h' self).
Proof.
  intros Hwf Hatt Hadd.
  pose proof (attachable_spec _ _ _ Hwf Hatt)
    as (nd & cd & Hself & Hchild & Hpar & Hfar).
  destruct (_children nd) as [cs|] eqn:Hcs;
    [|unfold add in Hadd; rewrite Hself, Hcs in Hadd; discriminate].
  destruct (add_step h self child nd cd cs Hwf Hself Hcs Hchild Hpar Hfar)
    as (fuel0 & Hok).
  destruct (Hok (fuel `max` fuel0) ltac:(lia)) as (g' & Hg' & H1 & H2 & H3 & H4 & _).
  rewrite (add_mono fuel) in Hg'; [|rewrite Hadd; exact I|lia].
  rewrite Hadd in Hg'. injection Hg' as <-. auto.
Qed.

(** ** Leaves *)

Lemma for_each_inv (Inv : heap → Prop) body :
  (∀ x g, Inv g → result_inv Inv (body x g)) →
  ∀ xs g, Inv g → result_inv Inv (for_each xs body g).
Proof.
  intros Hb. induction xs as [|x xs IH]; intros g Hg; simpl; [exact Hg|].
  pose proof (Hb x g Hg) as H. destruct (body x g); simpl in *; auto.
Qed.

Lemma bind_inv (Inv : heap → Prop) r k :
  result_inv Inv r → (∀ g, Inv g → result_inv Inv (k g)) →
  result_inv Inv (bind r k).
Proof. destruct r; simpl; auto. Qed.

Lemma is_leaf_insert h n m x y :
  h !! m = Some x → (_children x = None → _children y = None) →
  is_leaf h n → is_leaf (<[m := y]> h) n.
Proof.
  intros Hx Hy (nd & Hnd & Hc). unfold is_leaf. rewrite lookup_insert.
  destruct (decide (m = n)) as [->|?]; [|eauto].
  exists y. split; [reflexivity|]. apply Hy. congruence.
Qed.

Lemma is_leaf_set_children h n m x cs cs' :
  h !! m = Some x → _children x = Some cs →
  is_leaf h n → is_leaf (<[m := set_children x cs']> h) n.
Proof.
  intros Hx Hc. apply is_leaf_insert with (x := x); [exact Hx|]. congruence.
Qed.

Lemma update_leaf h n m f :
  (∀ x, _children (f x) = _children x) →
  is_leaf h n → result_inv (fun g => is_leaf g n) (update h m f).
Proof.
  intros Hf Hn. unfold update. destruct (h !! m) as [x|] eqn:Hx; simpl; [|exact I].
  apply is_leaf_insert with (x := x); [exact Hx| |exact Hn]. rewrite Hf. auto.
Qed.

Lemma _set_root_leaf n fuel : ∀ m rt g,
  is_leaf g n → result_inv (fun g => is_leaf g n) (_set_root fuel m rt g).
Proof.
  induction fuel as [|fuel IH]; intros m rt g Hn; simpl; [exact I|].
  destruct (g !! m) as [x|] eqn:Hx; [|exact I].
  apply for_each_inv; [intros; apply IH; assumption|].
  apply is_leaf_insert with (x := x); auto.
Qed.

Lemma attach_leaf n fuel self child g :
  is_leaf g n → result_inv (fun g => is_leaf g n) (attach fuel self child g).
Proof.
  intros Hn. unfold attach. apply bind_inv; [apply update_leaf; auto|].
  intros g1 H1. destruct (root g1 self); [|exact I]. apply _set_root_leaf, H1.
Qed.

Lemma detach_leaf n fuel child g :
  is_leaf g n → result_inv (fun g => is_leaf g n) (detach fuel child g).
Proof.
  intros Hn. unfold detach. apply bind_inv; [apply update_leaf; auto|].
  intros g1 H1. apply _set_root_leaf, H1.
Qed.

Lemma add_leaf n fuel self child g :
  is_leaf g n → result_inv (fun g => is_leaf g n) (add fuel g self child).
Proof.
  intros Hn. unfold add. destruct (g !! self) as [x|] eqn:Hx; [|exact I].
  destruct (_children x) as [cs|] eqn:Hcs; [|exact Hn].
  apply attach_leaf. eapply is_leaf_set_children; eassumption.
Qed.

Lemma exec_leaf n fuel h o :
  is_leaf h n → result_inv (fun g => is_leaf g n) (exec fuel h o).
Proof.
  intros Hn.
  assert (Hfresh : h !! fresh (dom h) = None).
  { apply not_elem_of_dom. apply is_fresh. }
  destruct o as [kids|self child|self index child|self child|self]; simpl.
  - assert (Hnew : ∀ y, is_leaf (<[fresh (dom h) := y]> h) n).
    { intros y. destruct Hn as (nd & Hnd & Hc). exists nd.
      split; [|exact Hc]. rewrite lookup_insert_ne; [exact Hnd|].
      intros <-. congruence. }
    destruct kids as [cs|]; simpl; [|apply Hnew].
    apply for_each_inv; [|apply Hnew]. intros c g Hg. apply add_leaf, Hg.
  - apply add_leaf, Hn.
  - unfold insert. destruct (h !! self) as [x|] eqn:Hx; [|exact I].
    destruct (_children x) as [cs|] eqn:Hcs; [|exact Hn].
    destruct (list_insert_at index child cs); [|exact Hn].
    apply attach_leaf. eapply is_leaf_set_children; eassumption.
  - unfold remove. destruct (h !! self) as [x|] eqn:Hx; [|exact I].
    destruct (_children x) as [cs|] eqn:Hcs; [|exact Hn].
    destruct (list_remove child cs); [|exact Hn].
    apply detach_leaf. eapply is_leaf_set_children; eassumption.
  - unfold clear. destruct (h !! self) as [x|] eqn:Hx; [|exact I].
    destruct (_children x) as [cs|] eqn:Hcs; [|exact Hn].
    assert (Hne : self ≠ n).
    { intros ->. destruct Hn as (nd & Hnd & Hc). congruence. }
    apply bind_inv.
    + apply for_each_inv; [|exact Hn]. intros c g Hg. apply detach_leaf, Hg.
    + intros g (nd & Hnd & Hc). unfold update.
      destruct (g !! self) as [y|]; simpl; [|exact I].
      exists nd. rewrite lookup_insert_ne by exact Hne. auto.
Qed.

(** ** The claims about the tree *)

(** C1 (as amended).  Along every run of calls in which [add] and
    [insert] are given the root of another tree, and [remove] and
    [clear] detach only children that have no children of their own:
    every node below a root reports that root; all nodes of a subtree
    report the same root; after [self.add(child)] the child and all its
    descendants report the root of [self], which is [self] when [self]
    is a root; and every further allowed call returns (given enough fuel
    for the recursion) and keeps the property. *)
Theorem root_pointer_invariant fuel ops h :
  run pre_root fuel ops ∅ = Some h →
  root_consistent h
  ∧ (∀ a n, reaches h a n → root h n = root h a)
  ∧ (∀ self child fuel' h',
       attachable h self child = true →
       add fuel' h self child = Ret h' →
       child_of h' self child
       ∧ (∀ n, reaches h' child n → root h' n = root h' self)
       ∧ (is_root h self → ∀ n, reaches h' child n → root h' n = Some self))
  ∧ (∀ o, pre_root h o = true →
       ∃ fuel0, ∀ fuel', fuel0 ≤ fuel' →
       ∃ h', heap_after (exec fuel' h o) = Some h' ∧ root_consistent h').
Proof.
  intros Hrun.
  destruct (run_pre_root fuel ops ∅ h wf_empty root_ok_empty Hrun) as [Hwf Hrk].
  split; [apply wf_root_consistent; assumption|].
  split; [intros a n; apply root_along_path; assumption|].
  split.
  - intros self child fuel' h' Hatt Hadd.
    destruct (add_attached h self child fuel' h' Hwf Hatt Hadd)
      as (Hwf' & Hrk' & Hc & Hroot).
    split; [exact Hc|].
    assert (Hsub : ∀ n, reaches h' child n → root h' n = root h' self).
    { intros n Hn.
      rewrite (root_along_path h' child n Hwf' (Hrk' Hrk) Hn).
      apply root_along_edge; auto. }
    split; [exact Hsub|]. intros Hself n Hn.
    apply (wf_root_consistent h' Hwf' (Hrk' Hrk) self n (Hroot Hself)).
    eapply rtc_l; [exact Hc|exact Hn].
  - intros o Hpre.
    destruct (exec_step h o Hwf (pre_root_attach _ _ Hpre)) as (fuel0 & Hok).
    exists fuel0. intros fuel' Hfuel.
    destruct (Hok fuel' Hfuel) as (h' & Hh' & Hwf' & Hrk').
    exists h'. split; [exact Hh'|]. apply wf_root_consistent; auto.
Qed.

Lemma root_pointer_invariant_witness :
  run pre_root 3 chain_ops ∅ = Some chain ∧ root_consistent chain.
Proof.
  split; [vm_compute; reflexivity|].
  apply (root_pointer_invariant 3 chain_ops chain). vm_compute. reflexivity.
Defined.

(** C1 as stated fails: a node added to a second parent is still below
    its first parent, a root, but reports the second one. *)
Lemma root_pointer_shared_child :
  ∃ h, run any_call 3 shared_child_ops ∅ = Some h
       ∧ is_root h 0 ∧ reaches h 0 2 ∧ root h 2 = Some 1
       ∧ ¬ root_consistent h.
Proof.
  eexists. split; [vm_compute; reflexivity|].
  assert (Hroot : is_root
            (list_to_map [(0, mk_node None None (Some [2]));
                          (1, mk_node None None (Some [2]));
                          (2, mk_node (Some 1) (Some 1) None)]) 0).
  { eexists. split; [vm_compute; reflexivity|reflexivity]. }
  assert (Hreach : reaches
            (list_to_map [(0, mk_node None None (Some [2]));
                          (1, mk_node None None (Some [2]));
                          (2, mk_node (Some 1) (Some 1) None)]) 0 2).
  { apply rtc_once. eexists. split; [vm_compute; reflexivity|]. left. }
  split; [exact Hroot|]. split; [exact Hreach|]. split; [reflexivity|].
  intros H. specialize (H 0 2 Hroot Hreach). vm_compute in H. discriminate.
Qed.

(** What [remove] does to the descendants of the removed child: cutting
    the chain 0 - 1 - 2 below 0 leaves 2 a child of the root 1, and 2
    reports itself as its root. *)
Example remove_resets_descendants :
  ∃ h, run pre_attach 3 cut_chain_ops ∅ = Some h
       ∧ is_root h 1 ∧ child_of h 1 2 ∧ root h 2 = Some 2.
Proof.
  eexists. split; [vm_compute; reflexivity|]. split; [|split].
  - eexists. split; [vm_compute; reflexivity|reflexivity].
  - eexists. split; [vm_compute; reflexivity|]. left.
  - reflexivity.
Qed.

(** The assertions of [test_create_node]. *)
Example create_node_run :
  ∃ h, run pre_root 3 create_node_ops ∅ = Some h
       ∧ (children <$> h !! 3) = Some [0; 1; 2]
       ∧ parent h 4 = Some None ∧ root h 4 = Some 4
       ∧ parent h 3 = Some (Some 4) ∧ root h 3 = Some 4
       ∧ parent h 0 = Some (Some 3) ∧ root h 0 = Some 4
       ∧ parent h 2 = Some (Some 3) ∧ root h 2 = Some 4.
Proof. eexists. split; [vm_compute; reflexivity|]. repeat split. Qed.

(** C9 (as amended).  Along every run of calls in which [add] and
    [insert] are given the root of another tree: a node is in the
    children sequence of [p] exactly when its parent pointer is [p]; no
    children sequence lists a node twice and no node is in two
    sequences; and every further allowed call returns or raises (given
    enough fuel) and keeps the property. *)
Theorem parent_pointer_invariant fuel ops h :
  run pre_attach fuel ops ∅ = Some h →
  parent_consistent h
  ∧ (∀ p nd, h !! p = Some nd → NoDup (children nd))
  ∧ (∀ p q c, child_of h p c → child_of h q c → p = q)
  ∧ (∀ o, pre_attach h o = true →
       ∃ fuel0, ∀ fuel', fuel0 ≤ fuel' →
       ∃ h', heap_after (exec fuel' h o) = Some h' ∧ parent_consistent h').
Proof.
  intros Hrun.
  pose proof (run_pre_attach fuel ops ∅ h wf_empty Hrun) as Hwf.
  split; [apply wf_parent_consistent, Hwf|].
  split; [apply (wf_nodup h Hwf)|]. split.
  - intros p q c Hp Hq.
    destruct (wf_down h Hwf p c Hp) as (x & Hx & Hxp).
    destruct (wf_down h Hwf q c Hq) as (y & Hy & Hyq). congruence.
  - intros o Hpre. destruct (exec_step h o Hwf Hpre) as (fuel0 & Hok).
    exists fuel0. intros fuel' Hfuel.
    destruct (Hok fuel' Hfuel) as (h' & Hh' & Hwf' & _).
    exists h'. split; [exact Hh'|]. apply wf_parent_consistent, Hwf'.
Qed.

Lemma parent_pointer_invariant_witness :
  run pre_attach 3 cut_chain_ops ∅
  = Some (list_to_map [(0, mk_node None None (Some []));
                       (1, mk_node None None (Some [2]));
                       (2, mk_node (Some 1) None None)])
  ∧ parent_consistent
      (list_to_map [(0, mk_node None None (Some []));
                    (1, mk_node None None (Some [2]));
                    (2, mk_node (Some 1) None None)]).
Proof.
  split; [vm_compute; reflexivity|].
  apply (parent_pointer_invariant 3 cut_chain_ops). vm_compute. reflexivity.
Defined.

(** C9 as stated fails: [add] does not take the node out of the children
    of its old parent. *)
Lemma parent_pointer_shared_child :
  ∃ h, run any_call 3 shared_child_ops ∅ = Some h
       ∧ child_of h 0 2 ∧ child_of h 1 2 ∧ parent h 2 = Some (Some 1)
       ∧ ¬ parent_consistent h.
Proof.
  eexists. split; [vm_compute; reflexivity|].
  assert (Hc : child_of
            (list_to_map [(0, mk_node None None (Some [2]));
                          (1, mk_node None None (Some [2]));
                          (2, mk_node (Some 1) (Some 1) None)]) 0 2).
  { eexists. split; [vm_compute; reflexivity|]. left. }
  split; [exact Hc|]. split.
  { eexists. split; [vm_compute; reflexivity|]. left. }
  split; [reflexivity|].
  intros H. apply H in Hc. vm_compute in Hc. discriminate.
Qed.

(** C3 (as amended).  A node constructed without a children sequence is
    a leaf and stays one whatever is called; on a leaf [add], [insert]
    and [remove] raise [ValueError] and change nothing, while [clear]
    returns normally, also without changing anything. *)
Theorem leaf_calls :
  (∀ fuel h, ∃ h', snd (Node_init fuel h None) = Ret h'
                   ∧ is_leaf h' (fst (Node_init fuel h None)))
  ∧ ∀ fuel h self, is_leaf h self →
      (∀ child, add fuel h self child
                = Raise h (ValueError "Cannot add children"))
      ∧ (∀ index child, insert fuel h self index child
                        = Raise h (ValueError "Cannot insert child"))
      ∧ (∀ child, remove fuel h self child
                  = Raise h (ValueError "Cannot remove children"))
      ∧ clear fuel h self = Ret h
      ∧ (∀ o h', heap_after (exec fuel h o) = Some h' → is_leaf h' self).
Proof.
  split.
  - intros fuel h. eexists. split; [reflexivity|]. simpl.
    exists fresh_node. split; [apply lookup_insert_eq|reflexivity].
  - intros fuel h self Hleaf. pose proof Hleaf as (nd & Hnd & Hc).
    unfold add, insert, remove, clear. rewrite Hnd, Hc.
    do 4 (split; [intros; reflexivity|]).
    intros o h' Hex. pose proof (exec_leaf self fuel h o Hleaf) as H.
    destruct (exec fuel h o); simpl in *; try discriminate;
      injection Hex as <-; exact H.
Qed.

Lemma leaf_calls_witness :
  is_leaf one_leaf 0 ∧ clear 0 one_leaf 0 = Ret one_leaf
  ∧ add 0 one_leaf 0 0 = Raise one_leaf (ValueError "Cannot add children").
Proof.
  assert (H : is_leaf one_leaf 0) by (eexists; split; reflexivity).
  split; [exact H|].
  destruct (proj2 leaf_calls 0 one_leaf 0 H) as (Ha & _ & _ & Hc & _).
  split; [exact Hc|apply Ha].
Defined.

(** C3 as stated fails for [clear]: on a leaf it returns. *)
Lemma clear_on_leaf_returns :
  ∃ h, snd (Node_init 0 ∅ None) = Ret h
       ∧ is_leaf h 0 ∧ clear 0 h 0 = Ret h.
Proof.
  eexists. split; [reflexivity|]. split; [|reflexivity].
  eexists. split; reflexivity.
Qed.

End NodeFacts.

Module DeclarationFacts.
Import Declaration.

(** ** Names *)

Example strip_spaces : strip " x " = "x" ∧ strip "x" = "x".
Proof. split; reflexivity. Qed.

Example replace_hyphens_font : replace_hyphens "font-family" = "font_family".
Proof. reflexivity. Qed.

Example format_margin :
  map (format margin) DIRECTIONS
  = ["margin_top"; "margin_right"; "margin_bottom"; "margin_left"].
Proof. reflexivity. Qed.

Example int_equals_float :
  py_eq (VInt 2) (VFloat (FFin 1 1)) = true
  ∧ py_eq (VFloat FNan) (VFloat FNan) = false.
Proof. split; reflexivity. Qed.

Lemma replace_hyphens_free name :
  hyphen_free name = true → replace_hyphens name = name.
Proof.
  induction name as [|ch rest IH]; simpl; [reflexivity|].
  intros H. apply andb_prop in H as [Hc Hr].
  apply negb_true_iff in Hc. rewrite Hc, (IH Hr). reflexivity.
Qed.

Lemma class_attr_Some c name x :
  class_attr c name = Some x →
  descriptor_name x = name ∧ x ∈ c ∧ name ∈ _ALL_PROPERTIES c.
Proof.
  unfold class_attr. intros H. apply find_some in H as [Hin Heq].
  apply String.eqb_eq in Heq. apply list_elem_of_In in Hin.
  split; [exact Heq|]. split; [exact Hin|].
  unfold _ALL_PROPERTIES. rewrite <- Heq. apply list_elem_of_fmap_2, Hin.
Qed.

Lemma class_attr_in c x :
  NoDup (_ALL_PROPERTIES c) → x ∈ c → class_attr c (descriptor_name x) = Some x.
Proof.
  unfold class_attr, _ALL_PROPERTIES.
  induction c as [|y c IH]; intros Hnd Hin; [apply elem_of_nil in Hin as []|].
  simpl in *. apply NoDup_cons in Hnd as [Hy Hnd].
  destruct (String.eqb (descriptor_name y) (descriptor_name x)) eqn:E.
  - apply String.eqb_eq in E. apply elem_of_cons in Hin as [->|Hin];
      [reflexivity|].
    exfalso. apply Hy. change (list_fmap _ _ descriptor_name c) with
      (descriptor_name <$> c).
    rewrite E. apply list_elem_of_fmap_2, Hin.
  - apply elem_of_cons in Hin as [->|Hin]; [|apply IH; assumption].
    rewrite String.eqb_refl in E. discriminate.
Qed.

Lemma class_ok_nodup c : class_ok c = true → NoDup (_ALL_PROPERTIES c).
Proof.
  unfold class_ok. intros H. apply andb_prop in H as [H _].
  apply bool_decide_eq_true in H. exact H.
Qed.

Lemma class_ok_hyphen_free c name :
  class_ok c = true → name ∈ _ALL_PROPERTIES c → hyphen_free name = true.
Proof.
  unfold class_ok. intros H Hin. apply andb_prop in H as [_ H].
  rewrite forallb_forall in H. apply H, list_elem_of_In, Hin.
Qed.

Lemma class_attr_replace c name x :
  class_ok c = true → class_attr c name = Some x →
  replace_hyphens name = name
  ∧ bool_decide (name ∈ _ALL_PROPERTIES c) = true.
Proof.
  intros Hok Hx. destruct (class_attr_Some _ _ _ Hx) as (_ & _ & Hin).
  split; [|apply bool_decide_eq_true, Hin].
  apply replace_hyphens_free. eapply class_ok_hyphen_free; eassumption.
Qed.

(** ** Reading and writing one stored property *)

Lemma py_eq_None_r x : py_eq x VNone = true → x = VNone.
Proof. destruct x; simpl; intros H; try discriminate; reflexivity. Qed.

Lemma vp_get_stored p s v :
  attrs s !! storage_key (vp_name p) = Some v → v ≠ VNone → vp_get p s = v.
Proof.
  intros Hv Hne. unfold vp_get, getattr_or_None. rewrite Hv. simpl.
  destruct v; try reflexivity. contradiction.
Qed.

Lemma vp_get_unset p s :
  attrs s !! storage_key (vp_name p) = None → vp_get p s = initial p.
Proof.
  intros Hv. unfold vp_get, getattr_or_None. rewrite Hv. reflexivity.
Qed.

Lemma vp_get_attrs p s s' : attrs s' = attrs s → vp_get p s' = vp_get p s.
Proof. intros H. unfold vp_get, getattr_or_None. rewrite H. reflexivity. Qed.

Lemma vp_set_accepted B p s v n :
  is_descriptor v (vp_name p) = false → v ≠ VNone → validate B p v = Ok n →
  vp_set B p s v
  = if py_ne n (getattr_or_None s (storage_key (vp_name p)))
    then Ret (apply_hook (setattr s (storage_key (vp_name p)) n) (vp_name p) n) tt
    else Ret s tt.
Proof.
  intros Hd Hn Hv. unfold vp_set. rewrite Hd, Hv.
  destruct v; try reflexivity. contradiction.
Qed.

Lemma vp_set_raise B p s v s' e : vp_set B p s v = Raise s' e → s' = s.
Proof.
  unfold vp_set. destruct (is_descriptor v (vp_name p)); [discriminate|].
  assert (H : ∀ r : result unit,
            r = match validate B p v with
                | Ok value =>
                    if py_ne value (getattr_or_None s (storage_key (vp_name p)))
                    then Ret (apply_hook
                                (setattr s (storage_key (vp_name p)) value)
                                (vp_name p) value) tt
                    else Ret s tt
                | Err e => Raise s e
                end →
            r = Raise s' e → s' = s).
  { intros r -> Hr. destruct (validate B p v) as [n|e'].
    - destruct (py_ne n _); discriminate.
    - injection Hr as <- _. reflexivity. }
  destruct v; try (apply H; reflexivity).
  intros [= <- _]. reflexivity.
Qed.


(** ** Choices *)

Lemma attempt_first_success B ch b bs v rest :
  (rest = first_success B ch bs v) →
  attempt (branch_enabled ch b) (branch_run B b v) rest
  = first_success B ch (b :: bs) v.
Proof.
  intros ->. unfold attempt. simpl. destruct (branch_enabled ch b); reflexivity.
Qed.

Lemma first_success_all_fail B ch v bs :
  (∀ b, b ∈ bs → branch_enabled ch b = true → branch_run B b v = Fails) →
  find (py_eq v) (constants ch) = None →
  first_success B ch bs v = Err (ValueError (NotAValidValue v)).
Proof.
  intros Hall Hnone. induction bs as [|b bs IH]; simpl; [rewrite Hnone; reflexivity|].
  assert (IH' := IH (fun b' Hb' => Hall b' (list_elem_of_further _ _ _ Hb'))).
  destruct (branch_enabled ch b) eqn:E; [|exact IH'].
  rewrite (Hall b (list_elem_of_here _ _) E). exact IH'.
Qed.

Lemma first_success_found B ch v r : ∀ before b after,
  (∀ b', b' ∈ before → branch_enabled ch b' = true → branch_run B b' v = Fails) →
  branch_enabled ch b = true → branch_run B b v = Coerced r →
  first_success B ch (before ++ b :: after) v = Ok r.
Proof.
  induction before as [|b0 before IH]; intros b after Hbefore Hb Hr; simpl.
  - rewrite Hb, Hr. reflexivity.
  - assert (IH' := IH b after
                      (fun b' Hb' => Hbefore b' (list_elem_of_further _ _ _ Hb'))
                      Hb Hr).
    destruct (branch_enabled ch b0) eqn:E; [|exact IH'].
    rewrite (Hbefore b0 (list_elem_of_here _ _) E). exact IH'.
Qed.

Lemma set_of_subset cs c : c ∈ set_of cs → c ∈ cs.
Proof.
  induction cs as [|c0 cs IH]; simpl; [auto|].
  rewrite !elem_of_cons. intros [->|Hc]; [auto|].
  apply list_elem_of_filter in Hc as [_ Hc]. auto.
Qed.

Lemma find_none_of v cs :
  (∀ c, c ∈ cs → py_eq v c = false) → find (py_eq v) cs = None.
Proof.
  induction cs as [|c cs IH]; intros H; simpl; [reflexivity|].
  rewrite (H c) by left. apply IH. intros c' Hc'. apply H. right. exact Hc'.
Qed.

Lemma first_success_escapes B ch v e : ∀ before b after,
  (∀ b', b' ∈ before → branch_enabled ch b' = true → branch_run B b' v = Fails) →
  branch_enabled ch b = true → branch_run B b v = Escapes e →
  first_success B ch (before ++ b :: after) v = Err e.
Proof.
  induction before as [|b0 before IH]; intros b after Hbefore Hb Hr; simpl.
  - rewrite Hb, Hr. reflexivity.
  - assert (IH' := IH b after
                      (fun b' Hb' => Hbefore b' (list_elem_of_further _ _ _ Hb'))
                      Hb Hr).
    destruct (branch_enabled ch b0) eqn:E; [|exact IH'].
    rewrite (Hbefore b0 (list_elem_of_here _ _) E). exact IH'.
Qed.

Lemma string_not_taken ch v rest :
  (allow_string ch = false ∨ ∀ s, v ≠ VStr s) →
  attempt (allow_string ch) (try_strip v) rest = rest.
Proof.
  intros [->|H]; [reflexivity|]. unfold attempt.
  destruct (allow_string ch); [|reflexivity].
  destruct v; try reflexivity. destruct (H s eq_refl).
Qed.

Lemma builtin_not_taken {A} flag (c : coerce A) (f : A → value) rest :
  (flag = false ∨ c = Fails) → attempt flag (coerce_map f c) rest = rest.
Proof. intros [->| ->]; [reflexivity|]. destruct flag; reflexivity. Qed.

Lemma colour_not_taken flag (c : coerce value) rest :
  (flag = false ∨ c = Fails) → attempt flag c rest = rest.
Proof. intros [->| ->]; [reflexivity|]. destruct flag; reflexivity. Qed.



(** A list property: a string is one item, the items are validated one
    by one, an empty sequence and a value that is no sequence are
    refused. *)
Example list_property_validate :
  validate plain_builtins (text_list_prop "font_family") (VStr " serif ")
  = Ok (VImm [VStr "serif"])
  ∧ validate plain_builtins (text_list_prop "font_family")
             (VList [VStr "a"; VStr " b"])
    = Ok (VImm [VStr "a"; VStr "b"])
  ∧ validate plain_builtins (text_list_prop "font_family")
             (VList [VStr "a"; VInt 1])
    = Err (ValueError (InvalidItem (VInt 1) "font_family"))
  ∧ validate plain_builtins (text_list_prop "font_family") (VTuple [])
    = Err (ValueError (EmptyList "font_family"))
  ∧ validate plain_builtins (text_list_prop "font_family") (VInt 1)
    = Err (TypeError "font_family").
Proof. repeat split. Qed.

(** ** Deleting *)

(** C2 (as amended).  Deleting a property removes the stored value and
    calls [apply(name, initial)] when a value was stored; when none was
    stored it changes nothing and does not call [apply].  Afterwards the
    property is unset and reads as its initial value.  [del style[name]]
    on the name of the property does the same. *)
Theorem delete_resets_to_initial p s :
  ∃ s', vp_delete p s = Ret s' tt
        ∧ attrs s' = delete (storage_key (vp_name p)) (attrs s)
        ∧ applied s'
          = applied s
            ++ (if vp_is_set_on p s then [(vp_name p, initial p)] else [])
        ∧ vp_is_set_on p s' = false
        ∧ vp_get p s' = initial p
        ∧ ∀ fuel c name,
            bool_decide (replace_hyphens name ∈ _ALL_PROPERTIES c) = true →
            class_attr c (replace_hyphens name) = Some (Validated p) →
            delitem (S fuel) c s name = Ret s' tt.
Proof.
  unfold vp_delete, vp_is_set_on.
  destruct (attrs s !! storage_key (vp_name p)) as [v|] eqn:Hv.
  - eexists. split; [reflexivity|]. simpl. split; [reflexivity|].
    split; [reflexivity|]. rewrite lookup_delete_eq. split; [reflexivity|].
    split.
    + apply vp_get_unset. simpl. apply lookup_delete_eq.
    + intros fuel c name Hin Hattr. simpl. rewrite Hin, Hattr.
      unfold vp_delete. rewrite Hv. reflexivity.
  - exists s. split; [reflexivity|].
    split; [symmetry; apply delete_id; exact Hv|].
    split; [symmetry; apply app_nil_r|]. rewrite Hv. split; [reflexivity|].
    split; [apply vp_get_unset, Hv|].
    intros fuel c name Hin Hattr. simpl. rewrite Hin, Hattr.
    unfold vp_delete. rewrite Hv. reflexivity.
Qed.

(** C2 as stated fails: deleting a property that holds no value does not
    call [apply]. *)
Lemma delete_of_unset_is_silent :
  vp_delete (text_prop "font_family" (VStr "system")) empty_style
  = Ret empty_style tt
  ∧ applied empty_style = [].
Proof. split; reflexivity. Qed.

(** ** Writing twice *)

(** C5 (as amended).  For two values that a property normalises to the
    same value [n], with [n == n] (every value but a NaN): the second
    write stores nothing and does not call [apply]; over the two writes
    [apply] is called once, with [n], when the property was unset or
    held a value different from [n], and not at all when it already held
    a value equal to [n]. *)
Theorem second_write_is_a_no_op B p s v1 v2 n :
  is_descriptor v1 (vp_name p) = false → v1 ≠ VNone →
  is_descriptor v2 (vp_name p) = false → v2 ≠ VNone →
  validate B p v1 = Ok n → validate B p v2 = Ok n →
  py_eq n n = true →
  ∃ s1, vp_set B p s v1 = Ret s1 tt
        ∧ vp_set B p s1 v2 = Ret s1 tt
        ∧ applied s1
          = applied s
            ++ (if py_ne n (getattr_or_None s (storage_key (vp_name p)))
                then [(vp_name p, n)] else []).
Proof.
  intros Hd1 Hn1 Hd2 Hn2 Hv1 Hv2 Hrefl.
  rewrite (vp_set_accepted B p s v1 n Hd1 Hn1 Hv1).
  destruct (py_ne n (getattr_or_None s (storage_key (vp_name p)))) eqn:Hne.
  - eexists. split; [reflexivity|].
    rewrite (vp_set_accepted B p _ v2 n Hd2 Hn2 Hv2).
    unfold getattr_or_None at 1. simpl. rewrite lookup_insert_eq. simpl.
    unfold py_ne. rewrite Hrefl. simpl. split; reflexivity.
  - exists s. split; [reflexivity|].
    rewrite (vp_set_accepted B p s v2 n Hd2 Hn2 Hv2), Hne.
    split; [reflexivity|]. symmetry. apply app_nil_r.
Qed.

Lemma second_write_is_a_no_op_witness :
  ∃ s1, vp_set plain_builtins (text_prop "font_family" VNone) empty_style
               (VStr " serif") = Ret s1 tt
        ∧ vp_set plain_builtins (text_prop "font_family" VNone) s1
                 (VStr "serif ") = Ret s1 tt
        ∧ applied s1 = [("font_family", VStr "serif")].
Proof.
  apply (second_write_is_a_no_op plain_builtins
           (text_prop "font_family" VNone) empty_style
           (VStr " serif") (VStr "serif ") (VStr "serif"));
    first [reflexivity | discriminate].
Defined.

(** A NaN differs from itself, so writing it again stores and applies it
    again. *)
Example nan_is_applied_on_every_write :
  ∃ s1 s2, vp_set plain_builtins (number_prop "opacity") empty_style
                  (VFloat FNan) = Ret s1 tt
           ∧ vp_set plain_builtins (number_prop "opacity") s1 (VFloat FNan)
             = Ret s2 tt
           ∧ applied s2 = [("opacity", VFloat FNan); ("opacity", VFloat FNan)].
Proof. eexists. eexists. split; [reflexivity|]. split; reflexivity. Qed.

(** C5 as stated fails: on a style whose property already holds the
    value, the two writes call [apply] not once but never. *)
Lemma writes_of_the_stored_value_never_apply :
  ∃ s, vp_set plain_builtins (text_prop "font_family" VNone) empty_style
              (VStr "serif") = Ret s tt
       ∧ vp_set plain_builtins (text_prop "font_family" VNone) s
                (VStr " serif") = Ret s tt
       ∧ vp_set plain_builtins (text_prop "font_family" VNone) s
                (VStr "serif ") = Ret s tt
       ∧ applied s = [("font_family", VStr "serif")].
Proof. eexists. split; [reflexivity|]. repeat split; reflexivity. Qed.


(** ** Lookup by name *)

Lemma getitem_validated fuel c s name p :
  class_ok c = true → class_attr c name = Some (Validated p) →
  getitem (S fuel) c s name = Ret s (vp_get p s).
Proof.
  intros Hok Hattr. destruct (class_attr_replace _ _ _ Hok Hattr) as [Hr Hin].
  simpl. rewrite Hr, Hin, Hattr. reflexivity.
Qed.

Lemma setitem_validated fuel B c s name p v :
  class_ok c = true → class_attr c name = Some (Validated p) →
  setitem (S fuel) B c s name v = vp_set B p s v.
Proof.
  intros Hok Hattr. destruct (class_attr_replace _ _ _ Hok Hattr) as [Hr Hin].
  simpl. rewrite Hr, Hin, Hattr. reflexivity.
Qed.

Lemma hyphen_not_declared c name :
  class_ok c = true → hyphen_free name = false →
  bool_decide (name ∈ _ALL_PROPERTIES c) = false.
Proof.
  intros Hok Hh. apply bool_decide_eq_false. intros Hin.
  rewrite (class_ok_hyphen_free _ _ Hok Hin) in Hh. discriminate.
Qed.

(** C10.  In a class whose property names are identifiers, for a
    hyphenated name whose underscore form is a property holding the
    value [v]: [style[name]] returns [v], [name in style] is [False]
    (the name as given is not among the property names), and the
    underscore form is contained. *)
Theorem contains_does_not_normalise fuel c s name p v :
  class_ok c = true →
  hyphen_free name = false →
  class_attr c (replace_hyphens name) = Some (Validated p) →
  attrs s !! storage_key (vp_name p) = Some v → v ≠ VNone →
  getitem (S fuel) c s name = Ret s v
  ∧ contains fuel c s name = Ret s false
  ∧ contains fuel c s (replace_hyphens name) = Ret s true.
Proof.
  intros Hok Hh Hattr Hv Hne.
  destruct (class_attr_replace _ _ _ Hok Hattr) as [Hr Hin].
  split; [|split].
  - simpl. rewrite Hin, Hattr, (vp_get_stored p s v Hv Hne). reflexivity.
  - unfold contains. rewrite (hyphen_not_declared c name Hok Hh). reflexivity.
  - unfold contains. rewrite Hin, Hattr. unfold vp_is_set_on. rewrite Hv.
    reflexivity.
Qed.

Lemma contains_does_not_normalise_witness :
  getitem 1 Box (setattr empty_style "_font_family" (VStr "serif"))
          "font-family"
  = Ret (setattr empty_style "_font_family" (VStr "serif")) (VStr "serif")
  ∧ contains 0 Box (setattr empty_style "_font_family" (VStr "serif"))
             "font-family"
    = Ret (setattr empty_style "_font_family" (VStr "serif")) false.
Proof.
  destruct (contains_does_not_normalise 0 Box
              (setattr empty_style "_font_family" (VStr "serif"))
              "font-family" (text_prop "font_family" (VStr "system"))
              (VStr "serif"))
    as (Hget & Hin & _); try reflexivity; [discriminate|].
  split; [exact Hget|exact Hin].
Defined.

(** ** reapply *)

Lemma _PROPERTIES_primaries c : _PROPERTIES c = map vp_name (primaries c).
Proof.
  unfold _PROPERTIES, primaries. induction c as [|x c IH]; [reflexivity|].
  destruct x; simpl; [f_equal|]; exact IH.
Qed.

Lemma primaries_elem c p : p ∈ primaries c ↔ Validated p ∈ c.
Proof.
  unfold primaries. rewrite list_elem_of_omap. split.
  - intros (x & Hx & Hp). destruct x as [q|]; [|discriminate].
    injection Hp as ->. exact Hx.
  - intros H. exists (Validated p). auto.
Qed.

(** C7 (as amended).  [reapply] calls [apply(name, value)] once for
    every primary (validated or list) property of the class, set or not,
    in the order of [_PROPERTIES], with the value the property reads as:
    the stored value, or the initial value when none is stored.  It
    stores nothing, and directional names are not replayed. *)
Theorem reapply_replays_every_primary fuel c s :
  class_ok c = true →
  reapply (S fuel) c s
  = Ret (mk_style (attrs s)
                  (applied s
                   ++ map (fun p => (vp_name p, vp_get p s)) (primaries c)))
        tt.
Proof.
  intros Hok. unfold reapply. rewrite _PROPERTIES_primaries.
  assert (Hall : ∀ p, p ∈ primaries c → class_attr c (vp_name p)
                                         = Some (Validated p)).
  { intros p Hp. apply primaries_elem in Hp.
    apply (class_attr_in c (Validated p) (class_ok_nodup _ Hok) Hp). }
  revert Hall. generalize (primaries c) as ps. intros ps. revert s.
  induction ps as [|p ps IH]; intros s Hall; cbn [map for_each].
  - rewrite app_nil_r. destruct s; reflexivity.
  - rewrite (getitem_validated fuel c s (vp_name p) p Hok)
      by (apply Hall; left).
    cbn [bind]. rewrite IH by (intros q Hq; apply Hall; right; exact Hq).
    cbn [apply_hook attrs applied]. rewrite <- app_assoc. reflexivity.
Qed.

Lemma reapply_replays_every_primary_witness :
  class_ok Box = true
  ∧ reapply 1 Box empty_style
    = Ret (mk_style ∅ [("font_family", VStr "system");
                       ("margin_top", VInt 0); ("margin_right", VInt 0);
                       ("margin_bottom", VInt 0); ("margin_left", VInt 0)])
          tt.
Proof.
  split; [reflexivity|].
  apply (reapply_replays_every_primary 0 Box empty_style). reflexivity.
Defined.

(** C7 as stated fails: on a style with nothing set, [reapply] calls
    [apply] for the unset property, with its initial value. *)
Lemma reapply_replays_unset_properties :
  vp_is_set_on (text_prop "font_family" (VStr "system")) empty_style = false
  ∧ reapply 1 [Validated (text_prop "font_family" (VStr "system"))] empty_style
    = Ret (mk_style ∅ [("font_family", VStr "system")]) tt.
Proof. split; reflexivity. Qed.


(** ** Rejected writes *)

Lemma for_each_raise {X} (body : X → style → result unit) : ∀ xs s s' e,
  for_each xs body s = Raise s' e →
  ∃ done x rest mid,
    xs = done ++ x :: rest
    ∧ for_each done body s = Ret mid tt
    ∧ body x mid = Raise s' e.
Proof.
  induction xs as [|x xs IH]; intros s s' e H; simpl in H; [discriminate|].
  destruct (body x s) as [s1 []|s1 e1|] eqn:E; simpl in H; [| |discriminate].
  - destruct (IH s1 s' e H) as (done & y & rest & mid & -> & Hdone & Hy).
    exists (x :: done), y, rest, mid. split; [reflexivity|].
    split; [|exact Hy]. simpl. rewrite E. exact Hdone.
  - injection H as <- <-. exists [], x, xs, s. auto.
Qed.

Lemma for_each_app {X} (body : X → style → result unit) xs ys s :
  for_each (xs ++ ys) body s
  = bind (for_each xs body s) (fun s _ => for_each ys body s).
Proof.
  revert s. induction xs as [|x xs IH]; intros s; simpl; [reflexivity|].
  destruct (body x s) as [s1 u|s1 e|]; simpl; [apply IH|reflexivity..].
Qed.

Lemma for_each_raise_iff {X} (body : X → style → result unit) xs s s' e :
  for_each xs body s = Raise s' e
  ↔ ∃ done x rest mid,
      xs = done ++ x :: rest
      ∧ for_each done body s = Ret mid tt
      ∧ body x mid = Raise s' e.
Proof.
  split; [apply for_each_raise|].
  intros (done & x & rest & mid & -> & Hdone & Hx).
  rewrite for_each_app, Hdone. simpl. rewrite Hx. reflexivity.
Qed.

(** C6 (as amended).  A write to a validated or list property of a
    value that is [None] or fails validation raises, and a write that
    raises, whether on the descriptor or through [style[name] = v] (also
    for an unknown name), leaves the style object exactly as it was; so
    does a directional write of a tuple of the wrong length.  A
    directional write and [update] make their assignments one after the
    other: they raise exactly when one assignment is rejected after the
    ones before it were made, and the exception leaves with those
    earlier assignments done and the later ones not attempted. *)
Theorem rejected_write_state B :
  (∀ p s v,
     is_descriptor v (vp_name p) = false →
     (v = VNone ∨ ∃ e, validate B p v = Err e) →
     ∃ e, vp_set B p s v = Raise s e)
  ∧ (∀ p s v s' e, vp_set B p s v = Raise s' e → s' = s)
  ∧ (∀ fuel c s name v s' e,
       setitem fuel B c s name v = Raise s' e →
       (∀ d, class_attr c (replace_hyphens name) ≠ Some (Directional d)) →
       s' = s)
  ∧ (∀ setitem d s v,
       is_descriptor v (dp_name d) = false →
       ASSIGNMENT_SCHEMES (length (as_tuple v)) = None →
       dp_set setitem d s v
       = Raise s (ValueError (InvalidShorthand (dp_name d))))
  ∧ (∀ setitem d s v order s' e,
       is_descriptor v (dp_name d) = false →
       ASSIGNMENT_SCHEMES (length (as_tuple v)) = Some order →
       dp_set setitem d s v = Raise s' e
       ↔ ∃ done failed rest mid,
           zip DIRECTIONS order = done ++ failed :: rest
           ∧ for_each done (assign setitem d (as_tuple v)) s = Ret mid tt
           ∧ assign setitem d (as_tuple v) failed mid = Raise s' e)
  ∧ (∀ fuel c s styles s' e,
       update fuel B c s styles = Raise s' e
       ↔ ∃ done failed rest mid,
           styles = done ++ failed :: rest
           ∧ update fuel B c s done = Ret mid tt
           ∧ update fuel B c mid [failed] = Raise s' e).
Proof.
  split; [|split; [apply vp_set_raise|]]; [|split; [|split; [|split]]].
  - intros p s v Hd [->|[e He]]; unfold vp_set; rewrite Hd.
    + eexists. reflexivity.
    + rewrite He. exists (match v with
                          | VNone => ValueError (NoneNotAllowed (vp_name p))
                          | _ => e
                          end).
      destruct v; reflexivity.
  - intros fuel c s name v s' e H Hnd. destruct fuel as [|fuel]; [discriminate|].
    simpl in H.
    destruct (bool_decide (replace_hyphens name ∈ _ALL_PROPERTIES c));
      [|injection H as <- _; reflexivity].
    destruct (class_attr c (replace_hyphens name)) as [[p|d]|];
      [eapply vp_set_raise; exact H|destruct (Hnd d eq_refl)|].
    injection H as <- _. reflexivity.
  - intros setitem d s v Hd Hnone. unfold dp_set. rewrite Hd, Hnone. reflexivity.
  - intros setitem d s v order s' e Hd Horder. unfold dp_set.
    rewrite Hd, Horder. apply for_each_raise_iff.
  - intros fuel c s styles s' e. unfold update.
    rewrite for_each_raise_iff. split.
    + intros (done & failed & rest & mid & ? & ? & Hf).
      exists done, failed, rest, mid. split; [assumption|]. split; [assumption|].
      simpl. rewrite Hf. reflexivity.
    + intros (done & failed & rest & mid & ? & ? & Hf).
      exists done, failed, rest, mid. split; [assumption|]. split; [assumption|].
      simpl in Hf.
      match type of Hf with bind ?r _ = _ => destruct r as [? []| |] end;
        simpl in Hf; [discriminate|exact Hf|discriminate].
Qed.

Lemma rejected_write_state_witness :
  setitem 1 plain_builtins Box (setattr empty_style "_margin_top" (VInt 3))
          "margin-top" (VStr "wide")
  = Raise (setattr empty_style "_margin_top" (VInt 3))
          (ValueError (InvalidValue (VStr "wide") "margin_top"))
  ∧ setattr empty_style "_margin_top" (VInt 3)
    = setattr empty_style "_margin_top" (VInt 3).
Proof.
  split; [reflexivity|].
  apply (proj1 (proj2 (proj2 (rejected_write_state plain_builtins))) 1 Box
           (setattr empty_style "_margin_top" (VInt 3)) "margin-top"
           (VStr "wide") _
           (ValueError (InvalidValue (VStr "wide") "margin_top"))).
  - reflexivity.
  - intros d. vm_compute. discriminate.
Defined.

(** C6 as stated fails: a directional write whose second item is
    rejected raises after the top margin has been stored and applied. *)
Lemma directional_write_is_not_atomic :
  ∃ s' e, dp_set (setitem 1 plain_builtins Box) margin empty_style
                 (VTuple [VInt 1; VStr "wide"]) = Raise s' e
          ∧ e = ValueError (InvalidValue (VStr "wide") "margin_right")
          ∧ attrs empty_style !! "_margin_top" = None
          ∧ attrs s' !! "_margin_top" = Some (VInt 1)
          ∧ applied s' = [("margin_top", VInt 1)].
Proof.
  eexists. eexists. split; [vm_compute; reflexivity|].
  repeat split; vm_compute; reflexivity.
Qed.


(** ** Directional shorthand *)

Lemma vp_set_then_get B p s x n :
  normalises B p x n →
  ∃ s1, vp_set B p s x = Ret s1 tt
        ∧ same_value (vp_get p s1) n
        ∧ ∀ key, key ≠ storage_key (vp_name p) →
                 attrs s1 !! key = attrs s !! key.
Proof.
  intros (Hne & Hnn & Hd & Hv). rewrite (vp_set_accepted B p s x n Hd Hne Hv).
  destruct (py_ne n (getattr_or_None s (storage_key (vp_name p)))) eqn:E.
  - eexists. split; [reflexivity|]. split.
    + left. apply vp_get_stored; [apply lookup_insert_eq|exact Hnn].
    + intros key Hk. simpl. apply lookup_insert_ne. congruence.
  - exists s. split; [reflexivity|]. split; [|reflexivity].
    right. unfold py_ne in E. apply negb_false_iff in E.
    unfold vp_get. destruct (getattr_or_None s (storage_key (vp_name p)));
      try exact E.
    apply py_eq_None_r in E. contradiction.
Qed.

Lemma vp_get_same_key p s s1 :
  attrs s1 !! storage_key (vp_name p) = attrs s !! storage_key (vp_name p) →
  vp_get p s1 = vp_get p s.
Proof. intros H. unfold vp_get, getattr_or_None. rewrite H. reflexivity. Qed.

Section Sides.
Variables (B : builtins) (fuel : nat) (c : class) (d : directional_property).
Variables pt pr pb pl : validated_property.
Hypothesis Hok : class_ok c = true.
Hypothesis Ht : class_attr c (format d TOP) = Some (Validated pt).
Hypothesis Hr : class_attr c (format d RIGHT) = Some (Validated pr).
Hypothesis Hb : class_attr c (format d BOTTOM) = Some (Validated pb).
Hypothesis Hl : class_attr c (format d LEFT) = Some (Validated pl).
Hypothesis Hdistinct : NoDup (map (format d) DIRECTIONS).

Lemma side_keys :
  ∀ p q dp dq, class_attr c (format d dp) = Some (Validated p) →
               class_attr c (format d dq) = Some (Validated q) →
               format d dp ≠ format d dq →
               storage_key (vp_name q) ≠ storage_key (vp_name p).
Proof.
  intros p q dp dq Hp Hq Hne.
  destruct (class_attr_Some _ _ _ Hp) as (Hpn & _).
  destruct (class_attr_Some _ _ _ Hq) as (Hqn & _).
  simpl in *. unfold storage_key. intros Heq. injection Heq as Heq.
  apply Hne. congruence.
Qed.

Lemma four_writes s xt xr xb xl nt nr nb nl :
  normalises B pt xt nt → normalises B pr xr nr →
  normalises B pb xb nb → normalises B pl xl nl →
  ∃ s4, write_sides (setitem (S fuel) B c) d s xt xr xb xl = Ret s4 tt
        ∧ reads_as (S fuel) c d s4 nt nr nb nl.
Proof.
  intros At Ar Ab Al. unfold write_sides.
  assert (Hne : format d TOP ≠ format d RIGHT ∧ format d TOP ≠ format d BOTTOM
                ∧ format d TOP ≠ format d LEFT
                ∧ format d RIGHT ≠ format d BOTTOM
                ∧ format d RIGHT ≠ format d LEFT
                ∧ format d BOTTOM ≠ format d LEFT).
  { cbn [map DIRECTIONS] in Hdistinct.
    apply NoDup_cons in Hdistinct as [H1 Hd1].
    apply NoDup_cons in Hd1 as [H2 Hd2].
    apply NoDup_cons in Hd2 as [H3 _].
    repeat split; intros E.
    - apply H1. rewrite E. left.
    - apply H1. rewrite E. right. left.
    - apply H1. rewrite E. do 2 right. left.
    - apply H2. rewrite E. left.
    - apply H2. rewrite E. right. left.
    - apply H3. rewrite E. left. }
  destruct Hne as (Htr & Htb & Htl & Hrb & Hrl & Hbl).
  rewrite (setitem_validated fuel B c s _ pt xt Hok Ht).
  destruct (vp_set_then_get B pt s xt nt At) as (s1 & -> & Gt & K1). cbn [bind].
  rewrite (setitem_validated fuel B c s1 _ pr xr Hok Hr).
  destruct (vp_set_then_get B pr s1 xr nr Ar) as (s2 & -> & Gr & K2). cbn [bind].
  rewrite (setitem_validated fuel B c s2 _ pb xb Hok Hb).
  destruct (vp_set_then_get B pb s2 xb nb Ab) as (s3 & -> & Gb & K3). cbn [bind].
  rewrite (setitem_validated fuel B c s3 _ pl xl Hok Hl).
  destruct (vp_set_then_get B pl s3 xl nl Al) as (s4 & -> & Gl & K4). cbn [bind].
  exists s4. split; [reflexivity|].
  exists (vp_get pt s4), (vp_get pr s4), (vp_get pb s4), (vp_get pl s4).
  split.
  - unfold dp_get. cbn [map DIRECTIONS collect].
    rewrite (getitem_validated fuel c s4 _ pt Hok Ht). cbn [bind].
    rewrite (getitem_validated fuel c s4 _ pr Hok Hr). cbn [bind].
    rewrite (getitem_validated fuel c s4 _ pb Hok Hb). cbn [bind].
    rewrite (getitem_validated fuel c s4 _ pl Hok Hl). reflexivity.
  - assert (Et : vp_get pt s4 = vp_get pt s1).
    { apply vp_get_same_key.
      rewrite K4 by (eapply (side_keys pl pt); eauto).
      rewrite K3 by (eapply (side_keys pb pt); eauto).
      apply K2. eapply (side_keys pr pt); eauto. }
    assert (Er : vp_get pr s4 = vp_get pr s2).
    { apply vp_get_same_key.
      rewrite K4 by (eapply (side_keys pl pr); eauto).
      apply K3. eapply (side_keys pb pr); eauto. }
    assert (Eb : vp_get pb s4 = vp_get pb s3).
    { apply vp_get_same_key. apply K4. eapply (side_keys pl pb); eauto. }
    rewrite Et, Er, Eb. auto.
Qed.
End Sides.

(** C8.  A directional write is the four assignments to the
    sub-properties in the order top, right, bottom, left: of
    [(v, v, v, v)] for a scalar [v] or a tuple [(v,)], of [(a, b, a, b)]
    for [(a, b)], of [(a, b, x, b)] for [(a, b, x)] and of
    [(a, b, x, y)] for [(a, b, x, y)]; a tuple of any other length
    raises [ValueError] and changes nothing.  When the four
    sub-properties are declared under distinct names and take the
    values assigned, the write returns and the property then reads the
    four items in that order as the sub-properties store them: the item
    itself when validation leaves it as it is (or an equal value that
    was stored already), so [(v, v, v, v)], [(a, b, a, b)],
    [(a, b, x, b)] and [(a, b, x, y)]. *)
Theorem directional_shorthand B fuel c d pt pr pb pl s :
  class_ok c = true →
  class_attr c (format d TOP) = Some (Validated pt) →
  class_attr c (format d RIGHT) = Some (Validated pr) →
  class_attr c (format d BOTTOM) = Some (Validated pb) →
  class_attr c (format d LEFT) = Some (Validated pl) →
  NoDup (map (format d) DIRECTIONS) →
  (∀ setitem,
     (∀ v, as_tuple v = [v] → is_descriptor v (dp_name d) = false →
           dp_set setitem d s v = write_sides setitem d s v v v v)
     ∧ (∀ a, dp_set setitem d s (VTuple [a])
             = write_sides setitem d s a a a a)
     ∧ (∀ a b, dp_set setitem d s (VTuple [a; b])
               = write_sides setitem d s a b a b)
     ∧ (∀ a b x, dp_set setitem d s (VTuple [a; b; x])
                 = write_sides setitem d s a b x b)
     ∧ (∀ a b x y, dp_set setitem d s (VTuple [a; b; x; y])
                   = write_sides setitem d s a b x y)
     ∧ (∀ items, length items = 0 ∨ 4 < length items →
          dp_set setitem d s (VTuple items)
          = Raise s (ValueError (InvalidShorthand (dp_name d)))))
  ∧ (∀ xt xr xb xl nt nr nb nl,
       normalises B pt xt nt → normalises B pr xr nr →
       normalises B pb xb nb → normalises B pl xl nl →
       ∃ s', write_sides (setitem (S fuel) B c) d s xt xr xb xl = Ret s' tt
             ∧ reads_as (S fuel) c d s' nt nr nb nl)
  ∧ (∀ v, as_tuple v = [v] → is_descriptor v (dp_name d) = false →
       accepts B pt v → accepts B pr v → accepts B pb v → accepts B pl v →
       ∃ s', dp_set (setitem (S fuel) B c) d s v = Ret s' tt
             ∧ reads_as (S fuel) c d s' v v v v)
  ∧ (∀ a b,
       accepts B pt a → accepts B pr b → accepts B pb a → accepts B pl b →
       ∃ s', dp_set (setitem (S fuel) B c) d s (VTuple [a; b]) = Ret s' tt
             ∧ reads_as (S fuel) c d s' a b a b)
  ∧ (∀ a b x,
       accepts B pt a → accepts B pr b → accepts B pb x → accepts B pl b →
       ∃ s', dp_set (setitem (S fuel) B c) d s (VTuple [a; b; x]) = Ret s' tt
             ∧ reads_as (S fuel) c d s' a b x b)
  ∧ (∀ a b x y,
       accepts B pt a → accepts B pr b → accepts B pb x → accepts B pl y →
       ∃ s', dp_set (setitem (S fuel) B c) d s (VTuple [a; b; x; y]) = Ret s' tt
             ∧ reads_as (S fuel) c d s' a b x y).
Proof.
  intros Hok Ht Hr Hb Hl Hnd.
  pose proof (four_writes B fuel c d pt pr pb pl Hok Ht Hr Hb Hl Hnd s) as H4.
  split; [|split; [|split; [|split; [|split]]]].
  - intros setitem. split; [|split; [|split; [|split; [|split]]]];
      try (intros; reflexivity).
    + intros v Hv Hd. unfold dp_set. rewrite Hd, Hv. reflexivity.
    + intros items Hlen. unfold dp_set. cbn [is_descriptor as_tuple].
      destruct items as [|? [|? [|? [|? [|? ?]]]]]; simpl in Hlen; try lia;
        reflexivity.
  - exact H4.
  - intros v Hv Hd At Ar Ab Al. unfold dp_set. rewrite Hd, Hv.
    exact (H4 v v v v v v v v At Ar Ab Al).
  - intros a b At Ar Ab Al. exact (H4 a b a b a b a b At Ar Ab Al).
  - intros a b x At Ar Ab Al. exact (H4 a b x b a b x b At Ar Ab Al).
  - intros a b x y At Ar Ab Al. exact (H4 a b x y a b x y At Ar Ab Al).
Qed.

Lemma directional_shorthand_witness :
  class_ok Box = true
  ∧ ∃ s', dp_set (setitem 1 plain_builtins Box) margin empty_style
                 (VTuple [VInt 1; VInt 2]) = Ret s' tt
          ∧ reads_as 1 Box margin s' (VInt 1) (VInt 2) (VInt 1) (VInt 2).
Proof.
  split; [reflexivity|].
  assert (Hacc : ∀ name z, accepts plain_builtins (int_prop name) (VInt z)).
  { intros name z. repeat split; discriminate. }
  refine (proj1 (proj2 (proj2 (proj2
            (directional_shorthand plain_builtins 0 Box margin
               (int_prop "margin_top") (int_prop "margin_right")
               (int_prop "margin_bottom") (int_prop "margin_left")
               empty_style eq_refl eq_refl eq_refl eq_refl eq_refl _))))
            (VInt 1) (VInt 2) (Hacc _ _) (Hacc _ _) (Hacc _ _) (Hacc _ _)).
  refine (proj1 (bool_decide_eq_true _) _). vm_compute. reflexivity.
Defined.

(** The items are read as the sub-properties store them: with integer
    margins, [style.margin = 2.5] reads [(2, 2, 2, 2)]. *)
Example directional_write_normalises :
  ∃ s', dp_set (setitem 1 plain_builtins Box) margin empty_style
               (VFloat (FFin 5 (-1))) = Ret s' tt
        ∧ dp_get (getitem 1 Box) margin s'
          = Ret s' (VTuple [VInt 2; VInt 2; VInt 2; VInt 2]).
Proof. eexists. split; vm_compute; reflexivity. Qed.

End DeclarationFacts.

(* ===================================================================== *)
(** * node.py: what each tree operation leaves behind *)
(* ===================================================================== *)

Module TreeFacts.
Import Node NodeFacts.

(** ** [list.insert] and [list.remove] *)

Lemma fits_ssize_t_range index :
  fits_ssize_t index = true ↔ (- 2 ^ 63 ≤ index < 2 ^ 63)%Z.
Proof.
  unfold fits_ssize_t, maxsize. rewrite andb_true_iff, !Z.leb_le. lia.
Qed.

Lemma insert_position_spec (index : Z) (len : nat) :
  insert_position index len ≤ len
  ∧ ((0 ≤ index ≤ Z.of_nat len)%Z → insert_position index len = Z.to_nat index)
  ∧ ((Z.of_nat len ≤ index)%Z → insert_position index len = len)
  ∧ ((- Z.of_nat len ≤ index < 0)%Z
     → insert_position index len = Z.to_nat (Z.of_nat len + index))
  ∧ ((index ≤ - Z.of_nat len)%Z → insert_position index len = 0).
Proof.
  unfold insert_position. cbv zeta.
  destruct (Z.ltb_spec index 0) as [Hneg|Hpos].
  - destruct (Z.ltb_spec (index + Z.of_nat len) 0) as [Hlow|Hin].
    + destruct (Z.ltb_spec (Z.of_nat len) 0) as [?|_]; [lia|].
      repeat split; intros; lia.
    + destruct (Z.ltb_spec (Z.of_nat len) (index + Z.of_nat len)) as [?|_];
        [lia|].
      repeat split; intros; lia.
  - destruct (Z.ltb_spec index 0) as [?|_]; [lia|].
    destruct (Z.ltb_spec (Z.of_nat len) index) as [Hbig|Hin];
      repeat split; intros; lia.
Qed.

Lemma list_insert_at_position {A} (index : Z) (x : A) l :
  fits_ssize_t index = true →
  list_insert_at index x l
  = Some (take (insert_position index (length l)) l
          ++ x :: drop (insert_position index (length l)) l).
Proof. intros H. unfold list_insert_at. rewrite H. reflexivity. Qed.

Lemma list_insert_at_overflow {A} (index : Z) (x : A) l :
  fits_ssize_t index = false → list_insert_at index x l = None.
Proof. intros H. unfold list_insert_at. rewrite H. reflexivity. Qed.

Lemma list_remove_inserted x i : ∀ l,
  x ∉ l → list_remove x (take i l ++ x :: drop i l) = Some l.
Proof.
  induction i as [|i IH]; intros l Hx.
  - rewrite take_0, drop_0. simpl. rewrite decide_True by reflexivity.
    reflexivity.
  - destruct l as [|y l]; simpl.
    + rewrite decide_True by reflexivity. reflexivity.
    + apply not_elem_of_cons in Hx as [Hne Hx].
      rewrite decide_False by congruence. rewrite IH by exact Hx. reflexivity.
Qed.

Lemma list_remove_None x l : list_remove x l = None ↔ x ∉ l.
Proof.
  induction l as [|y l IH]; simpl.
  - split; [intros _; apply not_elem_of_nil|reflexivity].
  - rewrite not_elem_of_cons. destruct (decide (y = x)) as [->|Hne].
    + split; [discriminate|intros [? _]; congruence].
    + destruct (list_remove x l); simpl.
      * split; [discriminate|]. intros [_ H]. apply IH in H. discriminate.
      * split; [|reflexivity]. intros _. split; [congruence|]. apply IH.
        reflexivity.
Qed.

(** ** Shape of a heap *)

Lemma same_shape_parent h g m : same_shape h g → parent g m = parent h m.
Proof.
  intros Hs. specialize (Hs m). unfold parent.
  destruct (h !! m), (g !! m); simpl in *; congruence.
Qed.

Lemma same_shape_children h g m :
  same_shape h g → _children <$> g !! m = _children <$> h !! m.
Proof.
  intros Hs. specialize (Hs m).
  destruct (h !! m), (g !! m); simpl in *; congruence.
Qed.

Lemma reaches_allocated h a n :
  closed h → is_Some (h !! a) → reaches h a n → is_Some (h !! n).
Proof.
  intros Hcl Ha Hr. induction Hr as [|a b n Hab _ IH]; [exact Ha|].
  apply IH. eapply Hcl, Hab.
Qed.

Lemma root_written_in P rt g g' m :
  written P (Some rt) g g' → P m → is_Some (g !! m) → root g' m = Some rt.
Proof.
  intros Hw HP [x Hx]. unfold root.
  rewrite (written_in _ _ _ _ m Hw HP), Hx. reflexivity.
Qed.

Lemma root_cleared_in P g g' m :
  written P None g g' → P m → is_Some (g !! m) → root g' m = Some m.
Proof.
  intros Hw HP [x Hx]. unfold root.
  rewrite (written_in _ _ _ _ m Hw HP), Hx. reflexivity.
Qed.

(** ** [add] and [insert] *)

Lemma attach_effect h self child nd cd cs cs' :
  wf h → h !! self = Some nd → _children nd = Some cs →
  h !! child = Some cd → _parent cd = None → ¬ reaches h child self →
  (∀ x, x ∈ cs' ↔ x = child ∨ x ∈ cs) → NoDup cs' →
  ∃ fuel0, ∀ fuel, fuel0 ≤ fuel →
  ∃ h', attach fuel self child (<[self := set_children nd (Some cs')]> h)
        = Ret h'
    ∧ (_children <$> h' !! self) = Some (Some cs')
    ∧ parent h' child = Some (Some self)
    ∧ (∀ n, reaches h child n → root h' n = root h self)
    ∧ (∀ n, ¬ reaches h child n → root h' n = root h n)
    ∧ (∀ m, m ≠ child → parent h' m = parent h m)
    ∧ (∀ m, m ≠ self → _children <$> h' !! m = _children <$> h !! m)
    ∧ wf h' ∧ (∀ n, reaches h child n ∨ ¬ reaches h child n).
Proof.
  intros Hwf Hself Hcs Hchild Hpar Hfar Hcs' Hnd'.
  pose proof (children_Some _ _ Hcs) as Hch.
  assert (Hcs'' : ∀ x, x ∈ cs' ↔ x = child ∨ x ∈ children nd)
    by (rewrite Hch; exact Hcs').
  assert (Hne : child ≠ self) by (intros ->; apply Hfar, rtc_refl).
  destruct (attach_ok h self child nd cd cs' Hwf Hself Hchild Hpar Hfar
              Hcs'' Hnd') as (fuel0 & Hok).
  exists fuel0. intros fuel Hfuel.
  destruct (Hok fuel Hfuel) as (g' & Hg' & Hw). exists g'.
  split; [exact Hg'|].
  set (h2 := <[child := set_parent cd (Some self)]>
               (<[self := set_children nd (Some cs')]> h)) in *.
  assert (L : ∀ p, h2 !! p
                   = if decide (child = p) then Some (set_parent cd (Some self))
                     else if decide (self = p)
                          then Some (set_children nd (Some cs'))
                          else h !! p).
  { intros p. unfold h2. rewrite !lookup_insert. reflexivity. }
  pose proof (written_shape _ _ _ _ Hw) as Hshape.
  split; [|split; [|split; [|split; [|split; [|split; [|split]]]]]];
    [| | | | | | |intros n; apply (written_dec _ _ _ _ n Hw)].
  - rewrite (same_shape_children _ _ _ Hshape), L.
    rewrite decide_False by exact Hne. rewrite decide_True by reflexivity.
    reflexivity.
  - rewrite (same_shape_parent _ _ _ Hshape). unfold parent. rewrite L.
    rewrite decide_True by reflexivity. reflexivity.
  - intros n Hn. rewrite (root_lookup _ _ _ Hself).
    apply (root_written_in _ _ _ _ _ Hw Hn).
    assert (Hal : is_Some (h !! n)).
    { eapply reaches_allocated; [apply wf_closed, Hwf| |exact Hn]. eauto. }
    rewrite L. repeat case_decide; eauto.
  - intros n Hn. unfold root. rewrite (written_out _ _ _ _ n Hw Hn), L.
    destruct (decide (child = n)) as [<-|_]; [destruct Hn; apply rtc_refl|].
    destruct (decide (self = n)) as [<-|_]; [|reflexivity].
    rewrite Hself. reflexivity.
  - intros m Hm. rewrite (same_shape_parent _ _ _ Hshape). unfold parent.
    rewrite L. rewrite decide_False by congruence.
    destruct (decide (self = m)) as [<-|_]; [|reflexivity].
    rewrite Hself. reflexivity.
  - intros m Hm. rewrite (same_shape_children _ _ _ Hshape), L.
    destruct (decide (child = m)) as [<-|_].
    + rewrite Hchild. reflexivity.
    + rewrite decide_False by congruence. reflexivity.
  - eapply wf_shape; [exact Hshape|].
    apply (wf_attached h self child nd cd cs'); assumption.
Qed.

Lemma parentless_not_child h p c cd :
  wf h → h !! c = Some cd → _parent cd = None → ¬ child_of h p c.
Proof.
  intros Hwf Hc Hp Hco. destruct (wf_down h Hwf p c Hco) as (x & Hx & Hxp).
  congruence.
Qed.

(** [add] puts the child at the end of the children of [self], makes
    [self] its parent and the root of [self] the root of every node at
    and below the child; nothing else changes: the other nodes keep
    their parent, their children and their root. *)
Theorem add_appends fuel ops h self child nd cs :
  run pre_attach fuel ops ∅ = Some h →
  attachable h self child = true →
  h !! self = Some nd → _children nd = Some cs →
  ∃ fuel0, ∀ fuel', fuel0 ≤ fuel' →
  ∃ h', add fuel' h self child = Ret h'
    ∧ (_children <$> h' !! self) = Some (Some (cs ++ [child]))
    ∧ parent h' child = Some (Some self)
    ∧ (∀ n, reaches h child n → root h' n = root h self)
    ∧ (∀ n, ¬ reaches h child n → root h' n = root h n)
    ∧ (∀ m, m ≠ child → parent h' m = parent h m)
    ∧ (∀ m, m ≠ self → _children <$> h' !! m = _children <$> h !! m).
Proof.
  intros Hrun Hpre Hself Hcs.
  pose proof (run_pre_attach _ _ _ _ wf_empty Hrun) as Hwf.
  destruct (attachable_spec _ _ _ Hwf Hpre)
    as (nd' & cd & Hself' & Hchild & Hpar & Hfar).
  rewrite Hself in Hself'. injection Hself' as <-.
  pose proof (children_Some _ _ Hcs) as Hch.
  assert (Hnin : child ∉ cs).
  { intros Hin. apply (parentless_not_child h self child cd Hwf Hchild Hpar).
    exists nd. rewrite Hch. auto. }
  destruct (attach_effect h self child nd cd cs (cs ++ [child])
              Hwf Hself Hcs Hchild Hpar Hfar) as (fuel0 & Hok).
  { intros x. rewrite elem_of_app, list_elem_of_singleton. tauto. }
  { apply NoDup_app. split; [|split].
    - pose proof (wf_nodup h Hwf self nd Hself) as H. rewrite Hch in H. exact H.
    - intros x Hx Hx'. apply list_elem_of_singleton in Hx' as ->. auto.
    - apply NoDup_singleton. }
  exists fuel0. intros fuel' Hfuel. unfold add. rewrite Hself, Hcs.
  destruct (Hok fuel' Hfuel) as (h' & H1 & H2 & H3 & H4 & H5 & H6 & H7 & _).
  exists h'. auto 10.
Qed.

Lemma add_appends_witness :
  (run pre_attach 3 (three_nodes ++ [OpAdd 1 2]) ∅
   = Some (list_to_map [(0, mk_node None None (Some []));
                        (1, mk_node None None (Some [2]));
                        (2, mk_node (Some 1) (Some 1) None)]))
  ∧ ∃ fuel0, ∀ fuel', fuel0 ≤ fuel' →
    ∃ h', add fuel'
              (list_to_map [(0, mk_node None None (Some []));
                            (1, mk_node None None (Some [2]));
                            (2, mk_node (Some 1) (Some 1) None)]) 0 1
          = Ret h'
      ∧ (_children <$> h' !! 0) = Some (Some ([] ++ [1])).
Proof.
  split; [vm_compute; reflexivity|].
  destruct (add_appends 3 (three_nodes ++ [OpAdd 1 2])
              (list_to_map [(0, mk_node None None (Some []));
                            (1, mk_node None None (Some [2]));
                            (2, mk_node (Some 1) (Some 1) None)])
              0 1 (mk_node None None (Some [])) [])
    as (fuel0 & Hok); try (vm_compute; reflexivity).
  exists fuel0. intros fuel' Hfuel.
  destruct (Hok fuel' Hfuel) as (h' & Hadd & Hkids & _).
  exists h'. split; [exact Hadd|exact Hkids].
Defined.

(** [insert] with an index that does not fit a C [ssize_t] (below
    [-2**63] or from [2**63] on) raises [OverflowError] and changes
    nothing.  With any other index it puts the child at position
    [index] of the children of [self] when [0 <= index <= len], before
    the last [-index] children when [index] is negative, and at the
    nearest end when [index] is out of range; the children that were
    there keep their order.  The child gets [self] as its parent and
    the root of [self] as its root, as with [add]. *)
Theorem insert_places_child fuel ops h self index child nd cs :
  run pre_attach fuel ops ∅ = Some h →
  attachable h self child = true →
  h !! self = Some nd → _children nd = Some cs →
  (¬ (- 2 ^ 63 ≤ index < 2 ^ 63)%Z →
   ∀ fuel', insert fuel' h self index child
            = Raise h (OverflowError
                         "Python int too large to convert to C ssize_t"))
  ∧ ((- 2 ^ 63 ≤ index < 2 ^ 63)%Z →
     ∃ fuel0, ∀ fuel', fuel0 ≤ fuel' →
     ∃ h' cs' i,
       insert fuel' h self index child = Ret h'
       ∧ (_children <$> h' !! self) = Some (Some cs')
       ∧ cs' = take i cs ++ child :: drop i cs
       ∧ cs' !! i = Some child
       ∧ list_remove child cs' = Some cs
       ∧ ((0 ≤ index ≤ Z.of_nat (length cs))%Z → i = Z.to_nat index)
       ∧ ((Z.of_nat (length cs) ≤ index)%Z → i = length cs)
       ∧ ((- Z.of_nat (length cs) ≤ index < 0)%Z
          → i = Z.to_nat (Z.of_nat (length cs) + index))
       ∧ ((index ≤ - Z.of_nat (length cs))%Z → i = 0)
       ∧ parent h' child = Some (Some self)
       ∧ (∀ n, reaches h child n → root h' n = root h self)
       ∧ (∀ m, m ≠ child → parent h' m = parent h m)
       ∧ (∀ m, m ≠ self → _children <$> h' !! m = _children <$> h !! m)).
Proof.
  intros Hrun Hpre Hself Hcs. split.
  { intros Hout fuel'. unfold insert. rewrite Hself, Hcs.
    rewrite list_insert_at_overflow; [reflexivity|].
    destruct (fits_ssize_t index) eqn:E; [|reflexivity].
    apply fits_ssize_t_range in E. contradiction. }
  intros Hfits. apply fits_ssize_t_range in Hfits.
  pose proof (run_pre_attach _ _ _ _ wf_empty Hrun) as Hwf.
  destruct (attachable_spec _ _ _ Hwf Hpre)
    as (nd' & cd & Hself' & Hchild & Hpar & Hfar).
  rewrite Hself in Hself'. injection Hself' as <-.
  pose proof (children_Some _ _ Hcs) as Hch.
  assert (Hnin : child ∉ cs).
  { intros Hin. apply (parentless_not_child h self child cd Hwf Hchild Hpar).
    exists nd. rewrite Hch. auto. }
  pose proof (list_insert_at_position index child cs Hfits) as Hins.
  destruct (insert_position_spec index (length cs))
    as (Hlen & Hin & Hbig & Hneg & Hlow).
  set (i := insert_position index (length cs)) in *.
  destruct (attach_effect h self child nd cd cs
              (take i cs ++ child :: drop i cs)
              Hwf Hself Hcs Hchild Hpar Hfar) as (fuel0 & Hok).
  { intros x. apply (list_insert_at_elem _ _ _ _ _ Hins). }
  { apply (list_insert_at_nodup _ _ _ _ Hins); [exact Hnin|].
    pose proof (wf_nodup h Hwf self nd Hself) as H. rewrite Hch in H. exact H. }
  exists fuel0. intros fuel' Hfuel. unfold insert. rewrite Hself, Hcs, Hins.
  destruct (Hok fuel' Hfuel) as (h' & Hh' & Hkids & Hp & Hr & _ & Hps & Hks
                                 & _).
  exists h', (take i cs ++ child :: drop i cs), i.
  split; [exact Hh'|]. split; [exact Hkids|]. split; [reflexivity|].
  split.
  { rewrite lookup_app_r by (rewrite length_take; lia).
    rewrite length_take. replace (i - i `min` length cs) with 0 by lia.
    reflexivity. }
  split; [apply list_remove_inserted, Hnin|].
  auto 10.
Qed.

Lemma insert_places_child_witness :
  (run pre_attach 3 (three_nodes ++ [OpAdd 1 2; OpNew None; OpAdd 1 3]) ∅
   = Some (list_to_map [(0, mk_node None None (Some []));
                        (1, mk_node None None (Some [2; 3]));
                        (2, mk_node (Some 1) (Some 1) None);
                        (3, mk_node (Some 1) (Some 1) None)]))
  ∧ (∃ fuel0, ∀ fuel', fuel0 ≤ fuel' →
     ∃ h', insert fuel'
             (list_to_map [(0, mk_node None None (Some []));
                           (1, mk_node None None (Some [2; 3]));
                           (2, mk_node (Some 1) (Some 1) None);
                           (3, mk_node (Some 1) (Some 1) None)]) 1 1 0
           = Ret h'
       ∧ (_children <$> h' !! 1) = Some (Some [2; 0; 3]))
  ∧ insert 3
      (list_to_map [(0, mk_node None None (Some []));
                    (1, mk_node None None (Some [2; 3]));
                    (2, mk_node (Some 1) (Some 1) None);
                    (3, mk_node (Some 1) (Some 1) None)]) 1 (2 ^ 63) 0
    = Raise (list_to_map [(0, mk_node None None (Some []));
                          (1, mk_node None None (Some [2; 3]));
                          (2, mk_node (Some 1) (Some 1) None);
                          (3, mk_node (Some 1) (Some 1) None)])
            (OverflowError "Python int too large to convert to C ssize_t").
Proof.
  split; [vm_compute; reflexivity|]. split.
  - destruct (insert_places_child 3
                (three_nodes ++ [OpAdd 1 2; OpNew None; OpAdd 1 3])
                (list_to_map [(0, mk_node None None (Some []));
                              (1, mk_node None None (Some [2; 3]));
                              (2, mk_node (Some 1) (Some 1) None);
                              (3, mk_node (Some 1) (Some 1) None)])
                1 1 0 (mk_node None None (Some [2; 3])) [2; 3])
      as (_ & Hin); try (vm_compute; reflexivity).
    destruct (Hin ltac:(lia)) as (fuel0 & Hok).
    exists fuel0. intros fuel' Hfuel.
    destruct (Hok fuel' Hfuel) as (h' & cs' & i & Hins & Hkids & Hcs' & _ & _
                                   & Hi & _).
    exists h'. split; [exact Hins|].
    rewrite Hkids, Hcs', (Hi ltac:(simpl; lia)). reflexivity.
  - destruct (insert_places_child 3
                (three_nodes ++ [OpAdd 1 2; OpNew None; OpAdd 1 3])
                (list_to_map [(0, mk_node None None (Some []));
                              (1, mk_node None None (Some [2; 3]));
                              (2, mk_node (Some 1) (Some 1) None);
                              (3, mk_node (Some 1) (Some 1) None)])
                1 (2 ^ 63) 0 (mk_node None None (Some [2; 3])) [2; 3])
      as (Hout & _); [vm_compute; reflexivity..|].
    apply Hout. lia.
Defined.

(** ** [remove] *)

(** [remove] of a node that is not a child of [self] raises
    [ValueError] and changes nothing.  [remove] of a child takes its
    first (and only) entry out of the children of [self] and leaves it
    without a parent; every node at and below the removed child then
    reports itself as its root, and every other node keeps the root it
    had; parents and children of the other nodes are untouched. *)
Theorem remove_detaches fuel ops h self child nd cs :
  run pre_attach fuel ops ∅ = Some h →
  h !! self = Some nd → _children nd = Some cs →
  (child ∉ cs →
   ∀ fuel', remove fuel' h self child
            = Raise h (ValueError "list.remove(x): x not in list"))
  ∧ (child ∈ cs →
     ∃ fuel0, ∀ fuel', fuel0 ≤ fuel' →
     ∃ h' cs',
       remove fuel' h self child = Ret h'
       ∧ (_children <$> h' !! self) = Some (Some cs')
       ∧ list_remove child cs = Some cs'
       ∧ (∀ x, x ∈ cs' ↔ x ∈ cs ∧ x ≠ child)
       ∧ parent h' child = Some None
       ∧ (∀ n, reaches h' child n → root h' n = Some n)
       ∧ (∀ n, ¬ reaches h' child n → root h' n = root h n)
       ∧ (∀ m, m ≠ child → parent h' m = parent h m)
       ∧ (∀ m, m ≠ self → _children <$> h' !! m = _children <$> h !! m)).
Proof.
  intros Hrun Hself Hcs.
  pose proof (run_pre_attach _ _ _ _ wf_empty Hrun) as Hwf.
  pose proof (children_Some _ _ Hcs) as Hch.
  split.
  { intros Hnin fuel'. unfold remove. rewrite Hself, Hcs.
    apply list_remove_None in Hnin. rewrite Hnin. reflexivity. }
  intros Hin.
  destruct (list_remove child cs) as [cs'|] eqn:Hrm;
    [|apply list_remove_None in Hrm; contradiction].
  pose proof (wf_nodup h Hwf self nd Hself) as Hnd. rewrite Hch in Hnd.
  destruct (list_remove_Some _ _ _ Hrm) as (_ & Hrest).
  destruct (Hrest Hnd) as (Hnd' & Hcs').
  assert (Hco : child_of h self child) by (exists nd; rewrite Hch; auto).
  destruct (wf_closed _ Hwf self child Hco) as [cd Hchild].
  assert (Hne : child ≠ self).
  { intros ->. destruct (wf_height h Hwf self) as [k Hk].
    apply (height_le_irrefl _ _ _ Hk). exact Hco. }
  assert (Hcs'' : ∀ x, x ∈ cs' ↔ x ∈ children nd ∧ x ≠ child)
    by (rewrite Hch; exact Hcs').
  assert (Hin' : child ∈ children nd) by (rewrite Hch; exact Hin).
  destruct (detach_ok h self child nd cd cs' Hwf Hself Hchild Hne Hcs''
              Hnd' Hin') as (fuel0 & Hok).
  pose proof (wf_detached h self child nd cd cs' Hwf Hself Hchild Hne Hcs''
                Hnd' Hin') as Hwf2.
  exists fuel0. intros fuel' Hfuel. unfold remove. rewrite Hself, Hcs, Hrm.
  destruct (Hok fuel' Hfuel) as (g' & Hg' & Hw). exists g', cs'.
  split; [exact Hg'|].
  set (h2 := <[child := set_parent cd None]>
               (<[self := set_children nd (Some cs')]> h)) in *.
  assert (L : ∀ p, h2 !! p
                   = if decide (child = p) then Some (set_parent cd None)
                     else if decide (self = p)
                          then Some (set_children nd (Some cs'))
                          else h !! p).
  { intros p. unfold h2. rewrite !lookup_insert. reflexivity. }
  pose proof (written_shape _ _ _ _ Hw) as Hshape.
  pose proof (written_kids _ _ _ _ Hw) as Hkids.
  assert (Hreach : ∀ n, reaches g' child n ↔ reaches h2 child n).
  { intros n. split; apply reaches_kids;
      [apply same_kids_sym|]; exact Hkids. }
  split; [|split; [reflexivity|split; [exact Hcs'|]]].
  { rewrite (same_shape_children _ _ _ Hshape), L.
    rewrite decide_False by exact Hne. rewrite decide_True by reflexivity.
    reflexivity. }
  split; [|split; [|split; [|split]]].
  - rewrite (same_shape_parent _ _ _ Hshape). unfold parent. rewrite L.
    rewrite decide_True by reflexivity. reflexivity.
  - intros n Hn. apply Hreach in Hn.
    apply (root_cleared_in _ _ _ _ Hw Hn).
    eapply reaches_allocated; [apply wf_closed, Hwf2| |exact Hn].
    rewrite L. rewrite decide_True by reflexivity. eauto.
  - intros n Hn. rewrite Hreach in Hn. unfold root.
    rewrite (written_out _ _ _ _ n Hw Hn), L.
    destruct (decide (child = n)) as [<-|_]; [destruct Hn; apply rtc_refl|].
    destruct (decide (self = n)) as [<-|_]; [|reflexivity].
    rewrite Hself. reflexivity.
  - intros m Hm. rewrite (same_shape_parent _ _ _ Hshape). unfold parent.
    rewrite L. rewrite decide_False by congruence.
    destruct (decide (self = m)) as [<-|_]; [|reflexivity].
    rewrite Hself. reflexivity.
  - intros m Hm. rewrite (same_shape_children _ _ _ Hshape), L.
    destruct (decide (child = m)) as [<-|_].
    + rewrite Hchild. reflexivity.
    + rewrite decide_False by congruence. reflexivity.
Qed.

Lemma remove_detaches_witness :
  (run pre_attach 3 chain_ops ∅ = Some chain)
  ∧ ∃ fuel0, ∀ fuel', fuel0 ≤ fuel' →
    ∃ h', remove fuel' chain 0 1 = Ret h'
      ∧ (_children <$> h' !! 0) = Some (Some [])
      ∧ root h' 2 = Some 2.
Proof.
  split; [vm_compute; reflexivity|].
  destruct (remove_detaches 3 chain_ops chain 0 1
              (mk_node None None (Some [1])) [1]) as (_ & Hrem);
    try (vm_compute; reflexivity).
  destruct (Hrem ltac:(left)) as (fuel0 & Hok).
  exists fuel0. intros fuel' Hfuel.
  destruct (Hok fuel' Hfuel) as (h' & cs' & Hr & Hkids & Hcs' & _ & _ & Hroot
                                 & _ & _ & Hks).
  exists h'. split; [exact Hr|]. split.
  - rewrite Hkids. vm_compute in Hcs'. injection Hcs' as <-. reflexivity.
  - apply Hroot. apply rtc_once.
    specialize (Hks 1 ltac:(lia)).
    destruct (h' !! 1) as [x|] eqn:Hx; [|discriminate]. exists x.
    split; [exact Hx|].
    assert (Hc : chain !! 1 = Some (mk_node (Some 0) (Some 0) (Some [2])))
      by (vm_compute; reflexivity).
    rewrite Hc in Hks. simpl in Hks. injection Hks as Hks.
    unfold children. rewrite Hks. left.
Defined.

Lemma attach_then_remove fuel h self child nd cd cs cs' :
  h !! self = Some nd → _children nd = Some cs →
  h !! child = Some cd → child ≠ self →
  _parent cd = None → _root cd = None → children cd = [] →
  child ∈ cs' → list_remove child cs' = Some cs →
  ∃ h1, attach (S fuel) self child (<[self := set_children nd (Some cs')]> h)
        = Ret h1
        ∧ child_of h1 self child
        ∧ parent h1 child = Some (Some self)
        ∧ remove (S fuel) h1 self child = Ret h.
Proof.
  intros Hself Hcs Hchild Hne Hpar Hroot Hkids Hin Hrm.
  unfold attach, update.
  rewrite lookup_insert_ne by congruence. rewrite Hchild. cbn [bind].
  unfold root at 1. rewrite lookup_insert_ne by congruence.
  rewrite lookup_insert_eq. cbn [_set_root].
  rewrite lookup_insert_eq.
  replace (children (set_parent cd (Some self))) with (@nil nat)
    by (symmetry; exact Hkids).
  cbn [for_each]. eexists. split; [reflexivity|].
  rewrite insert_insert_eq.
  set (r := default self (_root (set_children nd (Some cs')))).
  split; [|split].
  - exists (set_children nd (Some cs')).
    split; [|exact Hin].
    rewrite lookup_insert_ne by congruence. apply lookup_insert_eq.
  - unfold parent. rewrite lookup_insert_eq. reflexivity.
  - unfold remove. rewrite lookup_insert_ne by congruence.
    rewrite lookup_insert_eq. cbn [_children set_children].
    rewrite Hrm. unfold detach, update.
    rewrite lookup_insert_ne by congruence. rewrite lookup_insert_eq.
    cbn [bind _set_root]. rewrite lookup_insert_eq.
    replace (children (set_parent (set_root (set_parent cd (Some self))
                                            (Some r)) None))
      with (@nil nat) by (symmetry; exact Hkids).
    cbn [for_each]. f_equal. apply map_eq. intros k.
    rewrite !lookup_insert.
    destruct (decide (child = k)) as [<-|_].
    + rewrite Hchild. destruct cd as [p rt ks]. simpl in *. subst.
      reflexivity.
    + destruct (decide (self = k)) as [<-|_]; [|reflexivity].
      rewrite Hself. destruct nd as [p rt ks]. simpl in *. subst.
      reflexivity.
Qed.

(** A node that has no parent, no children and no root pointer, and is
    not among the children of [self], can be added, or inserted at any
    index that fits a C [ssize_t], and removed again: the heap is then
    exactly the one before the two calls. *)
Theorem add_then_remove fuel h self child nd cd cs :
  h !! self = Some nd → _children nd = Some cs →
  h !! child = Some cd → child ≠ self → child ∉ cs →
  _parent cd = None → _root cd = None → children cd = [] →
  (∃ h1, add (S fuel) h self child = Ret h1
         ∧ child_of h1 self child
         ∧ parent h1 child = Some (Some self)
         ∧ remove (S fuel) h1 self child = Ret h)
  ∧ (∀ index,
       (- 2 ^ 63 ≤ index < 2 ^ 63)%Z →
       ∃ h1, insert (S fuel) h self index child = Ret h1
             ∧ child_of h1 self child
             ∧ parent h1 child = Some (Some self)
             ∧ remove (S fuel) h1 self child = Ret h).
Proof.
  intros Hself Hcs Hchild Hne Hnin Hpar Hroot Hkids. split.
  - unfold add. rewrite Hself, Hcs.
    apply (attach_then_remove fuel h self child nd cd cs); auto.
    + apply elem_of_app. right. left.
    + pose proof (list_remove_inserted child (length cs) cs Hnin) as H.
      rewrite firstn_all, drop_all in H. exact H.
  - intros index Hfits. apply fits_ssize_t_range in Hfits.
    pose proof (list_insert_at_position index child cs Hfits) as Hins.
    unfold insert. rewrite Hself, Hcs, Hins.
    apply (attach_then_remove fuel h self child nd cd cs); auto.
    + apply (list_insert_at_elem _ _ _ _ _ Hins). left. reflexivity.
    + apply list_remove_inserted, Hnin.
Qed.

Lemma add_then_remove_witness :
  (∃ h1, add 1 (list_to_map [(0, mk_node None None (Some []));
                             (1, fresh_node)]) 0 1 = Ret h1
         ∧ child_of h1 0 1
         ∧ parent h1 1 = Some (Some 0)
         ∧ remove 1 h1 0 1
           = Ret (list_to_map [(0, mk_node None None (Some []));
                               (1, fresh_node)]))
  ∧ (∃ h1, insert 1 (list_to_map [(0, mk_node None None (Some []));
                                  (1, fresh_node)]) 0 (-1) 1 = Ret h1
           ∧ child_of h1 0 1
           ∧ parent h1 1 = Some (Some 0)
           ∧ remove 1 h1 0 1
             = Ret (list_to_map [(0, mk_node None None (Some []));
                                 (1, fresh_node)])).
Proof.
  destruct (add_then_remove 0
              (list_to_map [(0, mk_node None None (Some [])); (1, fresh_node)])
              0 1 (mk_node None None (Some [])) fresh_node [])
    as (Hadd & Hins); try reflexivity; [lia|apply not_elem_of_nil|].
  split; [exact Hadd|]. apply Hins. lia.
Defined.

(** The round trip stops at a child that has children of its own:
    [remove] leaves them reporting themselves as root, where before the
    [add] they reported the child. *)
Example add_then_remove_below :
  ∃ h h1 h2,
    run pre_attach 3 (three_nodes ++ [OpAdd 1 2]) ∅ = Some h
    ∧ add 2 h 0 1 = Ret h1 ∧ remove 2 h1 0 1 = Ret h2
    ∧ root h 2 = Some 1 ∧ root h1 2 = Some 0 ∧ root h2 2 = Some 2.
Proof.
  do 3 eexists. split; [vm_compute; reflexivity|].
  split; [vm_compute; reflexivity|]. split; [vm_compute; reflexivity|].
  repeat split.
Qed.

(** ** [clear] *)

Lemma height_le_reaches h a n k :
  height_le h a k → reaches h a n → height_le h n k.
Proof.
  intros Hk Hr. revert k Hk. induction Hr as [a|a b n Hab _ IH]; intros k Hk.
  - exact Hk.
  - apply IH. inversion Hk as [? k' Hkids]; subst.
    eapply height_le_mono; [apply Hkids, Hab|lia].
Qed.

Lemma no_cycle h k : ∀ p c,
  height_le h p k → child_of h p c → ¬ reaches h c p.
Proof.
  induction k as [|k IH]; intros p c Hk Hco Hr; [inversion Hk|].
  apply (IH p c); [|exact Hco|exact Hr].
  inversion Hk as [? k' Hkids]; subst.
  eapply height_le_reaches; [apply Hkids, Hco|exact Hr].
Qed.

Lemma detach_loop_roots h K fuel :
  closed h → K ≤ fuel →
  ∀ l g g', (∀ c, c ∈ l → is_Some (h !! c) ∧ height_le h c K) →
  same_kids h g → for_each l (detach fuel) g = Ret g' →
  ∀ m, ((∃ c, c ∈ l ∧ reaches h c m)
        ∧ _root <$> g' !! m = (fun _ => None) <$> g !! m)
       ∨ (¬ (∃ c, c ∈ l ∧ reaches h c m)
          ∧ _root <$> g' !! m = _root <$> g !! m).
Proof.
  intros Hcl Hfuel. induction l as [|c l IH]; intros g g' Hl Hk Hrun m.
  { injection Hrun as <-. right. split; [|reflexivity].
    intros (c & Hc & _). apply elem_of_nil in Hc as []. }
  destruct (Hl c) as [Hc Hh]; [left|].
  destruct (same_kids_is_Some _ _ _ Hk Hc) as [cdg Hcdg].
  simpl in Hrun. unfold detach at 1, update in Hrun. rewrite Hcdg in Hrun.
  simpl in Hrun.
  set (g1 := <[c := set_parent cdg None]> g) in *.
  assert (Hk1 : same_kids g g1).
  { intros n. unfold g1. rewrite lookup_insert.
    destruct (decide (c = n)) as [<-|?]; [rewrite Hcdg|]; reflexivity. }
  assert (Hr1 : ∀ n, _root <$> g1 !! n = _root <$> g !! n).
  { intros n. unfold g1. rewrite lookup_insert.
    destruct (decide (c = n)) as [<-|?]; [rewrite Hcdg|]; reflexivity. }
  destruct (_set_root_ok K h c Hcl Hh Hc fuel None g1 Hfuel
              (same_kids_trans _ _ _ Hk Hk1)) as (g2 & Hg2 & Hw).
  rewrite Hg2 in Hrun. simpl in Hrun.
  assert (Hk2 : same_kids h g2).
  { eapply same_kids_trans; [exact Hk|]. eapply same_kids_trans; [exact Hk1|].
    eapply written_kids, Hw. }
  specialize (IH g2 g' (fun c' Hc' => Hl c' (list_elem_of_further _ _ _ Hc'))
                Hk2 Hrun m).
  specialize (Hr1 m).
  destruct (Hw m) as [[Hin Hm]|[Hout Hm]];
    destruct IH as [[(c' & Hc' & Hin') IH]|[Hout' IH]]; rewrite IH, Hm.
  - left. split; [exists c; split; [left|exact Hin]|].
    destruct (g1 !! m), (g !! m); simpl in *; congruence.
  - left. split; [exists c; split; [left|exact Hin]|].
    destruct (g1 !! m), (g !! m); simpl in *; congruence.
  - left. split; [exists c'; split; [right; exact Hc'|exact Hin']|].
    destruct (g1 !! m), (g !! m); simpl in *; congruence.
  - right. split; [|exact Hr1].
    intros (c' & Hc' & Hin'). apply elem_of_cons in Hc' as [->|Hc'].
    + contradiction.
    + apply Hout'. exists c'. auto.
Qed.

(** [clear] on a node that can have children empties its children;
    every former child is left without a parent, every node that was
    below [self] then reports itself as its root, and the other nodes
    keep their parent, their children and their root. *)
Theorem clear_detaches_all fuel ops h self nd cs :
  run pre_attach fuel ops ∅ = Some h →
  h !! self = Some nd → _children nd = Some cs →
  ∃ fuel0, ∀ fuel', fuel0 ≤ fuel' →
  ∃ h', clear fuel' h self = Ret h'
    ∧ (_children <$> h' !! self) = Some (Some [])
    ∧ (∀ c, c ∈ cs → parent h' c = Some None)
    ∧ (∀ c m, c ∈ cs → reaches h c m → root h' m = Some m)
    ∧ (∀ m, ¬ (∃ c, c ∈ cs ∧ reaches h c m) → root h' m = root h m)
    ∧ (∀ m, m ∉ cs → parent h' m = parent h m)
    ∧ (∀ m, m ≠ self → _children <$> h' !! m = _children <$> h !! m).
Proof.
  intros Hrun Hself Hcs.
  pose proof (run_pre_attach _ _ _ _ wf_empty Hrun) as Hwf.
  pose proof (children_Some _ _ Hcs) as Hch.
  destruct (wf_height h Hwf self) as [k Hk].
  destruct k as [|K]; [inversion Hk|].
  assert (Hkids : ∀ c, child_of h self c → height_le h c K)
    by (inversion Hk; assumption).
  assert (Hl : ∀ c, c ∈ cs → is_Some (h !! c) ∧ height_le h c K).
  { intros c Hc. assert (Hco : child_of h self c)
      by (exists nd; rewrite Hch; auto).
    split; [apply (wf_closed _ Hwf self c Hco)|apply Hkids, Hco]. }
  exists K. intros fuel' Hfuel. unfold clear. rewrite Hself, Hcs.
  destruct (detach_loop h K fuel' (wf_closed _ Hwf) Hfuel cs h Hl
              (same_kids_refl h)) as (g' & Hg' & Hk' & Hpar & _).
  pose proof (detach_loop_roots h K fuel' (wf_closed _ Hwf) Hfuel cs h g' Hl
                (same_kids_refl h) Hg') as Hroots.
  rewrite Hg'. cbn [bind]. unfold update.
  destruct (same_kids_lookup _ _ _ _ Hk' Hself) as (x & Hx & Hxk).
  rewrite Hx. eexists. split; [reflexivity|].
  assert (Hself_out : ¬ (∃ c, c ∈ cs ∧ reaches h c self)).
  { intros (c & Hc & Hr). apply (no_cycle h (S K) self c); auto.
    exists nd. rewrite Hch. split; [exact Hself|exact Hc]. }
  assert (Hnotin : self ∉ cs).
  { intros Hin. apply Hself_out. exists self. split; [exact Hin|apply rtc_refl]. }
  split; [rewrite lookup_insert_eq; reflexivity|].
  split; [|split; [|split; [|split]]].
  - intros c Hc. unfold parent.
    rewrite lookup_insert_ne by (intros <-; contradiction).
    rewrite Hpar. destruct (Hl c Hc) as [[y ->] _]. simpl.
    rewrite decide_True by exact Hc. reflexivity.
  - intros c m Hc Hm.
    assert (Hne : self ≠ m).
    { intros <-. apply Hself_out. eauto. }
    assert (Hal : is_Some (h !! m)).
    { eapply reaches_allocated; [apply wf_closed, Hwf| |exact Hm].
      apply Hl, Hc. }
    unfold root. rewrite lookup_insert_ne by exact Hne.
    destruct (Hroots m) as [[_ Hm']|[Hout _]]; [|destruct Hout; eauto].
    destruct Hal as [y Hy]. rewrite Hy in Hm'.
    destruct (g' !! m) as [z|]; [|discriminate]. simpl in Hm'.
    injection Hm' as ->. reflexivity.
  - intros m Hout. destruct (Hroots m) as [[Hin _]|[_ Hm']]; [contradiction|].
    unfold root. rewrite lookup_insert.
    destruct (decide (self = m)) as [<-|_].
    + rewrite Hx, Hself in *. simpl in *. injection Hm' as ->. reflexivity.
    + destruct (g' !! m), (h !! m); simpl in *; congruence.
  - intros m Hm. unfold parent. rewrite lookup_insert.
    pose proof (Hpar m) as Hp.
    destruct (decide (self = m)) as [<-|_].
    + rewrite Hx, Hself in *. simpl in *.
      rewrite decide_False in Hp by exact Hm. exact Hp.
    + rewrite Hp. destruct (h !! m); [|reflexivity]. simpl.
      rewrite decide_False by exact Hm. reflexivity.
  - intros m Hm. rewrite lookup_insert_ne by congruence.
    symmetry. apply Hk'.
Qed.

Lemma clear_detaches_all_witness :
  (run pre_attach 3 chain_ops ∅ = Some chain)
  ∧ ∃ fuel0, ∀ fuel', fuel0 ≤ fuel' →
    ∃ h', clear fuel' chain 0 = Ret h'
      ∧ (_children <$> h' !! 0) = Some (Some [])
      ∧ parent h' 1 = Some None.
Proof.
  split; [vm_compute; reflexivity|].
  destruct (clear_detaches_all 3 chain_ops chain 0
              (mk_node None None (Some [1])) [1]) as (fuel0 & Hok);
    try (vm_compute; reflexivity).
  exists fuel0. intros fuel' Hfuel.
  destruct (Hok fuel' Hfuel) as (h' & Hc & Hkids & Hpar & _).
  exists h'. split; [exact Hc|]. split; [exact Hkids|]. apply Hpar. left.
Defined.

(** ** The constructor *)

Lemma parentless_parent h c : parentless h c = true ↔ parent h c = Some None.
Proof.
  unfold parentless, parent. destruct (h !! c) as [cd|]; simpl.
  - destruct (_parent cd); split; congruence.
  - split; discriminate.
Qed.

Lemma root_not_below h self c :
  wf h → parent h self = Some None → c ≠ self → ¬ reaches h c self.
Proof.
  intros Hwf Hp Hne Hr.
  apply rtc_inv_r in Hr as [->|(m & _ & Hm)]; [congruence|].
  destruct (wf_down h Hwf m self Hm) as (x & Hx & Hxp).
  unfold parent in Hp. rewrite Hx in Hp. simpl in Hp. congruence.
Qed.

Lemma child_of_added h h1 self c done :
  (_children <$> h !! self) = Some (Some done) →
  (_children <$> h1 !! self) = Some (Some (done ++ [c])) →
  (∀ m, m ≠ self → _children <$> h1 !! m = _children <$> h !! m) →
  ∀ p x, child_of h1 p x ↔ child_of h p x ∨ (p = self ∧ x = c).
Proof.
  intros Hk Hk1 Hks p x. unfold child_of.
  destruct (decide (p = self)) as [->|Hne].
  - destruct (h !! self) as [nd|], (h1 !! self) as [nd1|];
      simpl in *; try discriminate.
    injection Hk as Hk. injection Hk1 as Hk1. split.
    + intros (y & [= <-] & Hx). unfold children in Hx. rewrite Hk1 in Hx.
      simpl in Hx. apply elem_of_app in Hx as [Hx|Hx].
      * left. exists nd. split; [reflexivity|]. unfold children.
        rewrite Hk. exact Hx.
      * right. apply list_elem_of_singleton in Hx. auto.
    + intros H. exists nd1. split; [reflexivity|]. unfold children.
      rewrite Hk1. simpl. apply elem_of_app.
      destruct H as [(y & [= <-] & Hx)|[_ ->]].
      * left. unfold children in Hx. rewrite Hk in Hx. exact Hx.
      * right. left.
  - specialize (Hks p Hne). split.
    + intros (y & Hy & Hx). left. rewrite Hy in Hks.
      destruct (h !! p) as [z|]; [|discriminate]. simpl in Hks.
      injection Hks as Hks. exists z. split; [reflexivity|].
      unfold children in *. rewrite <- Hks. exact Hx.
    + intros [(y & Hy & Hx)|[-> _]]; [|contradiction]. rewrite Hy in Hks.
      destruct (h1 !! p) as [z|]; [|discriminate]. simpl in Hks.
      injection Hks as Hks. exists z. split; [reflexivity|].
      unfold children in *. rewrite Hks. exact Hx.
Qed.

Lemma reaches_before_added h h1 self c a :
  (∀ p x, child_of h1 p x ↔ child_of h p x ∨ (p = self ∧ x = c)) →
  ¬ reaches h a self → ∀ n, reaches h1 a n ↔ reaches h a n.
Proof.
  intros Hco Hfar n. split.
  - unfold reaches. revert n.
    apply (rtc_ind_r (fun n => rtc (child_of h) a n)); [apply rtc_refl|].
    intros m n _ Hmn IH. apply Hco in Hmn as [Hmn|[-> _]].
    + eapply rtc_r; [exact IH|exact Hmn].
    + destruct Hfar. exact IH.
  - intros Hr. induction Hr as [|a b n Hab _ IH]; [apply rtc_refl|].
    eapply rtc_l; [apply Hco; left; exact Hab|]. apply IH.
    intros Hb. apply Hfar. eapply rtc_l; [exact Hab|exact Hb].
Qed.

Lemma init_children self : ∀ cs h done,
  wf h → parent h self = Some None → root h self = Some self →
  (_children <$> h !! self) = Some (Some done) →
  (∀ c, c ∈ cs → parentless h c = true ∧ c ≠ self) → NoDup cs →
  ∃ fuel0, ∀ fuel, fuel0 ≤ fuel →
  ∃ h', for_each cs (fun child g => add fuel g self child) h = Ret h'
    ∧ (_children <$> h' !! self) = Some (Some (done ++ cs))
    ∧ parent h' self = Some None ∧ root h' self = Some self
    ∧ (∀ c, c ∈ cs → parent h' c = Some (Some self))
    ∧ (∀ n, ((∃ c, c ∈ cs ∧ reaches h c n) ∧ root h' n = Some self)
            ∨ (¬ (∃ c, c ∈ cs ∧ reaches h c n) ∧ root h' n = root h n))
    ∧ (∀ m, m ∉ cs → parent h' m = parent h m)
    ∧ (∀ m, m ≠ self → _children <$> h' !! m = _children <$> h !! m).
Proof.
  induction cs as [|c cs IH]; intros h done Hwf Hp Hr Hk Hcs Hnd.
  { exists 0. intros fuel _. exists h. rewrite app_nil_r.
    split; [reflexivity|]. do 3 (split; [assumption|]).
    split; [intros c Hc; inversion Hc|].
    split; [|auto]. intros n. right. split; [|reflexivity].
    intros (c & Hc & _). inversion Hc. }
  apply NoDup_cons in Hnd as [Hc Hnd].
  destruct (Hcs c ltac:(left)) as [Hpc Hne].
  pose proof Hpc as Hpc'. apply parentless_parent in Hpc'.
  unfold parent in Hpc'.
  destruct (h !! c) as [cd|] eqn:Hcd; [|discriminate].
  simpl in Hpc'. injection Hpc' as Hpar.
  destruct (h !! self) as [nd|] eqn:Hself; [|discriminate].
  simpl in Hk. injection Hk as Hk.
  pose proof Hp as Hp0.
  pose proof (root_not_below h self c Hwf Hp0 Hne) as Hfar.
  assert (Hnin : c ∉ done).
  { intros Hin. apply (parentless_not_child h self c cd Hwf Hcd Hpar).
    exists nd. rewrite (children_Some _ _ Hk). auto. }
  destruct (attach_effect h self c nd cd done (done ++ [c])
              Hwf Hself Hk Hcd Hpar Hfar) as (fuel1 & Hok1).
  { intros x. rewrite elem_of_app, list_elem_of_singleton. tauto. }
  { apply NoDup_app. split; [|split].
    - pose proof (wf_nodup h Hwf self nd Hself) as H.
      rewrite (children_Some _ _ Hk) in H. exact H.
    - intros x Hx Hx'. apply list_elem_of_singleton in Hx' as ->. auto.
    - apply NoDup_singleton. }
  destruct (Hok1 fuel1 ltac:(lia))
    as (h1 & Hadd1 & K1 & P1 & Rin1 & Rout1 & Ps1 & Ks1 & Hwf1 & Hdec1).
  assert (Hadd : add fuel1 h self c = Ret h1).
  { unfold add. rewrite Hself, Hk. exact Hadd1. }
  assert (Hco : ∀ p x, child_of h1 p x ↔ child_of h p x ∨ (p = self ∧ x = c)).
  { apply (child_of_added h h1 self c done);
      [rewrite Hself; simpl; rewrite Hk; reflexivity|exact K1|exact Ks1]. }
  destruct (IH h1 (done ++ [c]) Hwf1) as (fuel2 & Hok2);
    [rewrite Ps1 by congruence; exact Hp0
    |rewrite (Rout1 self Hfar); exact Hr
    |exact K1| |exact Hnd|].
  { intros c' Hc'. destruct (Hcs c' ltac:(right; exact Hc')) as [Hp' Hne'].
    split; [|exact Hne']. apply parentless_parent.
    rewrite Ps1 by (intros ->; contradiction).
    apply parentless_parent, Hp'. }
  exists (fuel1 `max` fuel2). intros fuel Hfuel. cbn [for_each].
  rewrite (add_mono fuel1 fuel) by (first [rewrite Hadd; exact I|lia]).
  rewrite Hadd. cbn [bind].
  destruct (Hok2 fuel ltac:(lia))
    as (h' & -> & K2 & P2 & R2 & Pc2 & Roots2 & Ps2 & Ks2).
  exists h'. split; [reflexivity|].
  split; [rewrite K2, <- app_assoc; reflexivity|].
  split; [exact P2|]. split; [exact R2|]. split; [|split; [|split]].
  - intros c' Hc'. apply elem_of_cons in Hc' as [->|Hc']; [|apply Pc2, Hc'].
    rewrite Ps2 by exact Hc. exact P1.
  - intros n.
    assert (Hsame : ∀ c', c' ∈ cs → reaches h1 c' n ↔ reaches h c' n).
    { intros c' Hc'. apply (reaches_before_added h h1 self c c' Hco).
      apply (root_not_below h self c' Hwf Hp0).
      apply (Hcs c' ltac:(right; exact Hc')). }
    pose proof Hr as Hroot.
    destruct (Roots2 n) as [[(c' & Hc' & Hn) Hrn]|[Hout Hrn]].
    + left. split; [|exact Hrn]. exists c'. split; [right; exact Hc'|].
      apply Hsame; assumption.
    + destruct (Hdec1 n) as [Hin|Hnot].
      * left. split; [exists c; split; [left|exact Hin]|].
        rewrite Hrn, (Rin1 n Hin). exact Hroot.
      * right. split; [|rewrite Hrn; apply Rout1, Hnot].
        intros (c' & Hc' & Hn). apply elem_of_cons in Hc' as [->|Hc'];
          [contradiction|].
        apply Hout. exists c'. split; [exact Hc'|]. apply Hsame; assumption.
  - intros m Hm. apply not_elem_of_cons in Hm as [Hmc Hm].
    rewrite Ps2 by exact Hm. apply Ps1, Hmc.
  - intros m Hm. rewrite Ks2 by exact Hm. apply Ks1, Hm.
Qed.



End TreeFacts.

(* ===================================================================== *)
(** * declaration.py: names, validation and the mapping interface *)
(* ===================================================================== *)

Module StyleFacts.
Import Declaration DeclarationFacts Mapping.

(** ** Strings *)

Lemma replace_hyphens_idem name :
  replace_hyphens (replace_hyphens name) = replace_hyphens name.
Proof.
  induction name as [|c rest IH]; simpl; [reflexivity|].
  rewrite IH. destruct (Ascii.eqb c "-") eqn:E; [reflexivity|].
  rewrite E. reflexivity.
Qed.

Lemma lstrip_idem s : lstrip (lstrip s) = lstrip s.
Proof.
  induction s as [|c s IH]; simpl; [reflexivity|].
  destruct (is_space c) eqn:E; [exact IH|]. simpl. rewrite E. reflexivity.
Qed.

Lemma lstrip_length s : String.length (lstrip s) ≤ String.length s.
Proof.
  induction s as [|c s IH]; simpl; [lia|].
  destruct (is_space c); simpl; lia.
Qed.

Lemma lstrip_fixed c s : lstrip (String c s) = String c s → is_space c = false.
Proof.
  simpl. destruct (is_space c); [|reflexivity]. intros H.
  pose proof (lstrip_length s) as Hl. rewrite H in Hl. simpl in Hl. lia.
Qed.

Lemma append_cons c (s t : string) :
  (String c s ++ t)%string = String c (s ++ t)%string.
Proof. reflexivity. Qed.

Lemma append_nil_l (t : string) : ("" ++ t)%string = t.
Proof. reflexivity. Qed.

Lemma append_nil_r (s : string) : (s ++ "")%string = s.
Proof.
  induction s as [|c s IH]; [reflexivity|]. rewrite append_cons, IH.
  reflexivity.
Qed.

Lemma append_assoc (s t u : string) :
  ((s ++ t) ++ u)%string = (s ++ (t ++ u))%string.
Proof.
  induction s as [|c s IH]; [reflexivity|]. rewrite !append_cons, IH.
  reflexivity.
Qed.

Lemma string_rev_onto_app s : ∀ acc,
  string_rev_onto s acc = (string_rev s ++ acc)%string.
Proof.
  unfold string_rev. induction s as [|c s IH]; intros acc; [reflexivity|].
  cbn [string_rev_onto].
  rewrite IH, (IH (String c "")), append_assoc. reflexivity.
Qed.

Lemma string_rev_onto_twice s : ∀ acc acc',
  string_rev_onto (string_rev_onto s acc) acc'
  = string_rev_onto acc (s ++ acc')%string.
Proof.
  induction s as [|c s IH]; intros acc acc'; [reflexivity|].
  cbn [string_rev_onto]. rewrite IH. reflexivity.
Qed.

Lemma string_rev_involutive s : string_rev (string_rev s) = s.
Proof.
  unfold string_rev. rewrite string_rev_onto_twice. cbn [string_rev_onto].
  apply append_nil_r.
Qed.

Lemma string_rev_cons c s :
  string_rev (String c s) = (string_rev s ++ String c "")%string.
Proof.
  unfold string_rev at 1. cbn [string_rev_onto].
  apply string_rev_onto_app.
Qed.

Lemma string_rev_app s t :
  string_rev (s ++ t) = (string_rev t ++ string_rev s)%string.
Proof.
  induction s as [|c s IH].
  - rewrite append_nil_l. change (string_rev "") with ""%string.
    rewrite append_nil_r. reflexivity.
  - rewrite append_cons, !string_rev_cons, IH, append_assoc. reflexivity.
Qed.

Lemma lstrip_app u v :
  lstrip (u ++ v)
  = match lstrip u with
    | EmptyString => lstrip v
    | w => (w ++ v)%string
    end.
Proof.
  induction u as [|c u IH]; [reflexivity|].
  rewrite append_cons. cbn [lstrip].
  destruct (is_space c); [exact IH|reflexivity].
Qed.

Lemma rstrip_cons c t :
  is_space c = false → ∃ r, rstrip (String c t) = String c r.
Proof.
  intros Hc. unfold rstrip. rewrite string_rev_cons, lstrip_app.
  destruct (lstrip (string_rev t)) as [|d w].
  - cbn [lstrip]. rewrite Hc. exists ""%string. reflexivity.
  - rewrite string_rev_app. exists (string_rev (String d w)). reflexivity.
Qed.

Lemma rstrip_idem s : rstrip (rstrip s) = rstrip s.
Proof.
  unfold rstrip. rewrite string_rev_involutive, lstrip_idem. reflexivity.
Qed.

Lemma lstrip_rstrip t : lstrip t = t → lstrip (rstrip t) = rstrip t.
Proof.
  destruct t as [|c t]; [reflexivity|]. intros H.
  pose proof (lstrip_fixed _ _ H) as Hc.
  destruct (rstrip_cons c t Hc) as (r & ->). simpl. rewrite Hc. reflexivity.
Qed.

(** [strip] leaves a stripped string as it is. *)
Lemma strip_idem s : strip (strip s) = strip s.
Proof.
  unfold strip. rewrite (lstrip_rstrip (lstrip s)) by apply lstrip_idem.
  apply rstrip_idem.
Qed.

(** ** Names *)

Lemma declared c name x :
  class_attr c name = Some x → bool_decide (name ∈ _ALL_PROPERTIES c) = true.
Proof.
  intros H. apply bool_decide_eq_true. eapply class_attr_Some, H.
Qed.

Lemma getitem_by_name fuel c s name p :
  class_attr c (replace_hyphens name) = Some (Validated p) →
  getitem (S fuel) c s name = Ret s (vp_get p s).
Proof. intros H. cbn [getitem]. rewrite (declared _ _ _ H), H. reflexivity. Qed.

Lemma setitem_by_name fuel B c s name p v :
  class_attr c (replace_hyphens name) = Some (Validated p) →
  setitem (S fuel) B c s name v = vp_set B p s v.
Proof. intros H. cbn [setitem]. rewrite (declared _ _ _ H), H. reflexivity. Qed.

Lemma delitem_by_name fuel c s name p :
  class_attr c (replace_hyphens name) = Some (Validated p) →
  delitem (S fuel) c s name = vp_delete p s.
Proof. intros H. cbn [delitem]. rewrite (declared _ _ _ H), H. reflexivity. Qed.

Lemma primary_attr c p :
  class_ok c = true → p ∈ primaries c →
  class_attr c (vp_name p) = Some (Validated p).
Proof.
  intros Hok Hp. apply primaries_elem in Hp.
  apply (class_attr_in c (Validated p) (class_ok_nodup _ Hok) Hp).
Qed.

Lemma primary_name_free c p :
  class_ok c = true → p ∈ primaries c → replace_hyphens (vp_name p) = vp_name p.
Proof.
  intros Hok Hp. eapply class_attr_replace; [exact Hok|].
  apply primary_attr; assumption.
Qed.

Lemma distinct_keys c p q :
  class_ok c = true → p ∈ primaries c → q ∈ primaries c → p ≠ q →
  storage_key (vp_name q) ≠ storage_key (vp_name p).
Proof.
  intros Hok Hp Hq Hne E. injection E as E.
  pose proof (primary_attr c p Hok Hp) as H1.
  pose proof (primary_attr c q Hok Hq) as H2.
  rewrite E in H2. congruence.
Qed.

(** Names are normalised before they are looked up.  A name with
    hyphens and the same name with underscores are the same key for
    reading, writing, deleting and [update].  When the normalised name
    is not a property of the class, reading, writing and deleting raise
    [KeyError] and [update] raises [NameError], each with the
    normalised name and leaving the style as it is, and the name is not
    [in] the style. *)
Theorem names_are_normalised fuel B c s name v :
  getitem fuel c s name = getitem fuel c s (replace_hyphens name)
  ∧ setitem fuel B c s name v = setitem fuel B c s (replace_hyphens name) v
  ∧ delitem fuel c s name = delitem fuel c s (replace_hyphens name)
  ∧ update fuel B c s [(name, v)]
    = update fuel B c s [(replace_hyphens name, v)]
  ∧ (replace_hyphens name ∉ _ALL_PROPERTIES c →
     getitem (S fuel) c s name = Raise s (KeyError (replace_hyphens name))
     ∧ setitem (S fuel) B c s name v
       = Raise s (KeyError (replace_hyphens name))
     ∧ delitem (S fuel) c s name = Raise s (KeyError (replace_hyphens name))
     ∧ update fuel B c s [(name, v)]
       = Raise s (NameError (replace_hyphens name))
     ∧ contains fuel c s (replace_hyphens name) = Ret s false).
Proof.
  split; [|split; [|split; [|split]]].
  - destruct fuel; [reflexivity|]. cbn [getitem].
    rewrite replace_hyphens_idem. reflexivity.
  - destruct fuel; [reflexivity|]. cbn [setitem].
    rewrite replace_hyphens_idem. reflexivity.
  - destruct fuel; [reflexivity|]. cbn [delitem].
    rewrite replace_hyphens_idem. reflexivity.
  - unfold update. cbn [for_each]. rewrite replace_hyphens_idem. reflexivity.
  - intros H.
    assert (H' : bool_decide (replace_hyphens name ∈ _ALL_PROPERTIES c)
                 = false)
      by (apply bool_decide_eq_false; exact H).
    cbn [getitem setitem delitem]. unfold update, contains. cbn [for_each].
    rewrite H'. auto.
Qed.

Lemma names_are_normalised_witness :
  getitem 1 Box empty_style "font-size" = Raise empty_style (KeyError "font_size")
  ∧ update 0 plain_builtins Box empty_style [("font-size", VInt 12)]
    = Raise empty_style (NameError "font_size").
Proof.
  destruct (names_are_normalised 0 plain_builtins Box empty_style "font-size"
              (VInt 12)) as (_ & _ & _ & _ & H).
  destruct H as (Hg & _ & _ & Hu & _).
  { vm_compute. intros H. repeat (apply elem_of_cons in H as [H|H];
                                     [discriminate|]).
    apply elem_of_nil in H as []. }
  split; [exact Hg|exact Hu].
Defined.

(** ** Writing and reading back *)

Lemma vp_set_effect B p s x n :
  normalises B p x n →
  ∃ s1, vp_set B p s x = Ret s1 tt
    ∧ (∃ r, attrs s1 !! storage_key (vp_name p) = Some r ∧ r ≠ VNone
            ∧ same_value r n)
    ∧ (attrs s !! storage_key (vp_name p) = None →
       attrs s1 !! storage_key (vp_name p) = Some n)
    ∧ (∀ key, key ≠ storage_key (vp_name p) → attrs s1 !! key = attrs s !! key)
    ∧ applied s1
      = applied s
        ++ (if py_ne n (getattr_or_None s (storage_key (vp_name p)))
            then [(vp_name p, n)] else []).
Proof.
  intros (Hx & Hn & Hd & Hv). rewrite (vp_set_accepted B p s x n Hd Hx Hv).
  destruct (py_ne n (getattr_or_None s (storage_key (vp_name p)))) eqn:E.
  - eexists. split; [reflexivity|]. simpl.
    split; [exists n; rewrite lookup_insert_eq; split; [reflexivity|];
            split; [exact Hn|left; reflexivity]|].
    split; [intros _; apply lookup_insert_eq|].
    split; [|reflexivity].
    intros key Hkey. apply lookup_insert_ne. congruence.
  - exists s. split; [reflexivity|].
    unfold py_ne in E. apply negb_false_iff in E. unfold getattr_or_None in E.
    destruct (attrs s !! storage_key (vp_name p)) as [r|] eqn:Hr; simpl in E.
    + split.
      { exists r. split; [reflexivity|]. split; [|right; exact E].
        intros ->. apply py_eq_None_r in E. contradiction. }
      split; [discriminate|]. split; [reflexivity|].
      rewrite app_nil_r. reflexivity.
    + apply py_eq_None_r in E. contradiction.
Qed.

(** After a write that the property takes, by attribute or under either
    spelling of the name: reading gives the stored form of the value
    (or an equal value that was stored before), the property is [in]
    the style (also when the value equals the initial one), [apply] was
    called once with the stored form or not at all, and the other
    properties read as before. *)
Theorem write_then_read fuel B c s name p x n :
  class_ok c = true →
  class_attr c (replace_hyphens name) = Some (Validated p) →
  normalises B p x n →
  ∃ s1 r,
    setitem (S fuel) B c s name x = Ret s1 tt
    ∧ getitem (S fuel) c s1 name = Ret s1 r
    ∧ same_value r n
    ∧ contains fuel c s1 (replace_hyphens name) = Ret s1 true
    ∧ (applied s1 = applied s ∨ applied s1 = applied s ++ [(vp_name p, n)])
    ∧ (∀ q, q ∈ primaries c → q ≠ p →
            vp_get q s1 = vp_get q s ∧ vp_is_set_on q s1 = vp_is_set_on q s).
Proof.
  intros Hok Hattr Hnorm.
  destruct (vp_set_effect B p s x n Hnorm)
    as (s1 & Hset & (r & Hr & Hrn & Hsame) & _ & Hothers & Happ).
  exists s1, r. rewrite (setitem_by_name _ _ _ _ _ _ _ Hattr).
  rewrite (getitem_by_name _ _ _ _ _ Hattr).
  split; [exact Hset|]. split.
  { rewrite (vp_get_stored p s1 r Hr Hrn). reflexivity. }
  split; [exact Hsame|]. split.
  { unfold contains. rewrite (declared _ _ _ Hattr), Hattr.
    unfold vp_is_set_on. rewrite Hr. reflexivity. }
  split.
  { rewrite Happ. destruct (py_ne _ _); [right; reflexivity|left].
    apply app_nil_r. }
  intros q Hq Hne.
  assert (Hp : p ∈ primaries c).
  { apply primaries_elem. eapply class_attr_Some, Hattr. }
  pose proof (Hothers _ (distinct_keys c p q Hok Hp Hq (not_eq_sym Hne))) as Hk.
  split; [apply vp_get_same_key, Hk|]. unfold vp_is_set_on. rewrite Hk.
  reflexivity.
Qed.

Lemma write_then_read_witness :
  ∃ s1 r,
    setitem 1 plain_builtins Box empty_style "font-family" (VStr " system ")
    = Ret s1 tt
    ∧ getitem 1 Box s1 "font-family" = Ret s1 r
    ∧ same_value r (VStr "system")
    ∧ contains 0 Box s1 "font_family" = Ret s1 true.
Proof.
  destruct (write_then_read 0 plain_builtins Box empty_style "font-family"
              (text_prop "font_family" (VStr "system"))
              (VStr " system ") (VStr "system"))
    as (s1 & r & H1 & H2 & H3 & H4 & _).
  - reflexivity.
  - reflexivity.
  - repeat split; try discriminate; reflexivity.
  - exists s1, r. auto.
Defined.

(** ** Validation *)

Lemma validate_items_Ok B p : ∀ xs rs,
  validate_items B p xs = Ok rs →
  Forall2 (fun x y => Choices_validate B (choices p) x = Ok y) xs rs.
Proof.
  induction xs as [|x xs IH]; intros rs H; simpl in H.
  - injection H as <-. constructor.
  - destruct (Choices_validate B (choices p) x) as [y|e] eqn:Hx;
      [|destruct e; discriminate].
    destruct (validate_items B p xs) as [ys|] eqn:Hys; [|discriminate].
    injection H as <-. constructor; [exact Hx|]. apply IH. reflexivity.
Qed.

(** What a list property takes: a string counts as the list of that one
    string, a tuple counts as the list of its items, the empty sequence
    is refused with [ValueError] and an [ImmutableList] (the form in
    which the property stores and returns its value) with [TypeError];
    what is stored is an [ImmutableList] with one validated item for
    each item given, in the same order, so never an empty one. *)
Theorem list_property_sequences B p :
  is_list p = true →
  (∀ s, validate B p (VStr s) = validate B p (VList [VStr s]))
  ∧ (∀ items, validate B p (VTuple items) = validate B p (VList items))
  ∧ validate B p (VList []) = Err (ValueError (EmptyList (vp_name p)))
  ∧ (∀ items, validate B p (VImm items) = Err (TypeError (vp_name p)))
  ∧ (∀ items r,
       validate B p (VList items) = Ok r →
       ∃ rs, r = VImm rs ∧ rs ≠ []
             ∧ Forall2 (fun x y => Choices_validate B (choices p) x = Ok y)
                       items rs).
Proof.
  intros Hl. unfold validate. rewrite Hl. unfold list_validate.
  do 4 (split; [reflexivity|]).
  intros items r H. destruct items as [|x items]; [discriminate|].
  destruct (validate_items B p (x :: items)) as [rs|] eqn:Hrs; [|discriminate].
  injection H as <-. exists rs. split; [reflexivity|].
  apply validate_items_Ok in Hrs. split; [|exact Hrs].
  intros ->. inversion Hrs.
Qed.

Lemma list_property_sequences_witness :
  validate plain_builtins (text_list_prop "font_family") (VStr "serif")
  = validate plain_builtins (text_list_prop "font_family")
             (VList [VStr "serif"])
  ∧ validate plain_builtins (text_list_prop "font_family")
             (VImm [VStr "serif"])
    = Err (TypeError "font_family").
Proof.
  destruct (list_property_sequences plain_builtins
              (text_list_prop "font_family") eq_refl)
    as (H1 & _ & _ & H2 & _).
  split; [apply H1|apply H2].
Defined.

(** A property that accepts strings takes every string, whatever else
    it accepts, and stores it stripped; the stored form is a value the
    property takes as it is, so writing back what was read changes
    nothing and calls [apply] no more. *)
Theorem strings_come_first B p s x :
  is_list p = false → allow_string (choices p) = true →
  validate B p (VStr x) = Ok (VStr (strip x))
  ∧ accepts B p (VStr (strip x))
  ∧ ∃ s1, vp_set B p s (VStr x) = Ret s1 tt
          ∧ vp_get p s1 = VStr (strip x)
          ∧ vp_set B p s1 (vp_get p s1) = Ret s1 tt.
Proof.
  intros Hl Hs.
  assert (Hv : ∀ y, validate B p (VStr y) = Ok (VStr (strip y))).
  { intros y. unfold validate, scalar_validate, Choices_validate.
    rewrite Hl, Hs. reflexivity. }
  assert (Hacc : accepts B p (VStr (strip x))).
  { repeat split; try discriminate. rewrite Hv, strip_idem. reflexivity. }
  split; [apply Hv|]. split; [exact Hacc|].
  assert (Hnorm : normalises B p (VStr x) (VStr (strip x))).
  { repeat split; try discriminate. apply Hv. }
  destruct (vp_set_effect B p s (VStr x) (VStr (strip x)) Hnorm)
    as (s1 & Hset & (r & Hr & Hrn & Hsame) & _).
  exists s1. split; [exact Hset|].
  assert (Hget : vp_get p s1 = VStr (strip x)).
  { rewrite (vp_get_stored p s1 r Hr Hrn).
    destruct Hsame as [->|Heq]; [reflexivity|].
    destruct r; simpl in Heq; try discriminate.
    apply String.eqb_eq in Heq. congruence. }
  split; [exact Hget|]. rewrite Hget.
  destruct Hacc as (Hx & _ & Hd & Hval).
  rewrite (vp_set_accepted B p s1 _ _ Hd Hx Hval).
  unfold py_ne, getattr_or_None. rewrite Hr.
  assert (E : r = VStr (strip x)).
  { rewrite (vp_get_stored p s1 r Hr Hrn) in Hget. exact Hget. }
  rewrite E. simpl. rewrite String.eqb_refl. reflexivity.
Qed.

Lemma strings_come_first_witness :
  validate plain_builtins
           {| vp_name := "width";
              choices := Choices_init [] true true false false;
              initial := VNone; is_list := false |} (VStr " 12 ")
  = Ok (VStr "12").
Proof.
  apply (strings_come_first plain_builtins
           {| vp_name := "width";
              choices := Choices_init [] true true false false;
              initial := VNone; is_list := false |} empty_style " 12 ");
    reflexivity.
Defined.

(** ** Directional properties *)

Lemma vp_delete_effect p s :
  ∃ s', vp_delete p s = Ret s' tt
    ∧ attrs s' = delete (storage_key (vp_name p)) (attrs s)
    ∧ applied s'
      = applied s
        ++ (if vp_is_set_on p s then [(vp_name p, initial p)] else []).
Proof.
  unfold vp_delete, vp_is_set_on.
  destruct (attrs s !! storage_key (vp_name p)) as [v|] eqn:Hv.
  - eexists. split; [reflexivity|]. split; reflexivity.
  - exists s. split; [reflexivity|].
    split; [symmetry; apply delete_id; exact Hv|].
    symmetry; apply app_nil_r.
Qed.

Lemma is_set_same_key p s s1 :
  attrs s1 !! storage_key (vp_name p) = attrs s !! storage_key (vp_name p) →
  vp_is_set_on p s1 = vp_is_set_on p s.
Proof. intros H. unfold vp_is_set_on. rewrite H. reflexivity. Qed.

(** Deleting a directional property deletes its four sub-properties, in
    the order top, right, bottom, left: the stored values are gone,
    [apply] is called with the initial value for each sub-property that
    was set and for no other, and the property then reads as the four
    initial values. *)
Theorem directional_delete fuel c d pt pr pb pl s :
  class_ok c = true →
  class_attr c (format d TOP) = Some (Validated pt) →
  class_attr c (format d RIGHT) = Some (Validated pr) →
  class_attr c (format d BOTTOM) = Some (Validated pb) →
  class_attr c (format d LEFT) = Some (Validated pl) →
  NoDup (map (format d) DIRECTIONS) →
  ∃ s', dp_delete (delitem (S fuel) c) d s = Ret s' tt
    ∧ (class_attr c (dp_name d) = Some (Directional d) →
       delitem (S (S fuel)) c s (dp_name d) = Ret s' tt)
    ∧ attrs s'
      = delete (storage_key (vp_name pl))
          (delete (storage_key (vp_name pb))
             (delete (storage_key (vp_name pr))
                (delete (storage_key (vp_name pt)) (attrs s))))
    ∧ applied s'
      = applied s
        ++ flat_map (fun p => if vp_is_set_on p s
                              then [(vp_name p, initial p)] else [])
                    [pt; pr; pb; pl]
    ∧ dp_get (getitem (S fuel) c) d s'
      = Ret s' (VTuple [initial pt; initial pr; initial pb; initial pl]).
Proof.
  intros Hok Ht Hr Hb Hl Hdistinct.
  assert (Hne : format d TOP ≠ format d RIGHT ∧ format d TOP ≠ format d BOTTOM
                ∧ format d TOP ≠ format d LEFT
                ∧ format d RIGHT ≠ format d BOTTOM
                ∧ format d RIGHT ≠ format d LEFT
                ∧ format d BOTTOM ≠ format d LEFT).
  { cbn [map DIRECTIONS] in Hdistinct.
    apply NoDup_cons in Hdistinct as [H1 Hd1].
    apply NoDup_cons in Hd1 as [H2 Hd2].
    apply NoDup_cons in Hd2 as [H3 _].
    repeat split; intros E.
    - apply H1. rewrite E. left.
    - apply H1. rewrite E. right. left.
    - apply H1. rewrite E. do 2 right. left.
    - apply H2. rewrite E. left.
    - apply H2. rewrite E. right. left.
    - apply H3. rewrite E. left. }
  destruct Hne as (Htr & Htb & Htl & Hrb & Hrl & Hbl).
  destruct (class_attr_Some _ _ _ Ht) as (Nt & _).
  destruct (class_attr_Some _ _ _ Hr) as (Nr & _).
  destruct (class_attr_Some _ _ _ Hb) as (Nb & _).
  destruct (class_attr_Some _ _ _ Hl) as (Nl & _).
  simpl in Nt, Nr, Nb, Nl.
  assert (Ktr : storage_key (vp_name pt) ≠ storage_key (vp_name pr))
    by (unfold storage_key; congruence).
  assert (Ktb : storage_key (vp_name pt) ≠ storage_key (vp_name pb))
    by (unfold storage_key; congruence).
  assert (Ktl : storage_key (vp_name pt) ≠ storage_key (vp_name pl))
    by (unfold storage_key; congruence).
  assert (Krb : storage_key (vp_name pr) ≠ storage_key (vp_name pb))
    by (unfold storage_key; congruence).
  assert (Krl : storage_key (vp_name pr) ≠ storage_key (vp_name pl))
    by (unfold storage_key; congruence).
  assert (Kbl : storage_key (vp_name pb) ≠ storage_key (vp_name pl))
    by (unfold storage_key; congruence).
  destruct (class_attr_replace _ _ _ Hok Ht) as (Rt & _).
  destruct (class_attr_replace _ _ _ Hok Hr) as (Rr & _).
  destruct (class_attr_replace _ _ _ Hok Hb) as (Rb & _).
  destruct (class_attr_replace _ _ _ Hok Hl) as (Rl & _).
  rewrite <- Rt in Ht. rewrite <- Rr in Hr. rewrite <- Rb in Hb.
  rewrite <- Rl in Hl.
  assert (Hrun : ∃ s', dp_delete (delitem (S fuel) c) d s = Ret s' tt
    ∧ attrs s'
      = delete (storage_key (vp_name pl))
          (delete (storage_key (vp_name pb))
             (delete (storage_key (vp_name pr))
                (delete (storage_key (vp_name pt)) (attrs s))))
    ∧ applied s'
      = applied s
        ++ flat_map (fun p => if vp_is_set_on p s
                              then [(vp_name p, initial p)] else [])
                    [pt; pr; pb; pl]).
  { unfold dp_delete. cbn [for_each DIRECTIONS].
    rewrite (delitem_by_name fuel c s _ pt Ht).
    destruct (vp_delete_effect pt s) as (s1 & -> & A1 & P1). cbn [bind].
    rewrite (delitem_by_name fuel c s1 _ pr Hr).
    destruct (vp_delete_effect pr s1) as (s2 & -> & A2 & P2). cbn [bind].
    rewrite (delitem_by_name fuel c s2 _ pb Hb).
    destruct (vp_delete_effect pb s2) as (s3 & -> & A3 & P3). cbn [bind].
    rewrite (delitem_by_name fuel c s3 _ pl Hl).
    destruct (vp_delete_effect pl s3) as (s4 & -> & A4 & P4). cbn [bind].
    exists s4. split; [reflexivity|]. split.
    - rewrite A4, A3, A2, A1. reflexivity.
    - rewrite P4, P3, P2, P1. cbn [flat_map]. rewrite app_nil_r, <- !app_assoc.
      rewrite (is_set_same_key pr s s1)
        by (rewrite A1; apply lookup_delete_ne; congruence).
      rewrite (is_set_same_key pb s s2)
        by (rewrite A2, A1, !lookup_delete_ne by congruence; reflexivity).
      rewrite (is_set_same_key pl s s3)
        by (rewrite A3, A2, A1, !lookup_delete_ne by congruence; reflexivity).
      reflexivity. }
  destruct Hrun as (s' & Hdel & Hattrs & Happ). exists s'.
  split; [exact Hdel|]. split.
  { intros Hd. cbn [delitem].
    destruct (class_attr_replace _ _ _ Hok Hd) as (-> & ->). rewrite Hd.
    exact Hdel. }
  split; [exact Hattrs|]. split; [exact Happ|].
  unfold dp_get. cbn [map DIRECTIONS collect].
  rewrite (getitem_by_name fuel c s' _ pt Ht). cbn [bind].
  rewrite (getitem_by_name fuel c s' _ pr Hr). cbn [bind].
  rewrite (getitem_by_name fuel c s' _ pb Hb). cbn [bind].
  rewrite (getitem_by_name fuel c s' _ pl Hl). cbn [bind].
  rewrite !vp_get_unset; [reflexivity| | | |]; rewrite Hattrs;
    rewrite !lookup_delete; repeat case_decide; try reflexivity; congruence.
Qed.

Lemma directional_delete_witness :
  ∃ s', dp_delete (delitem 1 Box) margin
                  (setattr empty_style "_margin_left" (VInt 4)) = Ret s' tt
    ∧ applied s' = [("margin_left", VInt 0)]
    ∧ dp_get (getitem 1 Box) margin s'
      = Ret s' (VTuple [VInt 0; VInt 0; VInt 0; VInt 0]).
Proof.
  destruct (directional_delete 0 Box margin (int_prop "margin_top")
              (int_prop "margin_right") (int_prop "margin_bottom")
              (int_prop "margin_left")
              (setattr empty_style "_margin_left" (VInt 4)))
    as (s' & H1 & _ & _ & H2 & H3); try reflexivity.
  { apply (bool_decide_eq_true_1 _). vm_compute. reflexivity. }
  exists s'. split; [exact H1|]. split; [exact H2|exact H3].
Defined.

(** A directional property is [in] every style of its class, whether
    or not any of its sub-properties is set: [is_set_on] asks
    [hasattr] for the public name of a sub-property, and reading a
    declared property never raises. *)
Theorem directional_is_always_contained fuel c d p s :
  class_attr c (dp_name d) = Some (Directional d) →
  class_attr c (format d TOP) = Some (Validated p) →
  dp_is_set_on fuel c d s = Ret s true
  ∧ contains fuel c s (dp_name d) = Ret s true
  ∧ contains fuel c empty_style (dp_name d) = Ret empty_style true.
Proof.
  intros Hd Ht.
  assert (H : ∀ s, dp_is_set_on fuel c d s = Ret s true).
  { intros s0. unfold dp_is_set_on. cbn [any_of DIRECTIONS]. unfold hasattr.
    rewrite Ht. reflexivity. }
  split; [apply H|]. unfold contains. rewrite (declared _ _ _ Hd), Hd.
  split; apply H.
Qed.

Lemma directional_is_always_contained_witness :
  contains 0 Box empty_style "margin" = Ret empty_style true.
Proof.
  apply (directional_is_always_contained 0 Box margin (int_prop "margin_top")
           empty_style); reflexivity.
Defined.

(** ** The mapping interface *)

Lemma comprehension_map {P Y} (g : P → string) (sel : P → bool) (f' : P → Y)
  test f s : ∀ ps,
  (∀ p, p ∈ ps → test s (g p) = Ret s (sel p)) →
  (∀ p, p ∈ ps → f s (g p) = Ret s (f' p)) →
  comprehension (map g ps) test f s
  = Ret s (map f' (filter (fun p => sel p = true) ps)).
Proof.
  induction ps as [|p ps IH]; intros Ht Hf; [reflexivity|].
  cbn [map comprehension]. rewrite (Ht p) by left. cbn [bind].
  rewrite filter_cons.
  assert (IH' := IH (fun q Hq => Ht q (list_elem_of_further _ _ _ Hq))
                    (fun q Hq => Hf q (list_elem_of_further _ _ _ Hq))).
  destruct (sel p) eqn:E.
  - rewrite (Hf p) by left. cbn [bind]. rewrite IH'. cbn [bind].
    rewrite decide_True by reflexivity. reflexivity.
  - rewrite IH'. rewrite decide_False by discriminate. reflexivity.
Qed.

Lemma collect_map {P} (g : P → string) (f' : P → value) f s : ∀ ps,
  (∀ p, p ∈ ps → f s (g p) = Ret s (f' p)) →
  collect (map g ps) f s = Ret s (map f' ps).
Proof.
  induction ps as [|p ps IH]; intros Hf; [reflexivity|].
  cbn [map collect]. rewrite (Hf p) by left. cbn [bind].
  rewrite IH by (intros q Hq; apply Hf; right; exact Hq). reflexivity.
Qed.

Lemma zip_map {P X Y} (g : P → X) (f : P → Y) ps :
  zip (map g ps) (map f ps) = map (fun p => (g p, f p)) ps.
Proof. induction ps as [|p ps IH]; [reflexivity|]. simpl. rewrite IH. reflexivity. Qed.

Lemma sum_of_ones {P} (ps : list P) :
  foldr Nat.add 0 (map (fun _ => 1) ps) = length ps.
Proof. induction ps as [|p ps IH]; [reflexivity|]. simpl. rewrite IH. reflexivity. Qed.

Lemma contains_primary fuel c s p :
  class_ok c = true → p ∈ primaries c →
  contains fuel c s (vp_name p) = Ret s (vp_is_set_on p s).
Proof.
  intros Hok Hp. pose proof (primary_attr c p Hok Hp) as H.
  unfold contains. rewrite (declared _ _ _ H), H. reflexivity.
Qed.

Lemma getitem_primary fuel c s p :
  class_ok c = true → p ∈ primaries c →
  getitem (S fuel) c s (vp_name p) = Ret s (vp_get p s).
Proof.
  intros Hok Hp. apply getitem_by_name.
  rewrite (primary_name_free c p Hok Hp). apply primary_attr; assumption.
Qed.

Lemma set_primaries_elem c s p :
  p ∈ set_primaries c s ↔ p ∈ primaries c ∧ vp_is_set_on p s = true.
Proof. unfold set_primaries. rewrite list_elem_of_filter. tauto. Qed.

Lemma unpack_items fuel c s :
  class_ok c = true →
  unpack (S fuel) c s
  = Ret s (map (fun p => (vp_name p, vp_get p s)) (set_primaries c s)).
Proof.
  intros Hok. unfold unpack, keys. rewrite _PROPERTIES_primaries.
  rewrite (comprehension_map vp_name (fun p => vp_is_set_on p s) vp_name).
  - cbn [bind]. fold (set_primaries c s).
    rewrite (collect_map vp_name (fun p => vp_get p s)).
    + cbn [bind]. rewrite zip_map. reflexivity.
    + intros p Hp. apply set_primaries_elem in Hp as [Hp _].
      apply getitem_primary; assumption.
  - intros p Hp. apply contains_primary; assumption.
  - reflexivity.
Qed.

(** The views of a style as a mapping agree: [keys] and iteration give
    the names of the validated properties that have a stored value, in
    one order, and never the name of a directional property; [len] is
    their number; [items] pairs each with the value the property reads
    as; and unpacking the style as keyword arguments gives the same
    pairs. *)
Theorem mapping_views fuel c s :
  class_ok c = true →
  keys fuel c s = Ret s (map vp_name (set_primaries c s))
  ∧ iter fuel c s = Ret s (map vp_name (set_primaries c s))
  ∧ len fuel c s = Ret s (length (set_primaries c s))
  ∧ items (S fuel) c s
    = Ret s (map (fun p => (vp_name p, vp_get p s)) (set_primaries c s))
  ∧ unpack (S fuel) c s = items (S fuel) c s
  ∧ (∀ name, name ∈ map vp_name (set_primaries c s)
             ↔ ∃ p, class_attr c name = Some (Validated p)
                    ∧ is_Some (attrs s !! storage_key name)).
Proof.
  intros Hok.
  assert (Hkeys : keys fuel c s = Ret s (map vp_name (set_primaries c s))).
  { unfold keys. rewrite _PROPERTIES_primaries.
    apply (comprehension_map vp_name (fun p => vp_is_set_on p s) vp_name).
    - intros p Hp. apply contains_primary; assumption.
    - reflexivity. }
  assert (Hitems : items (S fuel) c s
                   = Ret s (map (fun p => (vp_name p, vp_get p s))
                                (set_primaries c s))).
  { unfold items. rewrite _PROPERTIES_primaries.
    apply (comprehension_map vp_name (fun p => vp_is_set_on p s)
             (fun p => (vp_name p, vp_get p s))).
    - intros p Hp. apply contains_primary; assumption.
    - intros p Hp. rewrite getitem_primary by assumption. reflexivity. }
  split; [exact Hkeys|]. split; [exact Hkeys|]. split.
  { unfold len. rewrite _PROPERTIES_primaries.
    rewrite (comprehension_map vp_name (fun p => vp_is_set_on p s)
               (fun _ => 1)).
    - cbn [bind]. fold (set_primaries c s). rewrite sum_of_ones. reflexivity.
    - intros p Hp. apply contains_primary; assumption.
    - reflexivity. }
  split; [exact Hitems|]. split; [rewrite Hitems; apply unpack_items, Hok|].
  intros name. rewrite list_elem_of_fmap. split.
  - intros (p & -> & Hp). apply set_primaries_elem in Hp as [Hp Hset].
    exists p. split; [apply primary_attr; assumption|].
    unfold vp_is_set_on in Hset.
    destruct (attrs s !! storage_key (vp_name p)); [eauto|discriminate].
  - intros (p & Hattr & [v Hv]).
    destruct (class_attr_Some _ _ _ Hattr) as (Hname & Hin & _).
    simpl in Hname. subst name. exists p. split; [reflexivity|].
    apply set_primaries_elem. split; [apply primaries_elem, Hin|].
    unfold vp_is_set_on. rewrite Hv. reflexivity.
Qed.

Lemma mapping_views_witness :
  keys 0 Box serif_style = Ret serif_style ["font_family"; "margin_top"]
  ∧ len 0 Box serif_style = Ret serif_style 2
  ∧ items 1 Box serif_style
    = Ret serif_style [("font_family", VStr "serif"); ("margin_top", VInt 3)].
Proof.
  destruct (mapping_views 0 Box serif_style eq_refl)
    as (H1 & _ & H2 & H3 & _).
  split; [exact H1|]. split; [exact H2|exact H3].
Defined.

(** ** [update], [copy] and the merge operators *)

Lemma primaries_names c p : p ∈ primaries c → vp_name p ∈ _ALL_PROPERTIES c.
Proof.
  intros Hp. apply primaries_elem in Hp. unfold _ALL_PROPERTIES.
  apply list_elem_of_fmap. exists (Validated p). split; [reflexivity|exact Hp].
Qed.

Lemma primaries_nodup c : class_ok c = true → NoDup (primaries c).
Proof.
  intros Hok. apply class_ok_nodup in Hok. clear -Hok.
  induction c as [|x c IH]; [constructor|].
  unfold _ALL_PROPERTIES in Hok. cbn [map] in Hok.
  apply NoDup_cons in Hok as [Hx Hc]. destruct x as [p|d]; cbn [primaries omap].
  - apply NoDup_cons. split; [|apply IH, Hc].
    intros Hp. apply Hx. apply (primaries_names c p Hp).
  - apply IH, Hc.
Qed.

Lemma filter_ext_in {A} (P Q : A → Prop) `{∀ x, Decision (P x)}
  `{∀ x, Decision (Q x)} (l : list A) :
  (∀ x, x ∈ l → P x ↔ Q x) → filter P l = filter Q l.
Proof.
  induction l as [|x l IH]; intros HPQ; [reflexivity|].
  rewrite !filter_cons.
  rewrite IH by (intros y Hy; apply HPQ; right; exact Hy).
  destruct (decide (P x)) as [HP|HP], (decide (Q x)) as [HQ|HQ];
    try reflexivity; exfalso; pose proof (HPQ x ltac:(left)); tauto.
Qed.

Lemma filter_all {A} (P : A → Prop) `{∀ x, Decision (P x)} (l : list A) :
  (∀ x, x ∈ l → P x) → filter P l = l.
Proof.
  induction l as [|x l IH]; intros HP; [reflexivity|].
  rewrite filter_cons, decide_True by (apply HP; left).
  rewrite IH by (intros y Hy; apply HP; right; exact Hy). reflexivity.
Qed.

Lemma update_cons fuel B c s name v rest p :
  class_ok c = true → p ∈ primaries c → name = vp_name p →
  update (S fuel) B c s ((name, v) :: rest)
  = bind (vp_set B p s v) (fun s _ => update (S fuel) B c s rest).
Proof.
  intros Hok Hp ->. unfold update. cbn [for_each].
  rewrite (primary_name_free c p Hok Hp).
  rewrite (declared _ _ _ (primary_attr c p Hok Hp)).
  rewrite (setitem_by_name fuel B c s (vp_name p) p v); [reflexivity|].
  rewrite (primary_name_free c p Hok Hp). apply primary_attr; assumption.
Qed.

(** Writing values the properties take as they are, one for each of
    some distinct validated properties. *)
Lemma update_properties fuel B c (f : validated_property → value) :
  class_ok c = true → ∀ ps s,
  (∀ p, p ∈ ps → p ∈ primaries c) → NoDup ps →
  (∀ p, p ∈ ps → accepts B p (f p)) →
  ∃ s', update (S fuel) B c s (map (fun p => (vp_name p, f p)) ps) = Ret s' tt
    ∧ (∀ p, p ∈ ps →
         ∃ r, attrs s' !! storage_key (vp_name p) = Some r ∧ r ≠ VNone
              ∧ same_value r (f p)
              ∧ (attrs s !! storage_key (vp_name p) = None → r = f p))
    ∧ (∀ key, (∀ p, p ∈ ps → key ≠ storage_key (vp_name p)) →
              attrs s' !! key = attrs s !! key)
    ∧ applied s'
      = applied s
        ++ map (fun p => (vp_name p, f p))
               (filter (fun p => py_ne (f p) (getattr_or_None s
                                     (storage_key (vp_name p))) = true) ps).
Proof.
  intros Hok. induction ps as [|p ps IH]; intros s Hin Hnd Hacc.
  { exists s. split; [reflexivity|]. split; [intros p Hp; inversion Hp|].
    split; [reflexivity|]. symmetry. apply app_nil_r. }
  apply NoDup_cons in Hnd as [Hp Hnd]. cbn [map].
  rewrite (update_cons fuel B c s _ _ _ p Hok (Hin p ltac:(left)) eq_refl).
  destruct (vp_set_effect B p s (f p) (f p) (Hacc p ltac:(left)))
    as (s1 & -> & (r & Hr & Hrn & Hsame) & Hnew & Hothers & Happ).
  cbn [bind].
  destruct (IH s1 (fun q Hq => Hin q (list_elem_of_further _ _ _ Hq)) Hnd
              (fun q Hq => Hacc q (list_elem_of_further _ _ _ Hq)))
    as (s' & -> & Hps & Hrest & Happ').
  assert (Hkeys : ∀ q, q ∈ ps →
                       storage_key (vp_name q) ≠ storage_key (vp_name p)).
  { intros q Hq. apply (distinct_keys c p q Hok).
    - apply Hin. left.
    - apply Hin. right. exact Hq.
    - intros ->. contradiction. }
  exists s'. split; [reflexivity|]. split; [|split].
  - intros q Hq. apply elem_of_cons in Hq as [->|Hq].
    + exists r. rewrite Hrest by (intros q Hq; apply not_eq_sym, Hkeys, Hq).
      split; [exact Hr|]. split; [exact Hrn|]. split; [exact Hsame|].
      intros Hnone. specialize (Hnew Hnone). congruence.
    + destruct (Hps q Hq) as (r' & Hr' & Hrn' & Hsame' & Hnew').
      exists r'. split; [exact Hr'|]. split; [exact Hrn'|].
      split; [exact Hsame'|]. intros Hnone. apply Hnew'.
      rewrite Hothers by (apply Hkeys, Hq). exact Hnone.
  - intros key Hkey. rewrite Hrest by (intros q Hq; apply Hkey; right; exact Hq).
    apply Hothers. apply Hkey. left.
  - rewrite Happ', Happ, <- app_assoc. f_equal. rewrite filter_cons.
    rewrite (filter_ext_in
               (fun q => py_ne (f q) (getattr_or_None s1
                                       (storage_key (vp_name q))) = true)
               (fun q => py_ne (f q) (getattr_or_None s
                                       (storage_key (vp_name q))) = true)).
    + destruct (py_ne (f p) (getattr_or_None s (storage_key (vp_name p))));
        [rewrite decide_True by reflexivity|
         rewrite decide_False by discriminate]; reflexivity.
    + intros q Hq. unfold getattr_or_None.
      rewrite Hothers by (apply Hkeys, Hq). reflexivity.
Qed.

Lemma stored_value B c s p :
  stored_accepted B c s → p ∈ set_primaries c s →
  attrs s !! storage_key (vp_name p) = Some (vp_get p s)
  ∧ accepts B p (vp_get p s).
Proof.
  intros Hacc Hp. apply set_primaries_elem in Hp as [Hp Hset].
  unfold vp_is_set_on in Hset.
  destruct (attrs s !! storage_key (vp_name p)) as [v|] eqn:Hv;
    [|discriminate].
  pose proof (Hacc p v Hp Hv) as Hv'.
  rewrite (vp_get_stored p s v Hv) by apply Hv'. auto.
Qed.

Lemma set_primaries_nodup c s : class_ok c = true → NoDup (set_primaries c s).
Proof. intros Hok. apply NoDup_filter, primaries_nodup, Hok. Qed.

Lemma copy_effect fuel B c s :
  class_ok c = true → stored_accepted B c s →
  ∃ dup, copy (S fuel) B c s = Ret dup tt
    ∧ (∀ p, p ∈ primaries c →
            attrs dup !! storage_key (vp_name p)
            = attrs s !! storage_key (vp_name p))
    ∧ (∀ key, key ∉ storage_keys c → attrs dup !! key = None)
    ∧ applied dup
      = map (fun p => (vp_name p, vp_get p s)) (set_primaries c s).
Proof.
  intros Hok Hacc. unfold copy. rewrite (unpack_items fuel c s Hok).
  destruct (update_properties fuel B c (fun p => vp_get p s) Hok
              (set_primaries c s) empty_style)
    as (dup & Hdup & Hset & Hrest & Happ).
  { intros p Hp. apply set_primaries_elem in Hp. apply Hp. }
  { apply set_primaries_nodup, Hok. }
  { intros p Hp. apply (stored_value B c s p Hacc Hp). }
  exists dup. split; [exact Hdup|].
  assert (Hattrs : ∀ p, p ∈ primaries c →
                        attrs dup !! storage_key (vp_name p)
                        = attrs s !! storage_key (vp_name p)).
  { intros p Hp. destruct (vp_is_set_on p s) eqn:E.
    - assert (Hp' : p ∈ set_primaries c s) by (apply set_primaries_elem; auto).
      destruct (Hset p Hp') as (r & Hr & _ & _ & Hnew).
      rewrite Hr, (Hnew (lookup_empty _)).
      symmetry. apply (stored_value B c s p Hacc Hp').
    - rewrite Hrest.
      + unfold vp_is_set_on in E. simpl. rewrite lookup_empty.
        destruct (attrs s !! storage_key (vp_name p)); [discriminate|].
        reflexivity.
      + intros q Hq. apply set_primaries_elem in Hq as [Hq Hqs].
        apply not_eq_sym, (distinct_keys c p q Hok Hp Hq). congruence. }
  split; [exact Hattrs|]. split.
  { intros key Hkey. rewrite Hrest; [apply lookup_empty|].
    intros p Hp -> . apply Hkey. unfold storage_keys.
    apply list_elem_of_fmap. exists p. split; [reflexivity|].
    apply set_primaries_elem in Hp. apply Hp. }
  rewrite Happ. simpl. f_equal. apply filter_all.
  intros p Hp. destruct (stored_value B c s p Hacc Hp) as (_ & Hn & _).
  unfold py_ne, getattr_or_None. simpl. rewrite lookup_empty. simpl.
  destruct (py_eq (vp_get p s) VNone) eqn:E; [|reflexivity].
  apply py_eq_None_r in E. contradiction.
Qed.

(** [copy] of a style whose stored values are values the properties
    take as they are: the duplicate stores the same value for every
    validated property and nothing else, so every property reads the
    same and is set on the copy exactly if it is set on the original;
    on the way [apply] is called on the duplicate once for each
    property that is set. *)
Theorem copy_keeps_what_is_set fuel B c s :
  class_ok c = true → stored_accepted B c s →
  ∃ dup, copy (S fuel) B c s = Ret dup tt
    ∧ (∀ p, p ∈ primaries c →
            attrs dup !! storage_key (vp_name p)
            = attrs s !! storage_key (vp_name p))
    ∧ (∀ key, key ∉ storage_keys c → attrs dup !! key = None)
    ∧ (∀ p, p ∈ primaries c →
            vp_get p dup = vp_get p s
            ∧ vp_is_set_on p dup = vp_is_set_on p s)
    ∧ applied dup
      = map (fun p => (vp_name p, vp_get p s)) (set_primaries c s).
Proof.
  intros Hok Hacc.
  destruct (copy_effect fuel B c s Hok Hacc) as (dup & Hdup & Hattrs & Hno & Happ).
  exists dup. split; [exact Hdup|]. split; [exact Hattrs|].
  split; [exact Hno|]. split; [|exact Happ].
  intros p Hp. split; [apply vp_get_same_key|apply is_set_same_key];
    apply Hattrs, Hp.
Qed.

Lemma serif_style_accepted : stored_accepted plain_builtins Box serif_style.
Proof.
  intros p v Hp Hv. unfold Box, primaries in Hp. cbn [omap] in Hp.
  repeat (apply elem_of_cons in Hp as [->|Hp]);
    [| | | | |apply elem_of_nil in Hp as []];
    vm_compute in Hv; try discriminate; injection Hv as <-;
    repeat split; discriminate.
Qed.

Lemma copy_keeps_what_is_set_witness :
  ∃ dup, copy 1 plain_builtins Box serif_style = Ret dup tt
    ∧ applied dup = [("font_family", VStr "serif"); ("margin_top", VInt 3)].
Proof.
  destruct (copy_keeps_what_is_set 0 plain_builtins Box serif_style eq_refl
              serif_style_accepted) as (dup & H1 & _ & _ & _ & H2).
  exists dup. split; [exact H1|exact H2].
Defined.

Lemma update_hits_a_list fuel B c s (Hok : class_ok c = true) : ∀ ps dup,
  (∀ q, q ∈ ps → q ∈ primaries c) →
  (∀ q, q ∈ ps → if is_list q then ∃ l, vp_get q s = VImm l
                 else accepts B q (vp_get q s)) →
  (∃ p, p ∈ ps ∧ is_list p = true) →
  ∃ dup' q, update (S fuel) B c dup
                   (map (fun p => (vp_name p, vp_get p s)) ps)
            = Raise dup' (TypeError (vp_name q))
            ∧ q ∈ ps ∧ is_list q = true.
Proof.
  induction ps as [|q ps IH]; intros dup Hin Hval (p & Hp & Hl).
  { inversion Hp. }
  cbn [map].
  rewrite (update_cons fuel B c dup _ _ _ q Hok (Hin q ltac:(left)) eq_refl).
  pose proof (Hval q ltac:(left)) as Hq.
  destruct (is_list q) eqn:Eq.
  - destruct Hq as (l & ->). exists dup, q.
    split; [|split; [left|exact Eq]].
    unfold vp_set, validate. rewrite Eq. reflexivity.
  - destruct (vp_set_effect B q dup _ _ Hq) as (s1 & -> & _). cbn [bind].
    destruct (IH s1) as (dup' & q' & Hr & Hq' & Hl').
    + intros x Hx. apply Hin. right. exact Hx.
    + intros x Hx. apply Hval. right. exact Hx.
    + exists p. split; [|exact Hl].
      apply elem_of_cons in Hp as [->|Hp]; [congruence|exact Hp].
    + exists dup', q'. split; [exact Hr|]. split; [right; exact Hq'|exact Hl'].
Qed.

(** What a list property stores is an [ImmutableList], which the
    property itself refuses with [TypeError]: the value read from a
    list property cannot be written back, and [copy] of a style on
    which a list property is set raises [TypeError] instead of
    returning a duplicate. *)
Theorem copy_of_a_list_property fuel B c s p l :
  class_ok c = true → p ∈ primaries c → is_list p = true →
  attrs s !! storage_key (vp_name p) = Some (VImm l) →
  (∀ q v, q ∈ primaries c → attrs s !! storage_key (vp_name q) = Some v →
          if is_list q then ∃ l, v = VImm l else accepts B q v) →
  vp_get p s = VImm l
  ∧ setitem (S fuel) B c s (vp_name p) (vp_get p s)
    = Raise s (TypeError (vp_name p))
  ∧ ∃ dup q, copy (S fuel) B c s = Raise dup (TypeError (vp_name q))
             ∧ q ∈ primaries c ∧ is_list q = true.
Proof.
  intros Hok Hp Hl Hv Hstored.
  assert (Hget : vp_get p s = VImm l)
    by (apply vp_get_stored; [exact Hv|discriminate]).
  split; [exact Hget|]. split.
  { rewrite (setitem_by_name fuel B c s (vp_name p) p).
    - rewrite Hget. unfold vp_set, validate. rewrite Hl. reflexivity.
    - rewrite (primary_name_free c p Hok Hp). apply primary_attr; assumption. }
  unfold copy. rewrite (unpack_items fuel c s Hok).
  destruct (update_hits_a_list fuel B c s Hok (set_primaries c s) empty_style)
    as (dup & q & Hr & Hq & Hlq).
  - intros q Hq. apply set_primaries_elem in Hq. apply Hq.
  - intros q Hq. apply set_primaries_elem in Hq as [Hq Hset].
    unfold vp_is_set_on in Hset.
    destruct (attrs s !! storage_key (vp_name q)) as [v|] eqn:Hqv;
      [|discriminate].
    pose proof (Hstored q v Hq Hqv) as H.
    destruct (is_list q).
    + destruct H as (l' & ->). exists l'.
      apply vp_get_stored; [exact Hqv|discriminate].
    + rewrite (vp_get_stored q s v Hqv) by apply H. exact H.
  - exists p. split; [|exact Hl]. apply set_primaries_elem.
    split; [exact Hp|]. unfold vp_is_set_on. rewrite Hv. reflexivity.
  - exists dup, q. split; [exact Hr|]. split; [|exact Hlq].
    apply set_primaries_elem in Hq. apply Hq.
Qed.

Lemma copy_of_a_list_property_witness :
  ∃ s, vp_set plain_builtins (text_list_prop "font_family") empty_style
              (VList [VStr "serif"; VStr "sans"]) = Ret s tt
       ∧ setitem 1 plain_builtins Fonts s "font_family"
                 (vp_get (text_list_prop "font_family") s)
         = Raise s (TypeError "font_family")
       ∧ ∃ dup q, copy 1 plain_builtins Fonts s
                  = Raise dup (TypeError (vp_name q)).
Proof.
  eexists. split; [reflexivity|].
  destruct (copy_of_a_list_property 0 plain_builtins Fonts
              (apply_hook (setattr empty_style "_font_family"
                                   (VImm [VStr "serif"; VStr "sans"]))
                          "font_family" (VImm [VStr "serif"; VStr "sans"]))
              (text_list_prop "font_family") [VStr "serif"; VStr "sans"])
    as (_ & H1 & dup & q & H2 & _); try reflexivity.
  - left.
  - intros q v Hq Hv. apply list_elem_of_singleton in Hq as ->.
    vm_compute in Hv. injection Hv as <-. eexists. reflexivity.
  - split; [exact H1|]. exists dup, q. exact H2.
Defined.

(** The operators [|] and [|=] between styles of one class whose
    stored values are values the properties take as they are: both
    return; in the result a property that is set on the right operand
    reads as it does there (or as an equal value of the left operand),
    and any other property is as on the left operand.  With a style of
    another class, or with something that is not a mapping, the result
    is [NotImplemented]. *)
Theorem merge_takes_the_right_operand fuel B c s o :
  class_ok c = true → stored_accepted B c s → stored_accepted B c o →
  (∃ r, or_ (S fuel) B c s (SameClass o) = Computed (Ret r tt)
        ∧ ∀ p, p ∈ primaries c →
            if vp_is_set_on p o
            then same_value (vp_get p r) (vp_get p o)
                 ∧ vp_is_set_on p r = true
            else vp_get p r = vp_get p s
                 ∧ vp_is_set_on p r = vp_is_set_on p s)
  ∧ (∃ r, ior (S fuel) B c s (SameClass o) = Computed (Ret r tt)
          ∧ ∀ p, p ∈ primaries c →
              if vp_is_set_on p o
              then same_value (vp_get p r) (vp_get p o)
                   ∧ vp_is_set_on p r = true
              else vp_get p r = vp_get p s
                   ∧ vp_is_set_on p r = vp_is_set_on p s)
  ∧ or_ (S fuel) B c s OtherClass = NotImplemented
  ∧ or_ (S fuel) B c s NotAMapping = NotImplemented
  ∧ ior (S fuel) B c s OtherClass = NotImplemented
  ∧ ior (S fuel) B c s NotAMapping = NotImplemented.
Proof.
  intros Hok Hs Ho.
  assert (Hmerge : ∀ s0, ∃ r,
            update (S fuel) B c s0
                   (map (fun p => (vp_name p, vp_get p o)) (set_primaries c o))
            = Ret r tt
            ∧ ∀ p, p ∈ primaries c →
                if vp_is_set_on p o
                then same_value (vp_get p r) (vp_get p o)
                     ∧ vp_is_set_on p r = true
                else attrs r !! storage_key (vp_name p)
                     = attrs s0 !! storage_key (vp_name p)).
  { intros s0.
    destruct (update_properties fuel B c (fun p => vp_get p o) Hok
                (set_primaries c o) s0)
      as (r & Hr & Hset & Hrest & _).
    { intros p Hp. apply set_primaries_elem in Hp. apply Hp. }
    { apply set_primaries_nodup, Hok. }
    { intros p Hp. apply (stored_value B c o p Ho Hp). }
    exists r. split; [exact Hr|]. intros p Hp.
    destruct (vp_is_set_on p o) eqn:E.
    - destruct (Hset p) as (x & Hx & Hxn & Hsame & _);
        [apply set_primaries_elem; auto|].
      rewrite (vp_get_stored p r x Hx Hxn). split; [exact Hsame|].
      unfold vp_is_set_on. rewrite Hx. reflexivity.
    - apply Hrest. intros q Hq. apply set_primaries_elem in Hq as [Hq Hqs].
      apply not_eq_sym, (distinct_keys c p q Hok Hp Hq). congruence. }
  split; [|split; [|repeat split]].
  - destruct (copy_effect fuel B c s Hok Hs) as (dup & Hdup & Hattrs & _).
    destruct (Hmerge dup) as (r & Hr & Hprops).
    exists r. unfold or_. cbn [is_operand]. rewrite Hdup. cbn [bind].
    unfold unpack_operand. rewrite (unpack_items fuel c o Hok). cbn [bind].
    split; [rewrite Hr; reflexivity|].
    intros p Hp. specialize (Hprops p Hp).
    destruct (vp_is_set_on p o); [exact Hprops|].
    rewrite (Hattrs p Hp) in Hprops.
    split; [apply vp_get_same_key|apply is_set_same_key]; exact Hprops.
  - destruct (Hmerge s) as (r & Hr & Hprops).
    exists r. unfold ior. cbn [is_operand].
    unfold unpack_operand. rewrite (unpack_items fuel c o Hok). cbn [bind].
    split; [rewrite Hr; reflexivity|].
    intros p Hp. specialize (Hprops p Hp).
    destruct (vp_is_set_on p o); [exact Hprops|].
    split; [apply vp_get_same_key|apply is_set_same_key]; exact Hprops.
Qed.

Lemma mono_style_accepted : stored_accepted plain_builtins Box mono_style.
Proof.
  intros p v Hp Hv. unfold Box, primaries in Hp. cbn [omap] in Hp.
  repeat (apply elem_of_cons in Hp as [->|Hp]);
    [| | | | |apply elem_of_nil in Hp as []];
    vm_compute in Hv; try discriminate; injection Hv as <-;
    repeat split; discriminate.
Qed.

Lemma merge_takes_the_right_operand_witness :
  ∃ r, or_ 1 plain_builtins Box serif_style (SameClass mono_style)
       = Computed (Ret r tt)
       ∧ same_value (vp_get (text_prop "font_family" (VStr "system")) r)
                    (VStr "mono")
       ∧ vp_get (int_prop "margin_top") r = VInt 3.
Proof.
  destruct (merge_takes_the_right_operand 0 plain_builtins Box serif_style
              mono_style eq_refl serif_style_accepted mono_style_accepted)
    as ((r & Hr & Hp) & _).
  exists r. split; [exact Hr|]. split.
  - apply (Hp (text_prop "font_family" (VStr "system"))). left.
  - apply (Hp (int_prop "margin_top")). right. left.
Defined.

(** ** What is stored has been validated *)

Lemma leaves_bind {A C} (Inv : style → Prop) (r : result A)
  (k : style → A → result C) :
  leaves Inv r → (∀ s a, Inv s → leaves Inv (k s a)) → leaves Inv (bind r k).
Proof. destruct r; simpl; auto. Qed.

Lemma leaves_for_each {X} (Inv : style → Prop) (body : X → style → result unit) :
  (∀ x s, Inv s → leaves Inv (body x s)) →
  ∀ xs s, Inv s → leaves Inv (for_each xs body s).
Proof.
  intros Hbody. induction xs as [|x xs IH]; intros s Hs; [exact Hs|].
  cbn [for_each]. apply leaves_bind; [apply Hbody, Hs|].
  intros s' _ Hs'. apply IH, Hs'.
Qed.

Lemma vp_set_validated B c p s v :
  class_ok c = true → p ∈ primaries c → stored_validated B c s →
  leaves (stored_validated B c) (vp_set B p s v).
Proof.
  intros Hok Hp Hs. unfold vp_set.
  destruct (is_descriptor v (vp_name p)); [exact Hs|].
  destruct (validate B p v) as [n|e] eqn:Hv;
    [|destruct v; exact Hs].
  assert (Hgoal : leaves (stored_validated B c)
            (if py_ne n (getattr_or_None s (storage_key (vp_name p)))
             then Ret (apply_hook (setattr s (storage_key (vp_name p)) n)
                                  (vp_name p) n) tt
             else Ret s tt)).
  { destruct (py_ne _ _); [|exact Hs]. intros q w Hq Hw. simpl in Hw.
    destruct (decide (vp_name q = vp_name p)) as [E|Hne].
    - assert (q = p) as ->.
      { pose proof (primary_attr c p Hok Hp) as H1.
        pose proof (primary_attr c q Hok Hq) as H2.
        rewrite E in H2. congruence. }
      rewrite lookup_insert_eq in Hw. injection Hw as <-. eauto.
    - rewrite lookup_insert_ne in Hw by (unfold storage_key; congruence).
      apply (Hs q w Hq Hw). }
  destruct v; try exact Hgoal. exact Hs.
Qed.

Lemma vp_delete_validated B c p s :
  stored_validated B c s → leaves (stored_validated B c) (vp_delete p s).
Proof.
  intros Hs. unfold vp_delete.
  destruct (attrs s !! storage_key (vp_name p)); [|exact Hs].
  intros q w Hq Hw. simpl in Hw. apply lookup_delete_Some in Hw as [_ Hw].
  apply (Hs q w Hq Hw).
Qed.

Lemma setitem_validated_store B c (Hok : class_ok c = true) : ∀ fuel s name v,
  stored_validated B c s →
  leaves (stored_validated B c) (setitem fuel B c s name v).
Proof.
  induction fuel as [|fuel IH]; intros s name v Hs; [exact I|].
  cbn [setitem]. destruct (bool_decide _); [|exact Hs].
  destruct (class_attr c (replace_hyphens name)) as [[p|d]|] eqn:Hattr;
    [| |exact Hs].
  - apply (vp_set_validated B c p s v Hok); [|exact Hs].
    apply primaries_elem. eapply class_attr_Some, Hattr.
  - unfold dp_set. destruct (is_descriptor v (dp_name d)); [exact Hs|].
    destruct (ASSIGNMENT_SCHEMES _); [|exact Hs].
    apply leaves_for_each; [|exact Hs].
    intros [direction index] s' Hs'. apply IH, Hs'.
Qed.

Lemma delitem_validated_store B c : ∀ fuel s name,
  stored_validated B c s →
  leaves (stored_validated B c) (delitem fuel c s name).
Proof.
  induction fuel as [|fuel IH]; intros s name Hs; [exact I|].
  cbn [delitem]. destruct (bool_decide _); [|exact Hs].
  destruct (class_attr c (replace_hyphens name)) as [[p|d]|]; [| |exact Hs].
  - apply vp_delete_validated, Hs.
  - unfold dp_delete. apply leaves_for_each; [|exact Hs].
    intros direction s' Hs'. apply IH, Hs'.
Qed.

(** Nothing is stored on a style that has not passed validation: a new
    style stores nothing, and writing, deleting and [update], whatever
    the name and the value and whether they return or raise (also when
    a directional write or an [update] stops half way), leave only
    values that [validate] of the property has returned. *)
Theorem stored_values_are_validated fuel B c s :
  class_ok c = true →
  stored_validated B c empty_style
  ∧ (stored_validated B c s →
     (∀ name v, leaves (stored_validated B c) (setitem fuel B c s name v))
     ∧ (∀ name, leaves (stored_validated B c) (delitem fuel c s name))
     ∧ (∀ styles, leaves (stored_validated B c) (update fuel B c s styles))).
Proof.
  intros Hok. split.
  { intros p v _ Hv. simpl in Hv. rewrite lookup_empty in Hv. discriminate. }
  intros Hs. split; [|split].
  - intros name v. apply setitem_validated_store; assumption.
  - intros name. apply delitem_validated_store; assumption.
  - intros styles. unfold update. apply leaves_for_each; [|exact Hs].
    intros [name v] s' Hs'. destruct (bool_decide _); [|exact Hs'].
    apply setitem_validated_store; assumption.
Qed.

Lemma stored_values_are_validated_witness :
  stored_validated plain_builtins Box empty_style
  ∧ leaves (stored_validated plain_builtins Box)
           (setitem 2 plain_builtins Box empty_style "margin"
                    (VTuple [VInt 1; VStr "wide"])).
Proof.
  destruct (stored_values_are_validated 2 plain_builtins Box empty_style
              eq_refl) as (H0 & H).
  split; [exact H0|]. apply (H H0).
Defined.

(** ** [reapply] *)

Lemma reapply_trace fuel c s :
  class_ok c = true →
  reapply (S fuel) c s
  = Ret (mk_style (attrs s)
                  (applied s
                   ++ map (fun p => (vp_name p, vp_get p s)) (primaries c)))
        tt.
Proof.
  intros Hok. unfold reapply. rewrite _PROPERTIES_primaries.
  assert (Hall : ∀ p, p ∈ primaries c → p ∈ primaries c) by auto.
  revert Hall. generalize (primaries c) at 1 3 4 as ps. intros ps. revert s.
  induction ps as [|p ps IH]; intros s Hall; cbn [map for_each].
  - rewrite app_nil_r. destruct s; reflexivity.
  - rewrite (getitem_primary fuel c s p Hok) by (apply Hall; left).
    cbn [bind]. rewrite IH by (intros q Hq; apply Hall; right; exact Hq).
    cbn [apply_hook attrs applied]. rewrite <- app_assoc. reflexivity.
Qed.

End StyleFacts.

(* ===================================================================== *)
(** * node.py: style, applicator and refresh *)
(* ===================================================================== *)

Module BindingFacts.
Import Declaration DeclarationFacts Mapping StyleFacts Binding.

(** ** Style and applicator *)

(** A node is given a style whose stored values are values the
    properties take as they are.  Without an applicator the node keeps
    a copy of the style and nothing is replayed.  As soon as the node
    has both a style and an applicator, whichever comes second, the
    style is bound to the applicator and [reapply] runs once: [apply]
    is called for every validated property of the class, set or not,
    with the value it reads as.  Both orders end in the same node.
    Taking the applicator away again unbinds the style and calls
    nothing, and so does taking the style away. *)
Theorem binding_replays_once fuel B c s a :
  class_ok c = true → stored_accepted B c s →
  ∃ dup,
    copy (S fuel) B c s = Ret dup tt
    ∧ Node_init (S fuel) B c (Some s) None
      = Done (mk_slots (Some dup) None None 0)
    ∧ ∃ bound,
        bound = mk_style (attrs dup)
                  (applied dup
                   ++ map (fun p => (vp_name p, vp_get p s)) (primaries c))
        ∧ Node_init (S fuel) B c (Some s) (Some a)
          = Done (mk_slots (Some bound) (Some a) (Some a) 0)
        ∧ set_applicator (S fuel) c (mk_slots (Some dup) None None 0) (Some a)
          = Done (mk_slots (Some bound) (Some a) (Some a) 0)
        ∧ set_applicator (S fuel) c
            (mk_slots (Some bound) (Some a) (Some a) 0) None
          = Done (mk_slots (Some bound) None None 0)
        ∧ set_style (S fuel) B c
            (mk_slots (Some bound) (Some a) (Some a) 0) None
          = Done (mk_slots None None (Some a) 0).
Proof.
  intros Hok Hacc.
  destruct (copy_effect fuel B c s Hok Hacc) as (dup & Hdup & Hattrs & _).
  exists dup. split; [exact Hdup|].
  unfold Node_init, set_applicator, set_style, try_reapply.
  cbn [blank _style _applicator style_applicator warnings and_then].
  rewrite Hdup. cbn [_applicator].
  split; [reflexivity|].
  rewrite (reapply_trace fuel c dup Hok).
  assert (E : map (fun p => (vp_name p, vp_get p dup)) (primaries c)
              = map (fun p => (vp_name p, vp_get p s)) (primaries c)).
  { apply map_ext_in. intros p Hp. f_equal. apply vp_get_same_key, Hattrs.
    apply list_elem_of_In, Hp. }
  rewrite E. eexists. split; [reflexivity|]. repeat split.
Qed.

Lemma binding_replays_once_witness :
  ∃ n, Node_init 1 plain_builtins Box (Some serif_style) (Some 7) = Done n
       ∧ (applied <$> _style n)
         = Some [("font_family", VStr "serif"); ("margin_top", VInt 3);
                 ("font_family", VStr "serif"); ("margin_top", VInt 3);
                 ("margin_right", VInt 0); ("margin_bottom", VInt 0);
                 ("margin_left", VInt 0)].
Proof.
  destruct (binding_replays_once 0 plain_builtins Box serif_style 7 eq_refl
              serif_style_accepted)
    as (dup & Hdup & _ & bound & Hb & Hinit & _).
  eexists. split; [exact Hinit|]. simpl. rewrite Hb. simpl.
  vm_compute in Hdup. injection Hdup as <-. reflexivity.
Defined.

(** ** [refresh] *)



End BindingFacts.
